(** * Guard compiler of [@fp-ts/codec]: schema [Meta] to runtime type guard

    A shallow embedding of [Guard.ts] (the second document of
    [workerRunner.ts]): the combinators [string], [minLength], [maxLength],
    [number], [minimum], [maximum], [boolean], [lazy], the predicates
    [isUnknownIndexSignature] and [isGuardAnnotation], and the compiler [go].

    JavaScript values are modelled as trees; a guard is the closure the
    source builds with [make], kept as data (one constructor per closure
    site) and run by [is_]; a thrown exception is the [Throw] result.  The
    caches of [S.memoize] are state: [go_m] and [is_m] are [go] and [is_]
    with the caches, in a store passed from call to call.
    Symbols, BigInts, sparse arrays, proxies, cyclic objects and objects of
    another prototype than [Object.prototype] are not among the values. *)

From Stdlib Require Import List String Ascii Bool Arith ZArith QArith Lia.
Import ListNotations.

#[local] Set Warnings "-register-all".
Local Close Scope Q_scope.
Local Open Scope string_scope.
Local Open Scope list_scope.

(** ** JavaScript numbers

    Only [typeof], [>=], [<=] and [===] are applied to numbers by the code.
    A number is [NaN], an infinity or a rational; every finite binary64 value
    is a rational and the three operators agree with IEEE 754 on them
    ([+0] and [-0] are one value here, as they are for all three). *)

Inductive js_number : Type :=
| NaN
| NegInfinity
| Finite (q : Q)
| Infinity.

(** [x <= y] *)
Definition num_le (x y : js_number) : bool :=
  match x, y with
  | NaN, _ | _, NaN => false
  | NegInfinity, _ => true
  | _, Infinity => true
  | Finite a, Finite b => Qle_bool a b
  | _, _ => false
  end.

(** [x >= y] *)
Definition num_ge (x y : js_number) : bool := num_le y x.

(** [x === y] on numbers *)
Definition num_eq (x y : js_number) : bool :=
  match x, y with
  | Finite a, Finite b => Qeq_bool a b
  | NegInfinity, NegInfinity => true
  | Infinity, Infinity => true
  | _, _ => false
  end.

Definition num_of_Z (z : Z) : js_number := Finite (inject_Z z).
Definition num_of_nat (n : nat) : js_number := num_of_Z (Z.of_nat n).

(** ** Exceptions and results *)

Inductive error : Type :=
| Error (message : string)
| TypeError (message : string).

Inductive result (A : Type) : Type :=
| Ok (a : A)
| Throw (e : error).

Arguments Ok {A} a.
Arguments Throw {A} e.

Definition bind {A B : Type} (r : result A) (k : A -> result B) : result B :=
  match r with
  | Ok a => k a
  | Throw e => Throw e
  end.

Notation "x <- r ;; k" := (bind r (fun x => k))
  (at level 61, r at next level, right associativity).

Section MapM.
Context {A B : Type} (f : A -> result B).

(** [l.map(f)] where [f] may throw: the first exception ends the loop. *)
Fixpoint mapM (l : list A) : result (list B) :=
  match l with
  | [] => Ok []
  | x :: l' =>
      match f x with
      | Ok y =>
          match mapM l' with
          | Ok ys => Ok (y :: ys)
          | Throw e => Throw e
          end
      | Throw e => Throw e
      end
  end.
End MapM.

Section FilterM.
Context {A : Type} (f : A -> result bool).

(** [l.filter(f)] where [f] may throw. *)
Fixpoint filterM (l : list A) : result (list A) :=
  match l with
  | [] => Ok []
  | x :: l' =>
      match f x with
      | Ok b =>
          match filterM l' with
          | Ok ys => Ok (if b then x :: ys else ys)
          | Throw e => Throw e
          end
      | Throw e => Throw e
      end
  end.
End FilterM.

(** ** JavaScript values

    [VObj props] is a plain object (prototype [Object.prototype]) with its
    own enumerable properties, listed in the order [Object.keys] enumerates
    them; reading a property gives a value, [Ok v], or throws, [Throw e]
    (an accessor property whose getter throws).  [VArr elems] is a dense
    array; [VFun name arity] is a function object, known by its name;
    [VObjectPrototype] is the object [Object.prototype] itself, which a
    plain object answers for [__proto__].  A string is its sequence of code
    units.  A value is a finite tree: an object that holds itself (a cyclic
    object graph) is not among the values. *)

Inductive value : Type :=
| VUndefined
| VNull
| VBool (b : bool)
| VNum (n : js_number)
| VStr (s : string)
| VArr (elems : list value)
| VObj (props : list (string * result value))
| VFun (name : string) (arity : nat)
| VObjectPrototype.

(** [typeof u] *)
Definition typeof (u : value) : string :=
  match u with
  | VUndefined => "undefined"
  | VNull => "object"
  | VBool _ => "boolean"
  | VNum _ => "number"
  | VStr _ => "string"
  | VArr _ => "object"
  | VObj _ => "object"
  | VFun _ _ => "function"
  | VObjectPrototype => "object"
  end.

(** [Array.isArray(u)] *)
Definition isArray (u : value) : bool :=
  match u with VArr _ => true | _ => false end.

(** [u != null] *)
Definition not_nullish (u : value) : bool :=
  match u with VUndefined | VNull => false | _ => true end.

(** Association lists keyed by property name. *)
Fixpoint assoc {A : Type} (key : string) (l : list (string * A)) : option A :=
  match l with
  | [] => None
  | (k, v) :: l' => if String.eqb key k then Some v else assoc key l'
  end.

Definition mem (key : string) (l : list string) : bool :=
  existsb (String.eqb key) l.

(** The own properties of [Object.prototype], none of them enumerable: the
    built-in functions, and the accessor [__proto__]. *)
Definition object_prototype : list (string * value) :=
  [ ("constructor", VFun "Object" 1);
    ("__defineGetter__", VFun "__defineGetter__" 2);
    ("__defineSetter__", VFun "__defineSetter__" 2);
    ("hasOwnProperty", VFun "hasOwnProperty" 1);
    ("__lookupGetter__", VFun "__lookupGetter__" 1);
    ("__lookupSetter__", VFun "__lookupSetter__" 1);
    ("isPrototypeOf", VFun "isPrototypeOf" 1);
    ("propertyIsEnumerable", VFun "propertyIsEnumerable" 1);
    ("toString", VFun "toString" 0);
    ("valueOf", VFun "valueOf" 0);
    ("toLocaleString", VFun "toLocaleString" 0) ].

Definition object_prototype_keys : list string :=
  map fst object_prototype ++ ["__proto__"].

(** [Object.keys(o)] of a plain object. *)
Definition keys {A : Type} (props : list (string * A)) : list string :=
  map fst props.

(** [p[key]] on an object of prototype [proto] that has no own property
    [key]: the property of [Object.prototype], where the getter [__proto__]
    answers the prototype. *)
Definition inherited (proto : value) (key : string) : value :=
  match assoc key object_prototype with
  | Some v => v
  | None => if String.eqb key "__proto__" then proto else VUndefined
  end.

(** [o[key]] on a plain object: the own property, else the inherited one,
    else [undefined]. *)
Definition obj_get (props : list (string * result value)) (key : string)
  : result value :=
  match assoc key props with
  | Some r => r
  | None => Ok (inherited VObjectPrototype key)
  end.

(** [a[key]] on an object; the code reads no property of another value
    this way. *)
Definition get_property (a : value) (key : string) : result value :=
  match a with
  | VObj props => obj_get props key
  | VObjectPrototype => Ok (inherited VNull key)
  | _ => Ok VUndefined
  end.

(** The object [{ k1: v1, ... }] of data properties. *)
Definition data_object (props : list (string * value)) : value :=
  VObj (map (fun entry => (fst entry, Ok (snd entry))) props).

(** [key in o] for a plain object [o]. *)
Definition obj_has (props : list (string * result value)) (key : string) : bool :=
  mem key (keys props) || mem key object_prototype_keys.

(** The own enumerable properties of an object [u]. *)
Definition own_properties (u : value) : list (string * result value) :=
  match u with VObj props => props | _ => [] end.

(** The elements of [u] when [u] is an array. *)
Definition elements (u : value) : list value :=
  match u with VArr elems => elems | _ => [] end.

(** [a[i]] on an array: [undefined] past the end. *)
Definition arr_get (elems : list value) (i : nat) : value :=
  nth i elems VUndefined.

(** ** Property order of an object built by assignment

    [Object.keys] lists array-index keys first, in ascending order, and the
    other keys after them in the order of their creation. *)

Definition digit_of (c : ascii) : option N :=
  let n := N_of_ascii c in
  if ((48 <=? n) && (n <=? 57))%N then Some (n - 48)%N else None.

Fixpoint digits_value (s : string) (acc : N) : option N :=
  match s with
  | EmptyString => Some acc
  | String c s' =>
      match digit_of c with
      | Some d => digits_value s' (10 * acc + d)%N
      | None => None
      end
  end.

(** The array index a key denotes: a canonical decimal below [2^32 - 1]. *)
Definition array_index (key : string) : option N :=
  match key with
  | EmptyString => None
  | String c rest =>
      if Ascii.eqb c "0"%char then
        match rest with EmptyString => Some 0%N | _ => None end
      else
        match digits_value key 0 with
        | Some n => if (n <=? 4294967294)%N then Some n else None
        | None => None
        end
  end.

(** Does a new key [key] come before the existing key [k]? *)
Definition key_before (key k : string) : bool :=
  match array_index key, array_index k with
  | Some n, Some m => (n <? m)%N
  | Some _, None => true
  | None, _ => false
  end.

(** Create the own property [key] at its place in the enumeration order. *)
Fixpoint obj_insert {A : Type} (props : list (string * A)) (key : string) (v : A)
  : list (string * A) :=
  match props with
  | [] => [(key, v)]
  | (k, w) :: props' =>
      if key_before key k then (key, v) :: props
      else (k, w) :: obj_insert props' key v
  end.

(** Overwrite the own property [key], which keeps its place. *)
Fixpoint obj_replace {A : Type} (props : list (string * A)) (key : string) (v : A)
  : list (string * A) :=
  match props with
  | [] => []
  | (k, w) :: props' =>
      if String.eqb key k then (k, v) :: props'
      else (k, w) :: obj_replace props' key v
  end.

(** [o[key] = v] on own data properties. *)
Definition obj_set {A : Type} (props : list (string * A)) (key : string) (v : A)
  : list (string * A) :=
  if mem key (keys props) then obj_replace props key v
  else obj_insert props key v.

(** ** Meta *)

(** A [Lazy] node holds a closure [f : () => Meta]; closures are named and
    the runtime resolves the name ([force]), so that a schema may refer to
    itself. *)
Definition thunk : Type := nat.

Record Symbol : Type := { symbol_id : nat; description : option string }.

Module Meta.
Inductive t : Type :=
| Apply (symbol : Symbol) (metas : list t) (annotations : list value)
| String (minLength maxLength : option js_number)
| Number (minimum maximum : option js_number)
| Boolean
| Of (value : value)
| Tuple (components : list t) (restElement : option t)
| Union (members : list t)
| Struct (fields : list (string * t)) (indexSignature : option t)
| Lazy (symbol : Symbol) (f : thunk).
End Meta.

(** ** Guards

    A guard is the closure passed to [make]; each constructor is one closure
    site of the source and holds what that closure captures.  The [meta]
    component of a guard is not read by any predicate and is left out.

    - [struct_guard fields fields_proto oIndexSignature]: [fields] are the
      own properties of the object [fields] of the source, [fields_proto]
      tells whether its prototype was replaced by a guard object (an
      assignment to [__proto__]).
    - [lazy symbol f]: [f] names the closure [meta.f]; the captured
      [() => go(meta.f())] is run by [is_].  In the store of the memoized
      compiler a lazy guard names its closure by its place in the store.
    - [custom_guard predicate]: a guard made outside this module (by the
      provider of a [GuardAnnotation]).

    [string_guard], [number_guard] and [boolean_guard] are the guards
    [string], [number] and [boolean] of the source; [minLength n self] is
    [minLength(n)(self)], and so on. *)
Inductive Guard : Type :=
| string_guard
| minLength (n : js_number) (self : Guard)
| maxLength (n : js_number) (self : Guard)
| number_guard
| minimum (n : js_number) (self : Guard)
| maximum (n : js_number) (self : Guard)
| boolean_guard
| of_guard (literal : value)
| tuple_guard (components : list Guard) (restElement : option Guard)
| union_guard (members : list Guard)
| struct_guard (fields : list (string * Guard)) (fields_proto : bool)
    (oIndexSignature : option Guard)
| lazy (symbol : Symbol) (f : thunk)
| custom_guard (predicate : value -> result bool).

(** What the guard code calls into: the providers of guard annotations
    (functions, known by name), the closures of [Lazy] nodes, the conversion
    to a number of a value that is not a primitive number, boolean, [null]
    or [undefined] ([ToNumber] on strings and objects), and the identity of
    objects, which the tree of a value does not carry. *)
Record Runtime : Type := {
  guardFor : string -> list value -> list Guard -> result Guard;
  force : thunk -> Meta.t;
  to_number_ext : value -> result js_number;
  same_reference : value -> value -> bool
}.

(** ** The source's predicates on unknown values *)

(** [typeof u === "object" && u != null && !Array.isArray(u)] *)
Definition isUnknownIndexSignature (u : value) : bool :=
  String.eqb (typeof u) "object" && not_nullish u && negb (isArray u).

(** [u !== null] *)
Definition not_null (u : value) : bool :=
  match u with VNull => false | _ => true end.

(** [v === s] for a string literal [s] *)
Definition equals_string (v : value) (s : string) : bool :=
  match v with VStr s' => String.eqb s' s | _ => false end.

(** [u !== null && typeof u === "object" && ("_tag" in u) &&
    (u["_tag"] === "GuardAnnotation")]; an array has no ["_tag"]. *)
Definition isGuardAnnotation (u : value) : result bool :=
  if not_null u && String.eqb (typeof u) "object" then
    match u with
    | VObj props =>
        if obj_has props "_tag" then
          tag <- obj_get props "_tag" ;;
          Ok (equals_string tag "GuardAnnotation")
        else Ok false
    | _ => Ok false
    end
  else Ok false.

(** ** The compiler *)

Definition dquote : string :=
  String (Ascii.Ascii false true false false false true false false) EmptyString.

(** [`${description}`] of a symbol *)
Definition description_text (symbol : Symbol) : string :=
  match description symbol with
  | Some d => d
  | None => "undefined"
  end.

(** [`Missing "GuardAnnotation" for ${meta.symbol.description}`] *)
Definition missing_message (symbol : Symbol) : string :=
  "Missing " ++ dquote ++ "GuardAnnotation" ++ dquote ++ " for " ++
  description_text symbol.

(** The object [fields] of the [Struct] case: its own properties and whether
    its prototype was replaced. *)
Definition fields_object : Type := (list (string * Guard) * bool)%type.

Definition fields_empty : fields_object := ([], false).

(** [fields[key] = guard]: on a plain object the key [__proto__] is the
    setter inherited from [Object.prototype], which replaces the prototype
    by the guard object and creates no own property. *)
Definition fields_assign (fields : fields_object) (key : string) (guard : Guard)
  : fields_object :=
  if String.eqb key "__proto__" then (fst fields, true)
  else (obj_set (fst fields) key guard, snd fields).

(** [key in fields]: an own key, a key of the guard object [{ meta, is }]
    when that is the prototype, or a key of [Object.prototype]. *)
Definition fields_has (fields : list (string * Guard)) (fields_proto : bool)
  (key : string) : bool :=
  mem key (keys fields) ||
  (fields_proto && mem key ["meta"; "is"]) ||
  mem key object_prototype_keys.

Section FieldsLoop.
Context (compile : Meta.t -> result Guard).

(** [for (const field of meta.fields) fields[field.key] = go(field.value)] *)
Fixpoint fields_loop (l : list (string * Meta.t)) (fields : fields_object)
  : result fields_object :=
  match l with
  | [] => Ok fields
  | (key, value) :: l' =>
      match compile value with
      | Ok guard => fields_loop l' (fields_assign fields key guard)
      | Throw e => Throw e
      end
  end.
End FieldsLoop.

Section Compiler.
(** The providers of the guard annotations. *)
Variable provider : string -> list value -> list Guard -> result Guard.

(** [go], the function that [S.memoize] wraps, without its cache.  [go_m]
    below is [go] with the cache, keyed by the identity of the node; it
    answers what [go] answers ([go_m_agrees]). *)
Fixpoint go (meta : Meta.t) : result Guard :=
  match meta with
  | Meta.Apply symbol metas annotations =>
      annotations' <- filterM isGuardAnnotation annotations ;;
      match annotations' with
      | annotation :: _ =>
          guardFor <- get_property annotation "guardFor" ;;
          guards <- mapM go metas ;;
          match guardFor with
          | VFun name _ => provider name annotations guards
          | _ => Throw (TypeError "annotations[0].guardFor is not a function")
          end
      | [] => Throw (Error (missing_message symbol))
      end
  | Meta.String min max =>
      let out := string_guard in
      let out := match min with Some n => minLength n out | None => out end in
      let out := match max with Some n => maxLength n out | None => out end in
      Ok out
  | Meta.Number min max =>
      let out := number_guard in
      let out := match min with Some n => minimum n out | None => out end in
      let out := match max with Some n => maximum n out | None => out end in
      Ok out
  | Meta.Boolean => Ok boolean_guard
  | Meta.Of v => Ok (of_guard v)
  | Meta.Tuple components restElement =>
      components' <- mapM go components ;;
      restElement' <- match restElement with
                      | Some rest => guard <- go rest ;; Ok (Some guard)
                      | None => Ok None
                      end ;;
      Ok (tuple_guard components' restElement')
  | Meta.Union members =>
      members' <- mapM go members ;;
      Ok (union_guard members')
  | Meta.Struct fields indexSignature =>
      fields' <- fields_loop go fields fields_empty ;;
      oIndexSignature <- match indexSignature with
                         | Some value => guard <- go value ;; Ok (Some guard)
                         | None => Ok None
                         end ;;
      Ok (struct_guard (fst fields') (snd fields') oIndexSignature)
  | Meta.Lazy symbol f => Ok (lazy symbol f)
  end.

(** The compiled optional part of a node ([restElement],
    [indexSignature]). *)
Definition go_option (o : option Meta.t) : result (option Guard) :=
  match o with
  | Some m => guard <- go m ;; Ok (Some guard)
  | None => Ok None
  end.
End Compiler.

(** [unsafeGuardFor(schema)]: [go] on the [meta] of the schema, for the
    providers of the runtime. *)
Definition unsafeGuardFor (provider : string -> list value -> list Guard -> result Guard)
  (meta : Meta.t) : result Guard :=
  go provider meta.

(** ** Running a guard *)

(** The outcome of [guard.is(a)]: a boolean, an exception, or [None] when the
    call depth allowed was reached (an engine whose call stack is exhausted
    throws a [RangeError]). *)
Definition outcome : Type := option (result bool).

Definition ret (b : bool) : outcome := Some (Ok b).

(** [x && y] where [y] is evaluated only after [x] gave [true]. *)
Definition and_then (x y : outcome) : outcome :=
  match x with
  | Some (Ok true) => y
  | _ => x
  end.

Section Loops.
Context {A : Type}.

(** [l.every(f)] *)
Fixpoint every (f : A -> outcome) (l : list A) : outcome :=
  match l with
  | [] => ret true
  | x :: l' =>
      match f x with
      | Some (Ok true) => every f l'
      | r => r
      end
  end.

(** [l.every((x, i) => f(x, i))], from index [i] on *)
Fixpoint every_from (f : A -> nat -> outcome) (i : nat) (l : list A) : outcome :=
  match l with
  | [] => ret true
  | x :: l' =>
      match f x i with
      | Some (Ok true) => every_from f (S i) l'
      | r => r
      end
  end.

(** [l.some(f)] *)
Fixpoint some (f : A -> outcome) (l : list A) : outcome :=
  match l with
  | [] => ret false
  | x :: l' =>
      match f x with
      | Some (Ok false) => some f l'
      | r => r
      end
  end.
End Loops.

Section Run.
Variable R : Runtime.

(** [ToNumber(v)] *)
Definition to_number (v : value) : result js_number :=
  match v with
  | VNum n => Ok n
  | VUndefined => Ok NaN
  | VNull => Ok (num_of_Z 0)
  | VBool b => Ok (num_of_Z (if b then 1 else 0))
  | _ => to_number_ext R v
  end.

(** [a.length] *)
Definition length_of (a : value) : result value :=
  match a with
  | VUndefined | VNull =>
      Throw (TypeError "Cannot read properties of null or undefined (reading 'length')")
  | VBool _ | VNum _ => Ok VUndefined
  | VStr s => Ok (VNum (num_of_nat (String.length s)))
  | VArr elems => Ok (VNum (num_of_nat (List.length elems)))
  | VObj props => obj_get props "length"
  | VFun _ arity => Ok (VNum (num_of_nat arity))
  | VObjectPrototype => Ok VUndefined
  end.

(** [x >= y] and [x <= y] for a number [y] *)
Definition ge (x : value) (y : js_number) : result bool :=
  n <- to_number x ;; Ok (num_ge n y).

Definition le (x : value) (y : js_number) : result bool :=
  n <- to_number x ;; Ok (num_le n y).

(** [x === y] *)
Definition strict_equals (x y : value) : bool :=
  match x, y with
  | VUndefined, VUndefined => true
  | VNull, VNull => true
  | VBool a, VBool b => Bool.eqb a b
  | VNum a, VNum b => num_eq a b
  | VStr a, VStr b => String.eqb a b
  | VArr _, VArr _ => same_reference R x y
  | VObj _, VObj _ => same_reference R x y
  | VFun _ _, VFun _ _ => same_reference R x y
  | VObjectPrototype, VObjectPrototype => true
  | _, _ => false
  end.

(** [guard.is(a)], at call depth at most [fuel].  No cache is kept here: the
    [get] of a lazy guard compiles [meta.f()] at every call.  [is_m] below
    keeps the caches of [get] and of [go], and has the same outcomes
    ([is_m_agrees]). *)
Fixpoint is_ (fuel : nat) (guard : Guard) (a : value) {struct fuel} : outcome :=
  match fuel with
  | O => None
  | S fuel' =>
      match guard with
      | string_guard => ret (String.eqb (typeof a) "string")
      | minLength n self =>
          and_then (is_ fuel' self a) (Some (len <- length_of a ;; ge len n))
      | maxLength n self =>
          and_then (is_ fuel' self a) (Some (len <- length_of a ;; le len n))
      | number_guard => ret (String.eqb (typeof a) "number")
      | minimum n self => and_then (is_ fuel' self a) (Some (ge a n))
      | maximum n self => and_then (is_ fuel' self a) (Some (le a n))
      | boolean_guard => ret (String.eqb (typeof a) "boolean")
      | of_guard literal => ret (strict_equals a literal)
      | tuple_guard components restElement =>
          if isArray a then
            and_then
              (every_from (fun guard i => is_ fuel' guard (arr_get (elements a) i))
                 0 components)
              (match restElement with
               | Some rest =>
                   every (is_ fuel' rest) (skipn (List.length components) (elements a))
               | None => ret true
               end)
          else ret false
      | union_guard members => some (fun guard => is_ fuel' guard a) members
      | struct_guard fields fields_proto oIndexSignature =>
          if negb (isUnknownIndexSignature a) then ret false
          else
            and_then
              (every
                 (fun key =>
                    match assoc key fields with
                    | Some guard =>
                        match get_property a key with
                        | Ok v => is_ fuel' guard v
                        | Throw e => Some (Throw e)
                        end
                    | None => Some (Throw (TypeError "fields[key] is undefined"))
                    end)
                 (keys fields))
              (match oIndexSignature with
               | Some indexSignature =>
                   every
                     (fun key =>
                        if fields_has fields fields_proto key then ret true
                        else
                          match get_property a key with
                          | Ok v => is_ fuel' indexSignature v
                          | Throw e => Some (Throw e)
                          end)
                     (keys (own_properties a))
               | None => ret true
               end)
      | lazy symbol f =>
          match go (guardFor R) (force R f) with
          | Ok guard' => is_ fuel' guard' a
          | Throw e => Some (Throw e)
          end
      | custom_guard predicate => Some (predicate a)
      end
  end.

(** [guard.is(a)] returns [r]. *)
Definition evaluates (guard : Guard) (a : value) (r : result bool) : Prop :=
  exists fuel, is_ fuel guard a = Some r.

Definition accepts (guard : Guard) (a : value) : Prop :=
  evaluates guard a (Ok true).

Definition rejects (guard : Guard) (a : value) : Prop :=
  evaluates guard a (Ok false).

(** [guard.is(a)] returns a boolean. *)
Definition returns (guard : Guard) (a : value) : Prop :=
  exists b, evaluates guard a (Ok b).

Definition returns_at (fuel : nat) (guard : Guard) (a : value) : Prop :=
  exists b, is_ fuel guard a = ret b.
End Run.

(** ** The memoized compiler and the memoized [get] of [lazy]

    Two functions of the source are wrapped in [S.memoize]: [go], and in
    [lazy] the closure [f] that the predicate of the guard calls.  What
    [S.memoize] keeps is state; it is held in a store that the calls pass
    on.

    - [go_cache]: the cache of [go], from Meta nodes to their guards.
    - [closures]: for each guard that [lazy] made, the closure [f] it was
      given and the cache of its [get = S.memoize(f)].  The closure that
      [go] gives to [lazy] is [() => go(meta.f())]; it is kept as the name
      of [meta.f].  The guard made by the call of [lazy] number [c] is
      [lazy symbol c]: in the store a guard names its closure by its place.
    - [forced]: the closures that were called, the latest first. *)

Record store : Type := {
  go_cache : list (Meta.t * Guard);
  closures : list (thunk * list (unit * Guard));
  forced : list nat
}.

Definition empty_store : store :=
  {| go_cache := []; closures := []; forced := [] |}.

(** A computation that reads and writes the store and may throw; what it
    wrote before it threw stays written. *)
Definition stateful (A : Type) : Type := store -> result A * store.

Definition pure_s {A : Type} (r : result A) : stateful A := fun s => (r, s).

Definition bind_s {A B : Type} (m : stateful A) (k : A -> stateful B) : stateful B :=
  fun s =>
    match m s with
    | (Ok a, s') => k a s'
    | (Throw e, s') => (Throw e, s')
    end.

Notation "x <~ m ;; k" := (bind_s m (fun x => k))
  (at level 61, m at next level, right associativity).

Section Memoize.
Context {K V : Type} (same : K -> K -> bool).

(** Modelled from the spec: [S.memoize], which the source calls and does not
    define.  The spec has compilation results "cached keyed by Meta node
    identity (not deep structural equality)" and a [Lazy] memoized "so
    repeated invocation for the same Lazy identity reuses the same Guard
    instance": [memoize f] answers from its cache when the argument is in
    it, and otherwise calls [f] and records the result; a call of [f] that
    throws records nothing.  [cache] reads the cache in the store and
    [update] writes it; [same] is the identity of the arguments. *)
Definition memoize (cache : store -> list (K * V))
  (update : list (K * V) -> store -> store) (f : K -> stateful V) (k : K)
  : stateful V :=
  fun s =>
    match find (fun entry => same k (fst entry)) (cache s) with
    | Some entry => (Ok (snd entry), s)
    | None =>
        match f k s with
        | (Ok v, s') => (Ok v, update ((k, v) :: cache s') s')
        | (Throw e, s') => (Throw e, s')
        end
    end.
End Memoize.

Definition set_go_cache (cache : list (Meta.t * Guard)) (s : store) : store :=
  {| go_cache := cache; closures := closures s; forced := forced s |}.

(** [lazy(symbol, f)]: a new guard, with its closure and the empty cache of
    its [get]. *)
Definition new_lazy (symbol : Symbol) (f : thunk) : stateful Guard :=
  fun s =>
    (Ok (lazy symbol (List.length (closures s))),
     {| go_cache := go_cache s;
        closures := closures s ++ [(f, [])];
        forced := forced s |}).

Section MapS.
Context {A B : Type} (f : A -> stateful B).

(** [l.map(f)] for an [f] that uses the store. *)
Fixpoint mapM_s (l : list A) : stateful (list B) :=
  match l with
  | [] => pure_s (Ok [])
  | x :: l' => y <~ f x ;; ys <~ mapM_s l' ;; pure_s (Ok (y :: ys))
  end.
End MapS.

Section FieldsLoopS.
Context (compile : Meta.t -> stateful Guard).

Fixpoint fields_loop_s (l : list (string * Meta.t)) (fields : fields_object)
  : stateful fields_object :=
  match l with
  | [] => pure_s (Ok fields)
  | (key, value) :: l' =>
      guard <~ compile value ;; fields_loop_s l' (fields_assign fields key guard)
  end.
End FieldsLoopS.

Section Memoized.
Variable R : Runtime.
(** The identity of Meta nodes, which the tree of a node does not carry:
    are the two nodes one object? *)
Variable same_node : Meta.t -> Meta.t -> bool.

(** [go = S.memoize((meta) => { switch (meta._tag) ... })]: the function
    [go] above with its cache. *)
Fixpoint go_m (meta : Meta.t) : stateful Guard :=
  memoize same_node go_cache set_go_cache
    (fun _ =>
       match meta with
       | Meta.Apply symbol metas annotations =>
           annotations' <~ pure_s (filterM isGuardAnnotation annotations) ;;
           match annotations' with
           | annotation :: _ =>
               guardFor' <~ pure_s (get_property annotation "guardFor") ;;
               guards <~ mapM_s go_m metas ;;
               match guardFor' with
               | VFun name _ => pure_s (guardFor R name annotations guards)
               | _ => pure_s (Throw (TypeError "annotations[0].guardFor is not a function"))
               end
           | [] => pure_s (Throw (Error (missing_message symbol)))
           end
       | Meta.String min max =>
           let out := string_guard in
           let out := match min with Some n => minLength n out | None => out end in
           let out := match max with Some n => maxLength n out | None => out end in
           pure_s (Ok out)
       | Meta.Number min max =>
           let out := number_guard in
           let out := match min with Some n => minimum n out | None => out end in
           let out := match max with Some n => maximum n out | None => out end in
           pure_s (Ok out)
       | Meta.Boolean => pure_s (Ok boolean_guard)
       | Meta.Of v => pure_s (Ok (of_guard v))
       | Meta.Tuple components restElement =>
           components' <~ mapM_s go_m components ;;
           restElement' <~ match restElement with
                           | Some rest => guard <~ go_m rest ;; pure_s (Ok (Some guard))
                           | None => pure_s (Ok None)
                           end ;;
           pure_s (Ok (tuple_guard components' restElement'))
       | Meta.Union members =>
           members' <~ mapM_s go_m members ;;
           pure_s (Ok (union_guard members'))
       | Meta.Struct fields indexSignature =>
           fields' <~ fields_loop_s go_m fields fields_empty ;;
           oIndexSignature <~ match indexSignature with
                              | Some value => guard <~ go_m value ;; pure_s (Ok (Some guard))
                              | None => pure_s (Ok None)
                              end ;;
           pure_s (Ok (struct_guard (fst fields') (snd fields') oIndexSignature))
       | Meta.Lazy symbol f => new_lazy symbol f
       end) meta.

(** The compiled optional part of a node, in the store. *)
Definition go_option_s (o : option Meta.t) : stateful (option Guard) :=
  match o with
  | Some m => guard <~ go_m m ;; pure_s (Ok (Some guard))
  | None => pure_s (Ok None)
  end.

(** The cache of the [get] of closure [c]. *)
Definition get_cache (c : nat) (s : store) : list (unit * Guard) :=
  match nth_error (closures s) c with
  | Some entry => snd entry
  | None => []
  end.

Fixpoint set_nth {A : Type} (i : nat) (x : A) (l : list A) : list A :=
  match l, i with
  | [], _ => []
  | _ :: l', O => x :: l'
  | y :: l', S i' => y :: set_nth i' x l'
  end.

Definition set_get_cache (c : nat) (cache : list (unit * Guard)) (s : store) : store :=
  {| go_cache := go_cache s;
     closures := match nth_error (closures s) c with
                 | Some entry => set_nth c (fst entry, cache) (closures s)
                 | None => closures s
                 end;
     forced := forced s |}.

(** The call of closure [c], [() => go(meta.f())]: [meta.f] is called, and
    [go] compiles the node it answers.  (A guard that [go_m] made names a
    closure of the store; a name that is not in the store is not a
    function.) *)
Definition call_closure (c : nat) : stateful Guard :=
  fun s =>
    match nth_error (closures s) c with
    | Some entry =>
        go_m (force R (fst entry))
          {| go_cache := go_cache s; closures := closures s; forced := c :: forced s |}
    | None => (Throw (TypeError "f is not a function"), s)
    end.

(** [get = S.memoize<void, Guard<A>>(f)] in [lazy]; [get c] is the call
    [get()] of the guard of closure [c]. *)
Definition get (c : nat) : stateful Guard :=
  memoize (fun _ _ => true) (get_cache c) (set_get_cache c)
    (fun _ => call_closure c) tt.

(** The outcome of a predicate that uses the store. *)
Definition and_then_s (x y : store -> outcome * store) : store -> outcome * store :=
  fun s =>
    match x s with
    | (Some (Ok true), s') => y s'
    | r => r
    end.

Section LoopsS.
Context {A : Type}.

Fixpoint every_s (f : A -> store -> outcome * store) (l : list A)
  : store -> outcome * store :=
  fun s =>
    match l with
    | [] => (ret true, s)
    | x :: l' =>
        match f x s with
        | (Some (Ok true), s') => every_s f l' s'
        | r => r
        end
    end.

Fixpoint every_from_s (f : A -> nat -> store -> outcome * store) (i : nat)
  (l : list A) : store -> outcome * store :=
  fun s =>
    match l with
    | [] => (ret true, s)
    | x :: l' =>
        match f x i s with
        | (Some (Ok true), s') => every_from_s f (S i) l' s'
        | r => r
        end
    end.

Fixpoint some_s (f : A -> store -> outcome * store) (l : list A)
  : store -> outcome * store :=
  fun s =>
    match l with
    | [] => (ret false, s)
    | x :: l' =>
        match f x s with
        | (Some (Ok false), s') => some_s f l' s'
        | r => r
        end
    end.
End LoopsS.

(** [guard.is(a)] for the guards of the store, at call depth at most
    [fuel]: the predicates of [is_], where the predicate of [lazy],
    [(a) => get().is(a)], calls the memoized [get] of its closure. *)
Fixpoint is_m (fuel : nat) (guard : Guard) (a : value) {struct fuel}
  : store -> outcome * store :=
  match fuel with
  | O => fun s => (None, s)
  | S fuel' =>
      match guard with
      | string_guard => fun s => (ret (String.eqb (typeof a) "string"), s)
      | minLength n self =>
          and_then_s (is_m fuel' self a)
            (fun s => (Some (len <- length_of a ;; ge R len n), s))
      | maxLength n self =>
          and_then_s (is_m fuel' self a)
            (fun s => (Some (len <- length_of a ;; le R len n), s))
      | number_guard => fun s => (ret (String.eqb (typeof a) "number"), s)
      | minimum n self =>
          and_then_s (is_m fuel' self a) (fun s => (Some (ge R a n), s))
      | maximum n self =>
          and_then_s (is_m fuel' self a) (fun s => (Some (le R a n), s))
      | boolean_guard => fun s => (ret (String.eqb (typeof a) "boolean"), s)
      | of_guard literal => fun s => (ret (strict_equals R a literal), s)
      | tuple_guard components restElement =>
          if isArray a then
            and_then_s
              (every_from_s
                 (fun guard i => is_m fuel' guard (arr_get (elements a) i))
                 0 components)
              (match restElement with
               | Some rest =>
                   every_s (is_m fuel' rest)
                     (skipn (List.length components) (elements a))
               | None => fun s => (ret true, s)
               end)
          else fun s => (ret false, s)
      | union_guard members => some_s (fun guard => is_m fuel' guard a) members
      | struct_guard fields fields_proto oIndexSignature =>
          if negb (isUnknownIndexSignature a) then fun s => (ret false, s)
          else
            and_then_s
              (every_s
                 (fun key =>
                    match assoc key fields with
                    | Some guard =>
                        match get_property a key with
                        | Ok v => is_m fuel' guard v
                        | Throw e => fun s => (Some (Throw e), s)
                        end
                    | None =>
                        fun s => (Some (Throw (TypeError "fields[key] is undefined")), s)
                    end)
                 (keys fields))
              (match oIndexSignature with
               | Some indexSignature =>
                   every_s
                     (fun key =>
                        if fields_has fields fields_proto key then
                          fun s => (ret true, s)
                        else
                          match get_property a key with
                          | Ok v => is_m fuel' indexSignature v
                          | Throw e => fun s => (Some (Throw e), s)
                          end)
                     (keys (own_properties a))
               | None => fun s => (ret true, s)
               end)
      | lazy symbol c =>
          fun s =>
            match get c s with
            | (Ok guard', s') => is_m fuel' guard' a s'
            | (Throw e, s') => (Some (Throw e), s')
            end
      | custom_guard predicate => fun s => (Some (predicate a), s)
      end
  end.
End Memoized.

(** The stores that calls lead to: [later s s'] when compilations and calls
    of predicates, in any number and order, take the store [s] to [s']. *)
Inductive later (R : Runtime) (same_node : Meta.t -> Meta.t -> bool)
  : store -> store -> Prop :=
| later_now (s : store) : later R same_node s s
| later_go (s s' : store) (m : Meta.t) :
    later R same_node (snd (go_m R same_node m s)) s' -> later R same_node s s'
| later_is (s s' : store) (fuel : nat) (guard : Guard) (a : value) :
    later R same_node (snd (is_m R same_node fuel guard a s)) s' ->
    later R same_node s s'.

Definition same_symbol (symbol symbol' : Symbol) : bool :=
  Nat.eqb (symbol_id symbol) (symbol_id symbol') &&
  match description symbol, description symbol' with
  | Some d, Some d' => String.eqb d d'
  | None, None => true
  | _, _ => false
  end.

(** An identity of nodes for the examples: two [Lazy] nodes are one object
    when their symbols and their closures are the same, and any other two
    nodes are different objects. *)
Definition same_lazy (m m' : Meta.t) : bool :=
  match m, m' with
  | Meta.Lazy symbol f, Meta.Lazy symbol' f' =>
      same_symbol symbol symbol' && Nat.eqb f f'
  | _, _ => false
  end.

(** The cache of the [get] of closure [c] holds a guard. *)
Definition filled (s : store) (c : nat) : Prop := get_cache c s <> [].

(** How often closure [c] was called. *)
Definition calls (s : store) (c : nat) : nat := count_occ Nat.eq_dec (forced s) c.

(** What a compilation does to the store: it makes new closures, and calls
    none. *)
Definition compiled (s s' : store) : Prop :=
  (exists new, closures s' = closures s ++ new) /\ forced s' = forced s.

(** What a call of a predicate does to the store: a closure stays, a cache
    that holds a guard keeps it, and its closure is not called. *)
Definition extends (s s' : store) : Prop :=
  (forall c entry,
     nth_error (closures s) c = Some entry ->
     exists entry',
       nth_error (closures s') c = Some entry' /\
       fst entry' = fst entry /\
       (snd entry <> [] -> snd entry' = snd entry)) /\
  (forall c, filled s c -> calls s' c = calls s c).

Definition lazy_node (m : Meta.t) : bool :=
  match m with Meta.Lazy _ _ => true | _ => false end.

(** The cache of [go] holds one guard for a [Lazy] node. *)
Definition one_guard (same_node : Meta.t -> Meta.t -> bool) (s : store) : Prop :=
  forall m guard guard',
    lazy_node m = true -> same_node m m = true ->
    In (m, guard) (go_cache s) -> In (m, guard') (go_cache s) -> guard = guard'.

(** What any call does to the cache of [go]: what it holds stays, and it
    still holds one guard for a [Lazy] node when it did. *)
Definition cached (same_node : Meta.t -> Meta.t -> bool) (s s' : store) : Prop :=
  (forall m guard, In (m, guard) (go_cache s) -> In (m, guard) (go_cache s')) /\
  (one_guard same_node s -> one_guard same_node s').

(** Every run of the computation [x] takes a store to one related by [P]. *)
Definition step {A : Type} (P : store -> store -> Prop) (x : store -> A * store)
  : Prop :=
  forall s, P s (snd (x s)).

(** ** The guards of the store and the guards of [is_]

    [is_] runs the closure of a lazy guard under the name of [meta.f] and
    keeps no cache.  A guard of the store stands for the guard of [is_] that
    has, for each closure, the name of the [meta.f] it holds. *)

(** The guard with its closures renamed. *)
Fixpoint rename (rho : thunk -> thunk) (guard : Guard) : Guard :=
  match guard with
  | string_guard => string_guard
  | minLength n self => minLength n (rename rho self)
  | maxLength n self => maxLength n (rename rho self)
  | number_guard => number_guard
  | minimum n self => minimum n (rename rho self)
  | maximum n self => maximum n (rename rho self)
  | boolean_guard => boolean_guard
  | of_guard literal => of_guard literal
  | tuple_guard components restElement =>
      tuple_guard (map (rename rho) components)
        (option_map (rename rho) restElement)
  | union_guard members => union_guard (map (rename rho) members)
  | struct_guard fields fields_proto oIndexSignature =>
      struct_guard (map (fun field => (fst field, rename rho (snd field))) fields)
        fields_proto (option_map (rename rho) oIndexSignature)
  | lazy symbol f => lazy symbol (rho f)
  | custom_guard predicate => custom_guard predicate
  end.

(** The name of the [meta.f] that closure [c] of the store holds. *)
Definition resolve (s : store) (c : nat) : thunk :=
  match nth_error (closures s) c with
  | Some entry => fst entry
  | None => c
  end.

Definition erase (s : store) : Guard -> Guard := rename (resolve s).

(** The closures of [s] are closures of [s'], in their places. *)
Definition keeps (s s' : store) : Prop :=
  forall c entry,
    nth_error (closures s) c = Some entry ->
    exists entry', nth_error (closures s') c = Some entry' /\ fst entry' = fst entry.

(** The closures of the guard are in the store: the guard stands for one
    guard of [is_], whatever the store comes to hold. *)
Definition stable (s : store) (guard : Guard) : Prop :=
  forall s', keeps s s' -> erase s' guard = erase s guard.

(** The providers take the guards they are given as they are: renaming the
    closures of these guards renames the closures of the guard returned. *)
Definition uniform (R : Runtime) : Prop :=
  forall rho name annotations guards,
    guardFor R name annotations (map (rename rho) guards) =
    match guardFor R name annotations guards with
    | Ok guard => Ok (rename rho guard)
    | Throw e => Throw e
    end.

(** The caches hold what [go] answers: the cache of [go] for the node, the
    cache of a [get] for the node that the closure answers. *)
Definition consistent (R : Runtime) (s : store) : Prop :=
  (forall m guard,
     In (m, guard) (go_cache s) ->
     go (guardFor R) m = Ok (erase s guard) /\ stable s guard) /\
  (forall c entry k guard,
     nth_error (closures s) c = Some entry ->
     In (k, guard) (snd entry) ->
     go (guardFor R) (force R (fst entry)) = Ok (erase s guard) /\
     stable s guard).

(** From a store that keeps the closures of [s0], the predicate [x] has the
    outcome [o']. *)
Definition runs_as (R : Runtime) (s0 : store) (x : store -> outcome * store)
  (o' : outcome) : Prop :=
  forall s o s1,
    consistent R s -> keeps s0 s -> x s = (o, s1) ->
    consistent R s1 /\ keeps s s1 /\ o = o'.

Definition stays_consistent (R : Runtime) (s s' : store) : Prop :=
  consistent R s -> consistent R s'.

(** The answer [r] of a compilation in the store is the answer [r'] of
    [go]. *)
Definition compiles_as (s : store) (r r' : result Guard) : Prop :=
  match r with
  | Ok guard => r' = Ok (erase s guard) /\ stable s guard
  | Throw e => r' = Throw e
  end.

(** What the compilation of [m] in the store answers, [go] answers. *)
Definition go_agrees (R : Runtime) (same_node : Meta.t -> Meta.t -> bool)
  (m : Meta.t) : Prop :=
  forall s r s1,
    consistent R s -> go_m R same_node m s = (r, s1) ->
    consistent R s1 /\ compiles_as s1 r (go (guardFor R) m).

(** [fields] with every guard replaced by its image. *)
Definition map_fields (f : Guard -> Guard) (fields : fields_object) : fields_object :=
  (map (fun field => (fst field, f (snd field))) (fst fields), snd fields).

(** ** Notions of the statements *)

(** [min <= x] and [x <= max], for the bounds that are present. *)
Definition within (x : js_number) (min max : option js_number) : bool :=
  match min with Some m => num_ge x m | None => true end &&
  match max with Some m => num_le x m | None => true end.

(** [a.length >= n], the check that [minLength(n)] adds. *)
Definition length_ge (R : Runtime) (a : value) (n : js_number) : result bool :=
  len <- length_of a ;; ge R len n.

(** The values [guard'] accepts are values [guard] accepts, and not all of
    them. *)
Definition strict_subset (R : Runtime) (guard' guard : Guard) : Prop :=
  (forall a, accepts R guard' a -> accepts R guard a) /\
  exists a, accepts R guard a /\ ~ accepts R guard' a.

(** The nesting of a value: a container is deeper than each of its parts,
    and than what a missing property reads as. *)
Fixpoint depth (v : value) : nat :=
  match v with
  | VArr elems => 1 + list_max (map depth elems)
  | VObj props =>
      2 + list_max (map (fun entry =>
                           match snd entry with
                           | Ok x => depth x
                           | Throw _ => 0
                           end) props)
  | VObjectPrototype => 1
  | _ => 0
  end.

(** A value is data when no property of it, at any depth, throws when it is
    read. *)
Fixpoint data (v : value) : bool :=
  match v with
  | VArr elems => forallb data elems
  | VObj props =>
      forallb (fun entry =>
                 match snd entry with
                 | Ok x => data x
                 | Throw _ => false
                 end) props
  | _ => true
  end.

(** The call depth that [is] is given for an input of nesting [d] at a node
    of rank [r], in a schema whose ranks are at most [K]: at most [K + 1]
    calls for a level of the input, and three for a primitive guard with
    its two bounds. *)
Definition call_depth (K r d : nat) : nat := d * (K + 1) + r + 3.

(** A schema is a set [nodes] of Meta nodes closed under the children of a
    node and under the closures of its [Lazy] nodes.  It is well formed
    when
    - a reference that reads none of the input goes to a node of lower
      [rank]: from a [Union] to its members, from a [Lazy] node to the node
      of its closure, from an [Apply] node to its children; the ranks are at
      most [K];
    - the [guardFor] of an [Apply] node, given the guards of the children,
      returns a guard that returns a boolean on the data [a] within the
      call depth of its node whenever those guards do, within theirs, on
      the data no deeper than [a]. *)
Record well_formed (R : Runtime) (nodes : Meta.t -> Prop) (rank : Meta.t -> nat)
  (K : nat) : Prop := {
  wf_rank : forall m, nodes m -> rank m <= K;
  wf_apply : forall symbol metas annotations,
    nodes (Meta.Apply symbol metas annotations) ->
    (forall m, In m metas ->
               nodes m /\ rank m < rank (Meta.Apply symbol metas annotations)) /\
    (forall guards,
       Forall2 (fun m g => go (guardFor R) m = Ok g) metas guards ->
       exists guard,
         go (guardFor R) (Meta.Apply symbol metas annotations) = Ok guard /\
         forall a,
           data a = true ->
           (forall m g a',
              In m metas -> go (guardFor R) m = Ok g ->
              data a' = true -> depth a' <= depth a ->
              returns_at R (call_depth K (rank m) (depth a')) g a') ->
           returns_at R
             (call_depth K (rank (Meta.Apply symbol metas annotations)) (depth a))
             guard a);
  wf_tuple : forall components restElement,
    nodes (Meta.Tuple components restElement) ->
    (forall m, In m components -> nodes m) /\
    (forall m, restElement = Some m -> nodes m);
  wf_union : forall members,
    nodes (Meta.Union members) ->
    forall m, In m members -> nodes m /\ rank m < rank (Meta.Union members);
  wf_struct : forall fields indexSignature,
    nodes (Meta.Struct fields indexSignature) ->
    (forall key m, In (key, m) fields -> nodes m) /\
    (forall m, indexSignature = Some m -> nodes m);
  wf_lazy : forall symbol f,
    nodes (Meta.Lazy symbol f) ->
    nodes (force R f) /\ rank (force R f) < rank (Meta.Lazy symbol f)
}.

(** ** Examples *)

(** A runtime without providers, for the examples: every function call
    throws, [ToNumber] of a string or an object is [NaN], and two objects
    are never the same. *)
Definition bare_runtime (closures : thunk -> Meta.t) : Runtime :=
  {| guardFor := fun _ _ _ => Throw (TypeError "not a function");
     force := closures;
     to_number_ext := fun _ => Ok NaN;
     same_reference := fun _ _ => false |}.

Definition no_closures : thunk -> Meta.t := fun _ => Meta.Boolean.

(** A runtime with one provider, [arrayOf]: the guard of the arrays whose
    elements the one child guard accepts. *)
Definition arrayOf_runtime (closures : thunk -> Meta.t) : Runtime :=
  {| guardFor := fun name _ guards =>
       if String.eqb name "arrayOf" then
         match guards with
         | [item] => Ok (tuple_guard [] (Some item))
         | _ => Throw (TypeError "arrayOf takes one guard")
         end
       else Throw (TypeError "not a function");
     force := closures;
     to_number_ext := fun _ => Ok NaN;
     same_reference := fun _ _ => false |}.

Definition arrayOf_annotation : value :=
  data_object [("_tag", VStr "GuardAnnotation"); ("guardFor", VFun "arrayOf" 2)].

Definition example_symbol : Symbol :=
  {| symbol_id := 1; description := Some "@fp-ts/codec/data/Array" |}.

(** An optional component: [Union{members: [String, Of(undefined)]}]. *)
Definition optional_string : Meta.t :=
  Meta.Union [Meta.String None None; Meta.Of VUndefined].

(** The schema of
    [interface A { a: string; as: ReadonlyArray<A> }]:
    [Lazy(A, () => Struct{a: String, as: Tuple{[], restElement: Lazy A}})],
    whose closure answers a node that holds the [Lazy] node again. *)
Definition A_symbol : Symbol := {| symbol_id := 0; description := Some "A" |}.

Definition A_schema : Meta.t := Meta.Lazy A_symbol 0.

Definition A_closures : thunk -> Meta.t :=
  fun _ => Meta.Struct [("a", Meta.String None None);
                        ("as", Meta.Tuple [] (Some A_schema))] None.

Definition A_value (a : string) (children : list value) : value :=
  data_object [("a", VStr a); ("as", VArr children)].

(** The guard compiled from the node that the closure of [A] answers. *)
Definition A_struct_guard : Guard :=
  struct_guard [("a", string_guard);
                ("as", tuple_guard [] (Some (lazy A_symbol 0)))] false None.

(** A value of the schema [A] nested [n] times:
    [{ a: "a", as: [{ a: "a", as: [...] }] }]. *)
Fixpoint A_chain (n : nat) : value :=
  match n with
  | O => A_value "a" []
  | S n' => A_value "a" [A_chain n']
  end.

(** The nodes of the schema [A], and a rank for them. *)
Definition A_nodes (m : Meta.t) : Prop :=
  In m [A_schema; A_closures 0; Meta.String None None;
        Meta.Tuple [] (Some A_schema)].

Definition A_rank (m : Meta.t) : nat :=
  match m with
  | Meta.Lazy _ _ => 1
  | _ => 0
  end.

(** An object whose property [x] is an accessor that throws:
    [{ get x() { throw new Error("boom") } }]. *)
Definition throwing_getter : value := VObj [("x", Throw (Error "boom"))].

(** The closure of a [Lazy] node that answers an [Apply] node without
    annotations. *)
Definition unannotated_closures : thunk -> Meta.t :=
  fun _ => Meta.Apply example_symbol [] [].

(** The schema of [interface B { b: string; bs: Array<B> }] where the array
    is an [Apply] node with the provider [arrayOf]:
    [Lazy(B, () => Struct{b: String, bs: Apply(Array, [Lazy B])})]. *)
Definition B_symbol : Symbol := {| symbol_id := 2; description := Some "B" |}.

Definition B_schema : Meta.t := Meta.Lazy B_symbol 0.

Definition B_array : Meta.t :=
  Meta.Apply example_symbol [B_schema] [arrayOf_annotation].

Definition B_closures : thunk -> Meta.t :=
  fun _ => Meta.Struct [("b", Meta.String None None); ("bs", B_array)] None.

Definition B_nodes (m : Meta.t) : Prop :=
  In m [B_schema; B_closures 0; Meta.String None None; B_array].

Definition B_rank (m : Meta.t) : nat :=
  match m with
  | Meta.Lazy _ _ => 1
  | Meta.Apply _ _ _ => 2
  | _ => 0
  end.

(** ** Induction on a Meta node

    The induction principle of [Meta.t], with the hypotheses for the nodes
    held in lists. *)

Section MetaInduction.
Variable P : Meta.t -> Prop.
Hypothesis HApply : forall symbol metas annotations,
    Forall P metas -> P (Meta.Apply symbol metas annotations).
Hypothesis HString : forall min max, P (Meta.String min max).
Hypothesis HNumber : forall min max, P (Meta.Number min max).
Hypothesis HBoolean : P Meta.Boolean.
Hypothesis HOf : forall v, P (Meta.Of v).
Hypothesis HTuple : forall components restElement,
    Forall P components ->
    match restElement with Some m => P m | None => True end ->
    P (Meta.Tuple components restElement).
Hypothesis HUnion : forall members, Forall P members -> P (Meta.Union members).
Hypothesis HStruct : forall fields indexSignature,
    Forall (fun field => P (snd field)) fields ->
    match indexSignature with Some m => P m | None => True end ->
    P (Meta.Struct fields indexSignature).
Hypothesis HLazy : forall symbol f, P (Meta.Lazy symbol f).

Fixpoint Meta_induction (m : Meta.t) : P m :=
  match m with
  | Meta.Apply symbol metas annotations =>
      HApply symbol metas annotations
        ((fix all (l : list Meta.t) : Forall P l :=
            match l with
            | [] => Forall_nil P
            | x :: l' => Forall_cons x (Meta_induction x) (all l')
            end) metas)
  | Meta.String min max => HString min max
  | Meta.Number min max => HNumber min max
  | Meta.Boolean => HBoolean
  | Meta.Of v => HOf v
  | Meta.Tuple components restElement =>
      HTuple components restElement
        ((fix all (l : list Meta.t) : Forall P l :=
            match l with
            | [] => Forall_nil P
            | x :: l' => Forall_cons x (Meta_induction x) (all l')
            end) components)
        (match restElement
               return match restElement with Some m => P m | None => True end with
         | Some m' => Meta_induction m'
         | None => I
         end)
  | Meta.Union members =>
      HUnion members
        ((fix all (l : list Meta.t) : Forall P l :=
            match l with
            | [] => Forall_nil P
            | x :: l' => Forall_cons x (Meta_induction x) (all l')
            end) members)
  | Meta.Struct fields indexSignature =>
      HStruct fields indexSignature
        ((fix all (l : list (string * Meta.t))
            : Forall (fun field => P (snd field)) l :=
            match l with
            | [] => Forall_nil _
            | field :: l' =>
                Forall_cons field (Meta_induction (snd field)) (all l')
            end) fields)
        (match indexSignature
               return match indexSignature with Some m => P m | None => True end with
         | Some m' => Meta_induction m'
         | None => I
         end)
  | Meta.Lazy symbol f => HLazy symbol f
  end.
End MetaInduction.

(** ** Notions of the further statements *)

(** A node that holds no [Apply] node; the closures of its [Lazy] nodes are
    not followed, as [go] does not follow them. *)
Fixpoint apply_free (m : Meta.t) : bool :=
  match m with
  | Meta.Apply _ _ _ => false
  | Meta.Tuple components restElement =>
      forallb apply_free components &&
      match restElement with Some rest => apply_free rest | None => true end
  | Meta.Union members => forallb apply_free members
  | Meta.Struct fields indexSignature =>
      forallb (fun field => apply_free (snd field)) fields &&
      match indexSignature with Some value => apply_free value | None => true end
  | _ => true
  end.

(** The declaration of [key] in [meta.fields] that the loop of the [Struct]
    case leaves in [fields]: the last one. *)
Definition declared (fields : list (string * Meta.t)) (key : string)
  : option Meta.t :=
  assoc key (rev fields).

(** A literal that [===] compares by value, [NaN] apart. *)
Definition primitive_literal (v : value) : bool :=
  match v with
  | VUndefined | VNull | VBool _ | VStr _ => true
  | _ => false
  end.

(** * Properties *)

(** ** The loops *)

Section LoopFacts.
Context {A : Type}.

Lemma and_then_true (x y : outcome) :
  and_then x y = ret true <-> x = ret true /\ y = ret true.
Proof.
  unfold and_then, ret. split.
  - destruct x as [[[|]|]|]; intros H; try discriminate; auto.
  - intros [-> ->]. reflexivity.
Qed.

Lemma and_then_mono (x x' y y' : outcome) (r : result bool) :
  (forall s, x = Some s -> x' = Some s) ->
  (forall s, y = Some s -> y' = Some s) ->
  and_then x y = Some r -> and_then x' y' = Some r.
Proof.
  intros Hx Hy. unfold and_then.
  destruct x as [[[|]|e]|]; intros H; try discriminate.
  - rewrite (Hx _ eq_refl). auto.
  - rewrite (Hx _ eq_refl). assumption.
  - rewrite (Hx _ eq_refl). assumption.
Qed.

Lemma every_mono (f f' : A -> outcome) (l : list A) (r : result bool) :
  (forall x s, In x l -> f x = Some s -> f' x = Some s) ->
  every f l = Some r -> every f' l = Some r.
Proof.
  induction l as [|x l IH]; simpl; intros Hf H; [assumption|].
  destruct (f x) as [[[|]|e]|] eqn:Hx; try discriminate;
    rewrite (Hf x _ (or_introl eq_refl) Hx); auto.
Qed.

Lemma every_from_mono (f f' : A -> nat -> outcome) (l : list A) (i : nat)
  (r : result bool) :
  (forall x j s, In x l -> f x j = Some s -> f' x j = Some s) ->
  every_from f i l = Some r -> every_from f' i l = Some r.
Proof.
  revert i. induction l as [|x l IH]; simpl; intros i Hf H; [assumption|].
  destruct (f x i) as [[[|]|e]|] eqn:Hx; try discriminate;
    rewrite (Hf x i _ (or_introl eq_refl) Hx); auto.
Qed.

Lemma some_mono (f f' : A -> outcome) (l : list A) (r : result bool) :
  (forall x s, In x l -> f x = Some s -> f' x = Some s) ->
  some f l = Some r -> some f' l = Some r.
Proof.
  induction l as [|x l IH]; simpl; intros Hf H; [assumption|].
  destruct (f x) as [[[|]|e]|] eqn:Hx; try discriminate;
    rewrite (Hf x _ (or_introl eq_refl) Hx); auto.
Qed.

Lemma every_true (f : A -> outcome) (l : list A) :
  every f l = ret true <-> forall x, In x l -> f x = ret true.
Proof.
  induction l as [|x l IH]; simpl.
  - split; [intros _ y []|reflexivity].
  - split.
    + intros H. destruct (f x) as [[[|]|e]|] eqn:Hx; try discriminate.
      intros y [<-|Hy]; [assumption|]. apply IH; assumption.
    + intros H. rewrite (H x (or_introl eq_refl)). unfold ret at 1.
      apply IH. intros y Hy. apply H. right; assumption.
Qed.

Lemma every_from_true (f : A -> nat -> outcome) (l : list A) (i : nat) :
  every_from f i l = ret true <->
  forall j x, nth_error l j = Some x -> f x (i + j) = ret true.
Proof.
  revert i. induction l as [|x l IH]; simpl; intros i.
  - split; [intros _ [|j] y; discriminate|reflexivity].
  - split.
    + intros H. destruct (f x i) as [[[|]|e]|] eqn:Hx; try discriminate.
      intros [|j] y Hj; simpl in Hj.
      * injection Hj as <-. rewrite Nat.add_0_r. assumption.
      * replace (i + S j) with (S i + j) by lia.
        apply (proj1 (IH (S i)) H). assumption.
    + intros H. generalize (H 0 x eq_refl).
      rewrite Nat.add_0_r. intros ->. unfold ret at 1.
      apply IH. intros j y Hj.
      replace (S i + j) with (i + S j) by lia. apply (H (S j)). assumption.
Qed.

(** [some] answers [true]: one element is accepted, the ones before it are
    rejected. *)
Lemma some_true (f : A -> outcome) (l : list A) :
  some f l = ret true <->
  exists l1 x l2, l = l1 ++ x :: l2 /\ f x = ret true /\
                  forall y, In y l1 -> f y = ret false.
Proof.
  induction l as [|x l IH]; simpl.
  - split; [discriminate|]. intros (l1 & y & l2 & H & _). destruct l1; discriminate.
  - split.
    + intros H. destruct (f x) as [[[|]|e]|] eqn:Hx; try discriminate.
      * exists [], x, l. repeat split; auto. intros y [].
      * apply IH in H. destruct H as (l1 & y & l2 & -> & Hy & Hl1).
        exists (x :: l1), y, l2. repeat split; auto.
        intros z [<-|Hz]; auto.
    + intros (l1 & y & l2 & Hl & Hy & Hl1). destruct l1 as [|z l1].
      * injection Hl as Hz Hl'. subst y l. rewrite Hy. reflexivity.
      * injection Hl as Hz Hl'. subst z l. rewrite (Hl1 x (or_introl eq_refl)).
        unfold ret at 1. apply IH. exists l1, y, l2. repeat split; auto.
        intros w Hw. apply Hl1. right; assumption.
Qed.

Lemma some_false (f : A -> outcome) (l : list A) :
  some f l = ret false <-> forall x, In x l -> f x = ret false.
Proof.
  induction l as [|x l IH]; simpl.
  - split; [intros _ y []|reflexivity].
  - split.
    + intros H. destruct (f x) as [[[|]|e]|] eqn:Hx; try discriminate.
      intros y [<-|Hy]; [assumption|]. apply IH; assumption.
    + intros H. rewrite (H x (or_introl eq_refl)). unfold ret at 1.
      apply IH. intros y Hy. apply H. right; assumption.
Qed.

(** Finitely many calls that each return at some depth all return at one
    common depth. *)
Lemma common_fuel (P : nat -> A -> Prop) (l : list A) :
  (forall k k' x, k <= k' -> P k x -> P k' x) ->
  (forall x, In x l -> exists k, P k x) ->
  exists k, forall x, In x l -> P k x.
Proof.
  intros Hmono. induction l as [|x l IH]; intros H.
  - exists 0. intros y [].
  - destruct (H x (or_introl eq_refl)) as [k1 H1].
    destruct IH as [k2 H2]; [intros y Hy; apply H; right; assumption|].
    exists (Nat.max k1 k2). intros y [<-|Hy].
    + apply (Hmono k1); [lia|assumption].
    + apply (Hmono k2); [lia|auto].
Qed.
End LoopFacts.

Lemma common_fuel_below (P : nat -> nat -> Prop) (n : nat) :
  (forall k k' i, k <= k' -> P k i -> P k' i) ->
  (forall i, i < n -> exists k, P k i) ->
  exists k, forall i, i < n -> P k i.
Proof.
  intros Hmono H.
  destruct (common_fuel P (seq 0 n) Hmono) as [k Hk].
  - intros i Hi. apply in_seq in Hi. apply H. lia.
  - exists k. intros i Hi. apply Hk. apply in_seq. lia.
Qed.

(** ** Depth *)

Section Depth.
Variable R : Runtime.

(** A call that returns at depth [fuel] returns the same at any greater
    depth. *)
Lemma is_step (fuel : nat) :
  forall guard a r, is_ R fuel guard a = Some r -> is_ R (S fuel) guard a = Some r.
Proof.
  induction fuel as [|fuel IH]; intros guard a r H; [discriminate|].
  remember (S fuel) as fuel1 eqn:E. cbn [is_].
  rewrite E in H. cbn [is_] in H. destruct guard; try assumption.
  - revert H. apply and_then_mono; auto.
  - revert H. apply and_then_mono; auto.
  - revert H. apply and_then_mono; auto.
  - revert H. apply and_then_mono; auto.
  - destruct (isArray a); [|assumption].
    revert H. apply and_then_mono.
    + intros s. apply every_from_mono. auto.
    + destruct restElement; [|auto]. intros s. apply every_mono. auto.
  - revert H. apply some_mono. auto.
  - destruct (negb (isUnknownIndexSignature a)); [assumption|].
    revert H. apply and_then_mono.
    + intros s. apply every_mono. intros key s' _.
      destruct (assoc key fields); [|auto].
      destruct (get_property a key); auto.
    + destruct oIndexSignature; [|auto]. intros s. apply every_mono.
      intros key s' _. destruct (fields_has fields fields_proto key); [auto|].
      destruct (get_property a key); auto.
  - destruct (go (guardFor R) (force R f)); auto.
Qed.

Lemma is_mono (fuel fuel' : nat) guard a r :
  fuel <= fuel' -> is_ R fuel guard a = Some r -> is_ R fuel' guard a = Some r.
Proof.
  intros Hle H. induction Hle; [assumption|]. apply is_step. assumption.
Qed.

(** [guard.is(a)] has at most one outcome. *)
Lemma evaluates_unique guard a r1 r2 :
  evaluates R guard a r1 -> evaluates R guard a r2 -> r1 = r2.
Proof.
  intros [k1 H1] [k2 H2].
  apply (is_mono k1 (Nat.max k1 k2)) in H1; [|lia].
  apply (is_mono k2 (Nat.max k1 k2)) in H2; [|lia].
  congruence.
Qed.
End Depth.

(** ** What the compiler returns *)

Section CompilerFacts.
Variable provider : string -> list value -> list Guard -> result Guard.

(** [l.map(f)] that did not throw pairs each element with its image, in
    order. *)
Lemma mapM_Forall2 {A B : Type} (f : A -> result B) (l : list A) (l' : list B) :
  mapM f l = Ok l' <-> Forall2 (fun x y => f x = Ok y) l l'.
Proof.
  revert l'. induction l as [|x l IH]; simpl; intros l'.
  - split.
    + intros H. injection H as <-. constructor.
    + intros H. inversion H. reflexivity.
  - split.
    + destruct (f x) as [y|e] eqn:Hx; [|discriminate].
      destruct (mapM f l) as [ys|e]; [|discriminate].
      intros H. injection H as <-. constructor; [assumption|].
      apply IH. reflexivity.
    + intros H. inversion H as [|x0 y l0 ys Hx Hys]; subst.
      rewrite Hx. apply IH in Hys. rewrite Hys. reflexivity.
Qed.

Lemma go_Tuple components restElement :
  go provider (Meta.Tuple components restElement) =
  (components' <- mapM (go provider) components ;;
   restElement' <- go_option provider restElement ;;
   Ok (tuple_guard components' restElement')).
Proof. reflexivity. Qed.

Lemma go_Tuple_inv components restElement guard :
  go provider (Meta.Tuple components restElement) = Ok guard ->
  exists components' restElement',
    guard = tuple_guard components' restElement' /\
    mapM (go provider) components = Ok components' /\
    go_option provider restElement = Ok restElement'.
Proof.
  rewrite go_Tuple. unfold bind.
  destruct (mapM (go provider) components) as [gs|e]; [|discriminate].
  destruct (go_option provider restElement) as [gr|e]; [|discriminate].
  intros H. injection H as <-. eauto.
Qed.

Lemma go_Union_inv members guard :
  go provider (Meta.Union members) = Ok guard ->
  exists members',
    guard = union_guard members' /\ mapM (go provider) members = Ok members'.
Proof.
  cbn [go]. unfold bind.
  destruct (mapM (go provider) members) as [gs|e]; [|discriminate].
  intros H. injection H as <-. eauto.
Qed.
End CompilerFacts.

(** ** Tuple *)

Section TupleFacts.
Variable R : Runtime.

(** The tuple predicate on an array: every component guard accepts the
    element at its index ([undefined] past the end), and the rest guard,
    when there is one, accepts every element after the components. *)
Lemma tuple_accepts components restElement elems :
  accepts R (tuple_guard components restElement) (VArr elems) <->
  (forall i guard, nth_error components i = Some guard ->
                   accepts R guard (arr_get elems i)) /\
  (forall rest, restElement = Some rest ->
                forall x, In x (skipn (List.length components) elems) ->
                          accepts R rest x).
Proof.
  split.
  - intros [[|fuel] H]; [discriminate|]. cbn [is_ isArray elements] in H.
    apply and_then_true in H. destruct H as [H1 H2]. split.
    + intros i guard Hi. exists fuel.
      apply (proj1 (every_from_true _ _ _) H1 i guard Hi).
    + intros rest -> x Hx. exists fuel.
      apply (proj1 (every_true _ _) H2 x Hx).
  - intros [H1 H2].
    destruct (common_fuel_below
                (fun k i => forall guard, nth_error components i = Some guard ->
                                          is_ R k guard (arr_get elems i) = ret true)
                (List.length components)) as [k1 Hk1].
    + intros k k' i Hle H guard Hi. apply (is_mono R k k'); auto.
    + intros i Hi. destruct (nth_error components i) as [guard|] eqn:E.
      * destruct (H1 i guard E) as [k Hk]. exists k.
        intros guard' Hg. injection Hg as <-. assumption.
      * apply nth_error_None in E. lia.
    + assert (exists k2, forall rest, restElement = Some rest ->
                every (is_ R k2 rest) (skipn (List.length components) elems) = ret true)
        as [k2 Hk2].
      { destruct restElement as [rest|]; [|exists 0; discriminate].
        destruct (common_fuel (fun k x => is_ R k rest x = ret true)
                    (skipn (List.length components) elems)) as [k Hk].
        - intros k k' x Hle. apply is_mono. assumption.
        - intros x Hx. apply (H2 rest eq_refl x Hx).
        - exists k. intros rest' Hr. injection Hr as <-.
          apply every_true. assumption. }
      exists (S (Nat.max k1 k2)). cbn [is_ isArray elements].
      apply and_then_true. split.
      * apply every_from_true. intros j guard Hj.
        apply (is_mono R k1); [lia|].
        apply Hk1; [|assumption].
        simpl. apply nth_error_Some. rewrite Hj. discriminate.
      * destruct restElement as [rest|]; [|reflexivity].
        apply every_true. intros x Hx. apply (is_mono R k2); [lia|].
        apply (proj1 (every_true _ _) (Hk2 rest eq_refl)). assumption.
Qed.
End TupleFacts.

Lemma tuple_accepts_array (R : Runtime) components restElement a :
  accepts R (tuple_guard components restElement) a -> exists elems, a = VArr elems.
Proof.
  intros [[|fuel] H]; [discriminate|].
  destruct a; try discriminate H. eauto.
Qed.

(** C2: the guard compiled from a Tuple node with a rest element accepts an
    input exactly when the input is an array, each component guard accepts
    the element at its index, and the rest guard accepts every element after
    the components.  For [Tuple{components: [String, Number], restElement:
    Boolean}] the guard accepts [["a", 1, true, false]] and rejects
    [["a", 1, 2]] and [["a"]]. *)
Theorem tuple_rest_guard (R : Runtime) :
  (forall components rest components' rest',
     mapM (go (guardFor R)) components = Ok components' ->
     go (guardFor R) rest = Ok rest' ->
     go (guardFor R) (Meta.Tuple components (Some rest)) =
       Ok (tuple_guard components' (Some rest')) /\
     forall a,
       accepts R (tuple_guard components' (Some rest')) a <->
       exists elems,
         a = VArr elems /\
         (forall i guard, nth_error components' i = Some guard ->
                          accepts R guard (arr_get elems i)) /\
         (forall x, In x (skipn (List.length components') elems) ->
                    accepts R rest' x)) /\
  (exists guard,
     go (guardFor R)
        (Meta.Tuple [Meta.String None None; Meta.Number None None]
           (Some Meta.Boolean)) = Ok guard /\
     accepts R guard
       (VArr [VStr "a"; VNum (num_of_Z 1); VBool true; VBool false]) /\
     rejects R guard (VArr [VStr "a"; VNum (num_of_Z 1); VNum (num_of_Z 2)]) /\
     rejects R guard (VArr [VStr "a"])).
Proof.
  split.
  - intros components rest components' rest' Hc Hr. split.
    + rewrite go_Tuple. rewrite Hc. cbn [bind go_option]. rewrite Hr. reflexivity.
    + intros a. split.
      * intros H. destruct (tuple_accepts_array _ _ _ _ H) as [elems ->].
        exists elems. apply tuple_accepts in H. destruct H as [H1 H2].
        repeat split; [assumption|]. apply (H2 rest' eq_refl).
      * intros (elems & -> & H1 & H2). apply tuple_accepts. split; [assumption|].
        intros rest0 E. injection E as <-. assumption.
  - eexists. split; [reflexivity|].
    repeat split; exists 2; reflexivity.
Qed.

Lemma tuple_rest_guard_witness :
  accepts (bare_runtime no_closures)
    (tuple_guard [string_guard; number_guard] (Some boolean_guard))
    (VArr [VStr "a"; VNum (num_of_Z 1); VBool true]).
Proof.
  apply (proj1 (tuple_rest_guard (bare_runtime no_closures))
           [Meta.String None None; Meta.Number None None] Meta.Boolean
           [string_guard; number_guard] boolean_guard eq_refl eq_refl).
  exists [VStr "a"; VNum (num_of_Z 1); VBool true]. split; [reflexivity|]. split.
  - intros [|[|[|i]]] guard H; simpl in H; try discriminate;
      injection H as <-; exists 1; reflexivity.
  - intros x [<-|[]]. exists 1. reflexivity.
Defined.

(** C9: a component without an element is checked against [undefined].
    When the array is no longer than the component list, the elements it has
    are accepted by their components, and the guards of the components it
    lacks accept [undefined], the tuple guard accepts the array, whatever
    the rest element; in particular the empty array when every component
    guard accepts [undefined].  And an array the tuple guard accepts lacks
    only components whose guard accepts [undefined]. *)
Theorem tuple_missing_component_is_undefined (R : Runtime)
  components restElement guard :
  go (guardFor R) (Meta.Tuple components restElement) = Ok guard ->
  exists components' restElement',
    guard = tuple_guard components' restElement' /\
    mapM (go (guardFor R)) components = Ok components' /\
    (forall elems,
       List.length elems <= List.length components' ->
       (forall i g x, nth_error components' i = Some g ->
                      nth_error elems i = Some x -> accepts R g x) ->
       (forall i g, nth_error components' i = Some g ->
                    List.length elems <= i -> accepts R g VUndefined) ->
       accepts R guard (VArr elems)) /\
    ((forall g, In g components' -> accepts R g VUndefined) ->
     accepts R guard (VArr [])) /\
    (forall elems i g,
       accepts R guard (VArr elems) ->
       nth_error components' i = Some g ->
       List.length elems <= i ->
       accepts R g VUndefined).
Proof.
  intros H. apply go_Tuple_inv in H.
  destruct H as (components' & restElement' & -> & Hc & _).
  exists components', restElement'. split; [reflexivity|]. split; [assumption|].
  assert (Hshort : forall elems,
             List.length elems <= List.length components' ->
             (forall i g x, nth_error components' i = Some g ->
                            nth_error elems i = Some x -> accepts R g x) ->
             (forall i g, nth_error components' i = Some g ->
                          List.length elems <= i -> accepts R g VUndefined) ->
             accepts R (tuple_guard components' restElement') (VArr elems)).
  { intros elems Hlen Hin Hout. apply tuple_accepts. split.
    - intros i g Hi. unfold arr_get.
      destruct (nth_error elems i) as [x|] eqn:E.
      + rewrite (nth_error_nth _ _ _ E). apply (Hin i g x Hi E).
      + apply nth_error_None in E. rewrite nth_overflow by assumption.
        apply (Hout i g Hi E).
    - intros rest _ x Hx. rewrite skipn_all2 in Hx by assumption. destruct Hx. }
  split; [exact Hshort|]. split.
  - intros Hall. apply Hshort.
    + simpl. lia.
    + intros [|i] g x _ Hx; discriminate Hx.
    + intros i g Hi _. apply Hall. apply (nth_error_In _ _ Hi).
  - intros elems i g Ha Hi Hlen. apply tuple_accepts in Ha.
    destruct Ha as [H1 _]. specialize (H1 i g Hi).
    unfold arr_get in H1. rewrite nth_overflow in H1 by assumption. assumption.
Qed.

Lemma tuple_missing_component_is_undefined_witness :
  exists guard,
    go (guardFor (bare_runtime no_closures))
       (Meta.Tuple [optional_string; optional_string] None) = Ok guard /\
    accepts (bare_runtime no_closures) guard (VArr []) /\
    accepts (bare_runtime no_closures) guard (VArr [VStr "a"]).
Proof.
  destruct (tuple_missing_component_is_undefined (bare_runtime no_closures)
              [optional_string; optional_string] None _ eq_refl)
    as (components' & restElement' & Hg & Hc & Hshort & Hempty & _).
  eexists. split; [reflexivity|]. clear Hg.
  injection Hc as <-. split.
  - apply Hempty. intros g [<-|[<-|[]]]; exists 3; reflexivity.
  - apply Hshort.
    + simpl. lia.
    + intros [|[|i]] g x Hi Hx; simpl in Hi, Hx; try discriminate.
      injection Hi as <-. injection Hx as <-. exists 3. reflexivity.
    + intros [|[|[|i]]] g Hi Hlen; simpl in Hi, Hlen; try discriminate; try lia.
      injection Hi as <-. exists 3. reflexivity.
Defined.

(** C10: the guard compiled from a Tuple node returns [false] on every input
    that is not an array, whatever its component and rest guards: so on a
    string and on an object with numeric keys and a [length]. *)
Theorem tuple_rejects_non_array (R : Runtime) components restElement guard a fuel :
  go (guardFor R) (Meta.Tuple components restElement) = Ok guard ->
  isArray a = false ->
  is_ R (S fuel) guard a = ret false.
Proof.
  intros H Ha. apply go_Tuple_inv in H.
  destruct H as (components' & restElement' & -> & _).
  cbn [is_]. rewrite Ha. reflexivity.
Qed.

Lemma tuple_rejects_non_array_witness :
  is_ (bare_runtime no_closures) 1
    (tuple_guard [string_guard] None)
    (data_object [("0", VStr "a"); ("length", VNum (num_of_Z 1))]) = ret false /\
  is_ (bare_runtime no_closures) 1 (tuple_guard [string_guard] None) (VStr "a")
    = ret false.
Proof.
  split.
  - apply (tuple_rejects_non_array (bare_runtime no_closures)
             [Meta.String None None] None); reflexivity.
  - apply (tuple_rejects_non_array (bare_runtime no_closures)
             [Meta.String None None] None); reflexivity.
Defined.

(** ** Union *)

Section UnionFacts.
Variable R : Runtime.

Lemma union_accepts members x :
  accepts R (union_guard members) x <->
  exists before member after,
    members = before ++ member :: after /\
    accepts R member x /\
    forall m, In m before -> rejects R m x.
Proof.
  split.
  - intros [[|fuel] H]; [discriminate|]. cbn [is_] in H.
    apply some_true in H. destruct H as (l1 & m & l2 & -> & Hm & Hl1).
    exists l1, m, l2. repeat split.
    + exists fuel. assumption.
    + intros y Hy. exists fuel. apply Hl1. assumption.
  - intros (l1 & m & l2 & -> & [k1 Hm] & Hl1).
    destruct (common_fuel (fun k y => is_ R k y x = ret false) l1) as [k2 Hk2].
    + intros k k' y Hle. apply is_mono. assumption.
    + assumption.
    + exists (S (Nat.max k1 k2)). cbn [is_]. apply some_true.
      exists l1, m, l2. repeat split.
      * apply (is_mono R k1); [lia|assumption].
      * intros y Hy. apply (is_mono R k2); [lia|auto].
Qed.

Lemma union_rejects members x :
  rejects R (union_guard members) x <->
  forall m, In m members -> rejects R m x.
Proof.
  split.
  - intros [[|fuel] H]; [discriminate|]. cbn [is_] in H.
    intros m Hm. exists fuel. apply (proj1 (some_false _ _) H m Hm).
  - intros H.
    destruct (common_fuel (fun k y => is_ R k y x = ret false) members) as [k Hk].
    + intros k k' y Hle. apply is_mono. assumption.
    + assumption.
    + exists (S k). cbn [is_]. apply some_false. assumption.
Qed.
End UnionFacts.

(** C3: the guard compiled from a Union node answers
    [members.some(m => m.is(x))] over the compiled guards of its members, in
    the order of their declaration: it accepts [x] exactly when a member
    accepts [x] and the members before it reject [x], it rejects [x] exactly
    when every member rejects [x]; with no member it accepts nothing. *)
Theorem union_is_some (R : Runtime) members members' :
  mapM (go (guardFor R)) members = Ok members' ->
  go (guardFor R) (Meta.Union members) = Ok (union_guard members') /\
  Forall2 (fun m g => go (guardFor R) m = Ok g) members members' /\
  (forall fuel x,
     is_ R (S fuel) (union_guard members') x =
     some (fun member => is_ R fuel member x) members') /\
  (forall x,
     accepts R (union_guard members') x <->
     exists before member after,
       members' = before ++ member :: after /\
       accepts R member x /\
       forall m, In m before -> rejects R m x) /\
  (forall x,
     rejects R (union_guard members') x <->
     forall m, In m members' -> rejects R m x) /\
  (members = [] ->
   forall x, rejects R (union_guard members') x /\
             ~ accepts R (union_guard members') x).
Proof.
  intros H. split; [cbn [go]; rewrite H; reflexivity|].
  split; [apply mapM_Forall2; assumption|].
  split; [reflexivity|].
  split; [intros x; apply union_accepts|].
  split; [intros x; apply union_rejects|].
  intros -> x. injection H as <-.
  assert (Hr : rejects R (union_guard []) x) by (exists 1; reflexivity).
  split; [assumption|]. intros Ha.
  generalize (evaluates_unique R _ _ _ _ Ha Hr). discriminate.
Qed.

Lemma union_is_some_witness :
  accepts (bare_runtime no_closures)
    (union_guard [string_guard; of_guard VUndefined]) VUndefined /\
  rejects (bare_runtime no_closures)
    (union_guard [string_guard; of_guard VUndefined]) VNull.
Proof.
  destruct (union_is_some (bare_runtime no_closures)
              [Meta.String None None; Meta.Of VUndefined]
              [string_guard; of_guard VUndefined] eq_refl)
    as (_ & _ & _ & Ha & Hr & _).
  split.
  - apply Ha. exists [string_guard], (of_guard VUndefined), []. repeat split.
    + exists 1. reflexivity.
    + intros m [<-|[]]. exists 1. reflexivity.
  - apply Hr. intros m [<-|[<-|[]]]; exists 1; reflexivity.
Defined.

(** ** Primitives *)

Lemma go_String_is (R : Runtime) min max :
  exists guard,
    go (guardFor R) (Meta.String min max) = Ok guard /\
    forall fuel a,
      is_ R (3 + fuel) guard a =
      ret match a with
          | VStr s => within (num_of_nat (String.length s)) min max
          | _ => false
          end.
Proof.
  eexists. split; [reflexivity|].
  intros fuel a. unfold within.
  destruct min as [m|], max as [m'|], a; try reflexivity; cbn;
    try (destruct (num_ge _ m)); reflexivity.
Qed.

Lemma go_Number_is (R : Runtime) min max :
  exists guard,
    go (guardFor R) (Meta.Number min max) = Ok guard /\
    forall fuel a,
      is_ R (3 + fuel) guard a =
      ret match a with
          | VNum x => within x min max
          | _ => false
          end.
Proof.
  eexists. split; [reflexivity|].
  intros fuel a. unfold within.
  destruct min as [m|], max as [m'|], a; try reflexivity; cbn;
    try (destruct (num_ge _ m)); reflexivity.
Qed.

Lemma go_Boolean_is (R : Runtime) :
  exists guard,
    go (guardFor R) Meta.Boolean = Ok guard /\
    forall fuel a,
      is_ R (3 + fuel) guard a =
      ret match a with
          | VBool _ => true
          | _ => false
          end.
Proof.
  eexists. split; [reflexivity|]. intros fuel a. destruct a; reflexivity.
Qed.

(** C5: the guards compiled from String, Number and Boolean nodes accept
    exactly the values of the native type, and return [false] without
    throwing on every other value, [null] and [undefined] among them; with
    [minLength]/[maxLength] a string is accepted exactly when also
    [length >= minLength] and [length <= maxLength], with
    [minimum]/[maximum] a number exactly when also [value >= minimum] and
    [value <= maximum]. *)
Theorem primitive_guards (R : Runtime) :
  (forall min max,
     exists guard,
       go (guardFor R) (Meta.String min max) = Ok guard /\
       forall fuel a,
         is_ R (3 + fuel) guard a =
         ret match a with
             | VStr s => within (num_of_nat (String.length s)) min max
             | _ => false
             end) /\
  (forall min max,
     exists guard,
       go (guardFor R) (Meta.Number min max) = Ok guard /\
       forall fuel a,
         is_ R (3 + fuel) guard a =
         ret match a with
             | VNum x => within x min max
             | _ => false
             end) /\
  (exists guard,
     go (guardFor R) Meta.Boolean = Ok guard /\
     forall fuel a,
       is_ R (3 + fuel) guard a =
       ret match a with
           | VBool _ => true
           | _ => false
           end).
Proof.
  split; [|split].
  - apply go_String_is.
  - apply go_Number_is.
  - apply go_Boolean_is.
Qed.

(** ** Apply *)

Section FilterFacts.
Context {A : Type} (f : A -> result bool).

Lemma filterM_none (l : list A) :
  (forall y, In y l -> f y = Ok false) -> filterM f l = Ok [].
Proof.
  induction l as [|y l IH]; simpl; intros H; [reflexivity|].
  rewrite (H y (or_introl eq_refl)). rewrite IH; [reflexivity|].
  intros z Hz. apply H. right; assumption.
Qed.

Lemma filterM_ok (l : list A) :
  (forall y, In y l -> exists b, f y = Ok b) -> exists l', filterM f l = Ok l'.
Proof.
  induction l as [|y l IH]; simpl; intros H; [eauto|].
  destruct (H y (or_introl eq_refl)) as [b ->].
  destruct IH as [l' ->]; [intros z Hz; apply H; right; assumption|]. eauto.
Qed.

Lemma filterM_first (before : list A) (x : A) (after : list A) :
  (forall y, In y before -> f y = Ok false) ->
  f x = Ok true ->
  (forall y, In y after -> exists b, f y = Ok b) ->
  exists rest, filterM f (before ++ x :: after) = Ok (x :: rest).
Proof.
  intros Hb Hx Ha. induction before as [|y before IH]; simpl.
  - rewrite Hx. destruct (filterM_ok after Ha) as [rest ->]. eauto.
  - rewrite (Hb y (or_introl eq_refl)).
    destruct IH as [rest ->]; [intros z Hz; apply Hb; right; assumption|]. eauto.
Qed.
End FilterFacts.

Lemma go_Apply_missing provider symbol metas annotations :
  (forall u, In u annotations -> isGuardAnnotation u = Ok false) ->
  go provider (Meta.Apply symbol metas annotations) =
  Throw (Error (missing_message symbol)).
Proof.
  intros H. cbn [go]. rewrite (filterM_none _ _ H). reflexivity.
Qed.

(** C4: compiling an Apply node none of whose annotations is a
    [GuardAnnotation] (so one without annotations) throws an error whose
    message ends with the description of the node's symbol, and returns no
    guard.  When an annotation is one, the [guardFor] of the first is called
    with all the annotations of the node and the compiled guards of the
    child nodes in order, and what it returns is the result. *)
Theorem apply_guard_annotation (R : Runtime) symbol metas annotations :
  ((forall u, In u annotations -> isGuardAnnotation u = Ok false) ->
   go (guardFor R) (Meta.Apply symbol metas annotations) =
     Throw (Error (missing_message symbol)) /\
   (forall d, description symbol = Some d ->
              exists prefix, missing_message symbol = (prefix ++ d)%string) /\
   ~ exists guard, go (guardFor R) (Meta.Apply symbol metas annotations) = Ok guard) /\
  (annotations = [] ->
   go (guardFor R) (Meta.Apply symbol metas annotations) =
     Throw (Error (missing_message symbol))) /\
  (forall before annotation after name arity guards,
     annotations = before ++ annotation :: after ->
     (forall u, In u before -> isGuardAnnotation u = Ok false) ->
     isGuardAnnotation annotation = Ok true ->
     (forall u, In u after -> exists b, isGuardAnnotation u = Ok b) ->
     get_property annotation "guardFor" = Ok (VFun name arity) ->
     Forall2 (fun m g => go (guardFor R) m = Ok g) metas guards ->
     go (guardFor R) (Meta.Apply symbol metas annotations) =
       guardFor R name annotations guards).
Proof.
  split; [|split].
  - intros H.
    assert (E : go (guardFor R) (Meta.Apply symbol metas annotations) =
                Throw (Error (missing_message symbol)))
      by (apply go_Apply_missing; assumption).
    split; [exact E|]. split.
    + intros d Hd. unfold missing_message, description_text. rewrite Hd.
      exists ("Missing " ++ dquote ++ "GuardAnnotation" ++ dquote ++ " for ")%string.
      reflexivity.
    + intros [guard Hg]. rewrite E in Hg. discriminate.
  - intros ->. reflexivity.
  - intros before annotation after name arity guards -> Hb Ha Hafter Hf Hg.
    cbn [go].
    destruct (filterM_first isGuardAnnotation _ _ _ Hb Ha Hafter) as [rest ->].
    cbn [bind]. rewrite Hf. cbn [bind].
    apply mapM_Forall2 in Hg. rewrite Hg. reflexivity.
Qed.

Lemma apply_guard_annotation_witness :
  go (guardFor (arrayOf_runtime no_closures))
     (Meta.Apply example_symbol [Meta.Boolean] []) =
    Throw (Error (missing_message example_symbol)) /\
  go (guardFor (arrayOf_runtime no_closures))
     (Meta.Apply example_symbol [Meta.Boolean]
        [data_object [("_tag", VStr "Doc")]; arrayOf_annotation]) =
    Ok (tuple_guard [] (Some boolean_guard)).
Proof.
  split.
  - apply (proj1 (apply_guard_annotation (arrayOf_runtime no_closures)
                    example_symbol [Meta.Boolean] [])).
    intros u [].
  - apply (proj2 (proj2 (apply_guard_annotation (arrayOf_runtime no_closures)
                           example_symbol [Meta.Boolean]
                           [data_object [("_tag", VStr "Doc")]; arrayOf_annotation]))
             [data_object [("_tag", VStr "Doc")]] arrayOf_annotation [] "arrayOf" 2
             [boolean_guard]).
    + reflexivity.
    + intros u [<-|[]]. reflexivity.
    + reflexivity.
    + intros u [].
    + reflexivity.
    + constructor; [reflexivity|constructor].
Defined.

(** ** Bounds *)

Lemma num_le_trans (x y z : js_number) :
  num_le x y = true -> num_le y z = true -> num_le x z = true.
Proof.
  destruct x as [| |a|], y as [| |b|], z as [| |c|]; simpl; try discriminate; auto.
  rewrite !Qle_bool_iff. apply Qle_trans.
Qed.

Lemma num_of_nat_nonneg (n : nat) : num_ge (num_of_nat n) (num_of_Z 0) = true.
Proof.
  unfold num_ge, num_of_nat, num_of_Z, num_le. apply Qle_bool_iff.
  rewrite <- Zle_Qle. lia.
Qed.

Section BoundFacts.
Variable R : Runtime.

(** [minLength(n)(self)] accepts [a]: [self] accepts [a], and [a.length],
    as a number, is at least [n]. *)
Lemma minLength_accepts n self a :
  accepts R (minLength n self) a <->
  accepts R self a /\
  exists len x, length_of a = Ok len /\ to_number R len = Ok x /\
                num_ge x n = true.
Proof.
  split.
  - intros [[|fuel] H]; [discriminate|]. cbn [is_] in H.
    apply and_then_true in H. destruct H as [H1 H2]. split; [exists fuel; exact H1|].
    unfold ge, bind, ret in H2.
    destruct (length_of a) as [len|e] eqn:Hl; [|discriminate].
    destruct (to_number R len) as [x|e] eqn:Hx; [|discriminate].
    exists len, x. repeat split; congruence.
  - intros [[fuel H1] (len & x & Hl & Hx & Hge)].
    exists (S fuel). cbn [is_]. apply and_then_true. split; [assumption|].
    unfold ge, bind, ret. rewrite Hl, Hx, Hge. reflexivity.
Qed.

Lemma string_accepts a :
  accepts R string_guard a <-> exists s, a = VStr s.
Proof.
  split.
  - intros [[|fuel] H]; [discriminate|].
    destruct a; try discriminate H. eauto.
  - intros [s ->]. exists 1. reflexivity.
Qed.
End BoundFacts.

(** [minLength(0)(string)] accepts every string: the subset is not strict. *)
Lemma minLength_zero_not_strict :
  ~ strict_subset (bare_runtime no_closures)
      (minLength (num_of_Z 0) string_guard) string_guard.
Proof.
  intros [_ (a & Ha & Hn)]. apply Hn.
  apply string_accepts in Ha. destruct Ha as [s ->].
  apply minLength_accepts. split; [apply string_accepts; eauto|].
  exists (VNum (num_of_nat (String.length s))), (num_of_nat (String.length s)).
  repeat split. apply num_of_nat_nonneg.
Qed.

(** [minLength(n)(self)] accepts [a]: [self] accepts [a] and the check
    [a.length >= n] gives [true]. *)
Lemma minLength_accepts_check (R : Runtime) n self a :
  accepts R (minLength n self) a <->
  accepts R self a /\ length_ge R a n = Ok true.
Proof.
  rewrite minLength_accepts. unfold length_ge, ge, bind. split.
  - intros [H (len & x & -> & -> & ->)]. auto.
  - intros [H Hc]. split; [assumption|].
    destruct (length_of a) as [len|e]; [|discriminate].
    destruct (to_number R len) as [x|e] eqn:Hx; [|discriminate].
    exists len, x. repeat split; congruence.
Qed.

(** Every string has a length of at least [n] when [0 >= n]. *)
Lemma string_length_ge (R : Runtime) (s : string) (n : js_number) :
  length_ge R (VStr s) n = Ok (num_ge (num_of_nat (String.length s)) n).
Proof. reflexivity. Qed.

(** C8, amended: [minLength(n)(g)] accepts exactly the values [g] accepts
    on which the check [a.length >= n] gives [true], so only values [g]
    accepts.  They are fewer exactly when [g] accepts a value that fails the
    check; for [g = string] that is when [0 >= n] is false ([n > 0], or [n]
    is [NaN]), and for [0 >= n] the guard [minLength(n)(string)] accepts
    every string.  For [n' >= n] the guard [minLength(n')(g)] accepts only
    values [minLength(n)(g)] accepts. *)
Theorem minLength_antitone (R : Runtime) (g : Guard) (n : js_number) :
  (forall a, accepts R (minLength n g) a <->
             accepts R g a /\ length_ge R a n = Ok true) /\
  (forall a, accepts R (minLength n g) a -> accepts R g a) /\
  (strict_subset R (minLength n g) g <->
   exists a, accepts R g a /\ length_ge R a n <> Ok true) /\
  (strict_subset R (minLength n string_guard) string_guard <->
   num_ge (num_of_Z 0) n = false) /\
  (forall n', num_ge n' n = true ->
     forall a, accepts R (minLength n' g) a -> accepts R (minLength n g) a).
Proof.
  split; [apply minLength_accepts_check|].
  split; [intros a H; apply minLength_accepts_check in H; apply H|].
  split; [|split].
  - split.
    + intros [_ (a & Ha & Hn)]. exists a. split; [assumption|].
      intros Hc. apply Hn. apply minLength_accepts_check. auto.
    + intros (a & Ha & Hc). split.
      * intros a' H. apply minLength_accepts_check in H. apply H.
      * exists a. split; [assumption|]. intros H.
        apply minLength_accepts_check in H. apply Hc, H.
  - split.
    + intros [_ (a & Ha & Hn)].
      destruct (num_ge (num_of_Z 0) n) eqn:E; [|reflexivity].
      exfalso. apply Hn. apply string_accepts in Ha. destruct Ha as [s ->].
      apply minLength_accepts_check. split; [apply string_accepts; eauto|].
      rewrite string_length_ge. f_equal. unfold num_ge in *.
      apply (num_le_trans n (num_of_Z 0)); [assumption|].
      apply num_of_nat_nonneg.
    + intros E. split.
      * intros a H. apply minLength_accepts_check in H. apply H.
      * exists (VStr ""). split; [apply string_accepts; eauto|].
        intros H. apply minLength_accepts_check in H. destruct H as [_ H].
        rewrite string_length_ge in H. injection H as H.
        assert (H' : num_ge (num_of_Z 0) n = true) by exact H.
        congruence.
  - intros n' Hn a H. apply minLength_accepts in H.
    destruct H as [Hg (len & x & Hl & Hx & Hge)].
    apply minLength_accepts. split; [assumption|].
    exists len, x. repeat split; try assumption.
    unfold num_ge in *. apply (num_le_trans n n' x); assumption.
Qed.

Lemma minLength_antitone_witness :
  accepts (bare_runtime no_closures)
    (minLength (num_of_Z 2) string_guard) (VStr "abc") /\
  strict_subset (bare_runtime no_closures)
    (minLength (num_of_Z 2) string_guard) string_guard /\
  ~ accepts (bare_runtime no_closures)
      (minLength (num_of_Z 2) string_guard) (VStr "a").
Proof.
  destruct (minLength_antitone (bare_runtime no_closures) string_guard (num_of_Z 2))
    as (Hiff & _ & _ & Hstrict & Hmono).
  split; [|split].
  - apply (Hmono (num_of_Z 3) eq_refl (VStr "abc")). exists 2. reflexivity.
  - apply Hstrict. reflexivity.
  - intros H. apply Hiff in H. destruct H as [_ H]. discriminate H.
Defined.

(** ** Struct *)

Lemma isUnknownIndexSignature_object (a : value) :
  isUnknownIndexSignature a = true <->
  (exists props, a = VObj props) \/ a = VObjectPrototype.
Proof.
  split.
  - destruct a; try discriminate; eauto.
  - intros [[props ->]| ->]; reflexivity.
Qed.

Section StructFacts.
Variable R : Runtime.

(** The struct predicate: the input is an object that is neither [null] nor
    an array, the guard held by [fields] under each of its own keys accepts
    the input's property of that key, and the index-signature guard, when
    there is one, accepts the property of every own key of the input for
    which [key in fields] is false. *)
Lemma struct_accepts fields fields_proto oIndexSignature a :
  accepts R (struct_guard fields fields_proto oIndexSignature) a <->
  isUnknownIndexSignature a = true /\
  (forall key, In key (keys fields) ->
     exists guard v, assoc key fields = Some guard /\
                     get_property a key = Ok v /\ accepts R guard v) /\
  (forall indexSignature, oIndexSignature = Some indexSignature ->
     forall key, In key (keys (own_properties a)) ->
                 fields_has fields fields_proto key = false ->
                 exists v, get_property a key = Ok v /\
                           accepts R indexSignature v).
Proof.
  split.
  - intros [[|fuel] H]; [discriminate|]. cbn [is_] in H.
    destruct (isUnknownIndexSignature a); [|discriminate]. cbn [negb] in H.
    apply and_then_true in H. destruct H as [H1 H2].
    split; [reflexivity|]. split.
    + intros key Hk. generalize (proj1 (every_true _ _) H1 key Hk).
      destruct (assoc key fields) as [guard|]; [|discriminate].
      destruct (get_property a key) as [v|e]; [|discriminate].
      intros Hg. exists guard, v. repeat split. exists fuel. assumption.
    + intros indexSignature -> key Hk Hhas.
      generalize (proj1 (every_true _ _) H2 key Hk). rewrite Hhas.
      destruct (get_property a key) as [v|e]; [|discriminate].
      intros Hg. exists v. split; [reflexivity|]. exists fuel. assumption.
  - intros (Ha & H1 & H2).
    destruct (common_fuel
                (fun k key => forall guard v,
                     assoc key fields = Some guard -> get_property a key = Ok v ->
                     is_ R k guard v = ret true)
                (keys fields)) as [k1 Hk1].
    + intros k k' key Hle H guard v Hg Hv. apply (is_mono R k k'); auto.
    + intros key Hk. destruct (H1 key Hk) as (guard & v & Hg & Hv & [k Hacc]).
      exists k. intros guard' v' Hg' Hv'.
      rewrite Hg in Hg'. injection Hg' as <-.
      rewrite Hv in Hv'. injection Hv' as <-. exact Hacc.
    + assert (exists k2, forall indexSignature,
                 oIndexSignature = Some indexSignature ->
                 forall key v, In key (keys (own_properties a)) ->
                   fields_has fields fields_proto key = false ->
                   get_property a key = Ok v ->
                   is_ R k2 indexSignature v = ret true)
        as [k2 Hk2].
      { destruct oIndexSignature as [indexSignature|]; [|exists 0; discriminate].
        destruct (common_fuel
                    (fun k key => forall v,
                         fields_has fields fields_proto key = false ->
                         get_property a key = Ok v ->
                         is_ R k indexSignature v = ret true)
                    (keys (own_properties a))) as [k Hk].
        - intros k k' key Hle H v Hhas Hv. apply (is_mono R k k'); auto.
        - intros key Hkey.
          destruct (fields_has fields fields_proto key) eqn:Hhas.
          + exists 0. discriminate.
          + destruct (H2 indexSignature eq_refl key Hkey Hhas) as (v & Hv & [k Hacc]).
            exists k. intros v' _ Hv'. rewrite Hv in Hv'. injection Hv' as <-.
            assumption.
        - exists k. intros indexSignature' E key v Hkey Hhas Hv.
          injection E as <-. apply (Hk key Hkey v Hhas Hv). }
      exists (S (Nat.max k1 k2)). cbn [is_]. rewrite Ha. cbn [negb].
      apply and_then_true. split.
      * apply every_true. intros key Hk.
        destruct (H1 key Hk) as (guard & v & Hg & Hv & _). rewrite Hg, Hv.
        apply (is_mono R k1); [lia|]. apply (Hk1 key Hk guard v Hg Hv).
      * destruct oIndexSignature as [indexSignature|]; [|reflexivity].
        apply every_true. intros key Hk.
        destruct (fields_has fields fields_proto key) eqn:Hhas; [reflexivity|].
        destruct (H2 indexSignature eq_refl key Hk Hhas) as (v & Hv & _).
        rewrite Hv. apply (is_mono R k2); [lia|].
        apply (Hk2 indexSignature eq_refl key v Hk Hhas Hv).
Qed.
End StructFacts.

(** C1: on [Struct{fields: [{key: "x", value: Number}], indexSignature:
    {value: String}}] the compiled guard accepts [{x: 1, y: "ok"}] and
    rejects [{x: 1, y: 2}], and it accepts [{x: 1, toString: 2}]: the own
    key [toString] is not a declared field and the index-signature guard
    rejects [2], but [key in fields] is true of the [toString] that the
    object [fields] inherits, so the key is not checked. *)
Theorem struct_index_signature_inherited_key (R : Runtime) :
  exists guard,
    go (guardFor R)
       (Meta.Struct [("x", Meta.Number None None)]
          (Some (Meta.String None None))) = Ok guard /\
    accepts R guard (data_object [("x", VNum (num_of_Z 1)); ("y", VStr "ok")]) /\
    rejects R guard (data_object [("x", VNum (num_of_Z 1)); ("y", VNum (num_of_Z 2))]) /\
    accepts R guard
      (data_object [("x", VNum (num_of_Z 1)); ("toString", VNum (num_of_Z 2))]) /\
    ~ In "toString" (keys [("x", Meta.Number None None)]) /\
    In "toString"
      (keys (own_properties
               (data_object [("x", VNum (num_of_Z 1)); ("toString", VNum (num_of_Z 2))]))) /\
    get_property
      (data_object [("x", VNum (num_of_Z 1)); ("toString", VNum (num_of_Z 2))])
      "toString" = Ok (VNum (num_of_Z 2)) /\
    rejects R string_guard (VNum (num_of_Z 2)).
Proof.
  eexists. split; [reflexivity|].
  split; [exists 2; reflexivity|].
  split; [exists 2; reflexivity|].
  split; [exists 2; reflexivity|].
  split; [intros [H|[]]; discriminate H|].
  split; [right; left; reflexivity|].
  split; [reflexivity|].
  exists 1. reflexivity.
Qed.

(** ** Guards that return a boolean *)

Lemma list_max_In (n : nat) (l : list nat) : In n l -> n <= list_max l.
Proof.
  generalize (proj1 (list_max_le l (list_max l)) (Nat.le_refl _)).
  rewrite Forall_forall. auto.
Qed.

Lemma depth_element (x : value) (l : list value) :
  In x l -> depth x <= list_max (map depth l).
Proof.
  intros H. apply list_max_In. apply in_map. assumption.
Qed.

Lemma depth_arr_get (elems : list value) (i : nat) :
  depth (arr_get elems i) < depth (VArr elems).
Proof.
  unfold arr_get. destruct (nth_in_or_default i elems VUndefined) as [H| ->].
  - apply depth_element in H. simpl. lia.
  - simpl. lia.
Qed.

Lemma assoc_In {A : Type} (key : string) (l : list (string * A)) (v : A) :
  assoc key l = Some v -> In (key, v) l.
Proof.
  induction l as [|[k w] l IH]; simpl; [discriminate|].
  destruct (String.eqb key k) eqn:E.
  - apply String.eqb_eq in E. intros H. injection H as ->. left. congruence.
  - intros H. right. auto.
Qed.

Lemma assoc_keys {A : Type} (key : string) (l : list (string * A)) :
  In key (keys l) -> exists v, assoc key l = Some v.
Proof.
  induction l as [|[k w] l IH]; simpl; [contradiction|].
  destruct (String.eqb key k) eqn:E; [eauto|].
  intros [H|H]; [|auto]. subst k. rewrite String.eqb_refl in E. discriminate.
Qed.

Lemma depth_inherited (proto : value) (key : string) :
  depth (inherited proto key) <= depth proto.
Proof.
  unfold inherited. destruct (assoc key object_prototype) as [v|] eqn:E.
  - apply assoc_In in E. simpl in E.
    repeat (destruct E as [E|E]; [injection E as _ <-; simpl; lia|]).
    contradiction.
  - destruct (String.eqb key "__proto__"); simpl; lia.
Qed.

Lemma data_inherited (proto : value) (key : string) :
  data proto = true -> data (inherited proto key) = true.
Proof.
  intros Hp. unfold inherited.
  destruct (assoc key object_prototype) as [v|] eqn:E.
  - apply assoc_In in E. simpl in E.
    repeat (destruct E as [E|E]; [injection E as _ <-; reflexivity|]).
    contradiction.
  - destruct (String.eqb key "__proto__"); [assumption|reflexivity].
Qed.

Lemma data_element (elems : list value) (x : value) :
  data (VArr elems) = true -> In x elems -> data x = true.
Proof.
  cbn [data]. intros H Hx. rewrite forallb_forall in H. auto.
Qed.

Lemma data_arr_get (elems : list value) (i : nat) :
  data (VArr elems) = true -> data (arr_get elems i) = true.
Proof.
  intros H. unfold arr_get.
  destruct (nth_in_or_default i elems VUndefined) as [Hin| ->]; [|reflexivity].
  apply (data_element elems); assumption.
Qed.

(** Reading a property of an object that is data gives a value, which is
    data and less deep. *)
Lemma data_get_property (a : value) (key : string) :
  isUnknownIndexSignature a = true -> data a = true ->
  exists v, get_property a key = Ok v /\ data v = true /\ depth v < depth a.
Proof.
  intros H Hd. apply isUnknownIndexSignature_object in H.
  destruct H as [[props ->]| ->].
  - unfold get_property, obj_get. destruct (assoc key props) as [r|] eqn:E.
    + apply assoc_In in E. cbn [data] in Hd. rewrite forallb_forall in Hd.
      generalize (Hd _ E). cbn [snd]. destruct r as [v|e]; [|discriminate].
      intros Hv. exists v. repeat split; [assumption|].
      apply (in_map (fun entry => match snd entry with
                                  | Ok x => depth x
                                  | Throw _ => 0
                                  end)) in E. cbn [snd] in E.
      apply list_max_In in E. cbn [depth]. lia.
    + exists (inherited VObjectPrototype key). repeat split.
      * apply data_inherited. reflexivity.
      * generalize (depth_inherited VObjectPrototype key). simpl. lia.
  - exists (inherited VNull key). repeat split.
    + apply data_inherited. reflexivity.
    + generalize (depth_inherited VNull key). simpl. lia.
Qed.

Section LoopsReturn.
Context {A : Type}.

Lemma every_returns (f : A -> outcome) (l : list A) :
  (forall x, In x l -> exists b, f x = ret b) -> exists b, every f l = ret b.
Proof.
  induction l as [|x l IH]; simpl; intros H; [exists true; reflexivity|].
  destruct (H x (or_introl eq_refl)) as [[|] ->]; unfold ret at 1.
  - apply IH. intros y Hy. apply H. right; assumption.
  - exists false. reflexivity.
Qed.

Lemma every_from_returns (f : A -> nat -> outcome) (l : list A) (i : nat) :
  (forall j x, nth_error l j = Some x -> exists b, f x (i + j) = ret b) ->
  exists b, every_from f i l = ret b.
Proof.
  revert i. induction l as [|x l IH]; simpl; intros i H; [exists true; reflexivity|].
  destruct (H 0 x eq_refl) as [b Hb]. rewrite Nat.add_0_r in Hb. rewrite Hb.
  destruct b; unfold ret at 1.
  - apply IH. intros j y Hj. replace (S i + j) with (i + S j) by lia.
    apply (H (S j)). assumption.
  - exists false. reflexivity.
Qed.

Lemma some_returns (f : A -> outcome) (l : list A) :
  (forall x, In x l -> exists b, f x = ret b) -> exists b, some f l = ret b.
Proof.
  induction l as [|x l IH]; simpl; intros H; [exists false; reflexivity|].
  destruct (H x (or_introl eq_refl)) as [[|] ->]; unfold ret at 1.
  - exists true. reflexivity.
  - apply IH. intros y Hy. apply H. right; assumption.
Qed.
End LoopsReturn.

Lemma and_then_returns (x y : outcome) :
  (exists b, x = ret b) -> (exists b, y = ret b) -> exists b, and_then x y = ret b.
Proof.
  intros [[|] ->] Hy; simpl; [assumption|]. exists false. reflexivity.
Qed.

Section Returns.
Variable R : Runtime.

Lemma returns_at_mono fuel fuel' guard a :
  fuel <= fuel' -> returns_at R fuel guard a -> returns_at R fuel' guard a.
Proof.
  intros Hle [b H]. exists b. apply (is_mono R fuel); assumption.
Qed.

Lemma returns_iff guard a :
  returns R guard a <-> exists fuel, returns_at R fuel guard a.
Proof.
  split.
  - intros (b & fuel & H). exists fuel, b. assumption.
  - intros (fuel & b & H). exists b, fuel. assumption.
Qed.

(** A guard that returns a boolean never throws. *)
Lemma returns_never_throws guard a :
  returns R guard a -> forall fuel e, is_ R fuel guard a <> Some (Throw e).
Proof.
  intros [b Hb] fuel e H.
  assert (He : evaluates R guard a (Throw e)) by (exists fuel; assumption).
  generalize (evaluates_unique R _ _ _ _ Hb He). discriminate.
Qed.

Lemma tuple_returns_at n components restElement a :
  (isArray a = true ->
   forall i guard, nth_error components i = Some guard ->
                   returns_at R n guard (arr_get (elements a) i)) ->
  (forall rest x, restElement = Some rest ->
                  In x (skipn (List.length components) (elements a)) ->
                  returns_at R n rest x) ->
  returns_at R (S n) (tuple_guard components restElement) a.
Proof.
  intros H1 H2. unfold returns_at. cbn [is_]. destruct (isArray a) eqn:Ha.
  2:{ exists false. reflexivity. }
  apply and_then_returns.
  - apply every_from_returns. intros j guard Hj. apply (H1 eq_refl j guard Hj).
  - destruct restElement as [rest|]; [|exists true; reflexivity].
    apply every_returns. intros x Hx. apply (H2 rest x eq_refl Hx).
Qed.

Lemma union_returns_at n members a :
  (forall guard, In guard members -> returns_at R n guard a) ->
  returns_at R (S n) (union_guard members) a.
Proof.
  intros H. unfold returns_at. cbn [is_]. apply some_returns. assumption.
Qed.

Lemma union_returns members a :
  (forall guard, In guard members -> returns R guard a) ->
  returns R (union_guard members) a.
Proof.
  intros H. apply returns_iff.
  destruct (common_fuel (fun k guard => returns_at R k guard a) members) as [k Hk].
  - intros k k' x Hle. apply returns_at_mono. assumption.
  - intros guard Hg. apply returns_iff. auto.
  - exists (S k). unfold returns_at. cbn [is_]. apply some_returns. assumption.
Qed.

Lemma struct_returns_at n fields fields_proto oIndexSignature a :
  (isUnknownIndexSignature a = true ->
   forall key guard, assoc key fields = Some guard ->
     exists v, get_property a key = Ok v /\ returns_at R n guard v) ->
  (isUnknownIndexSignature a = true ->
   forall indexSignature key,
     oIndexSignature = Some indexSignature ->
     In key (keys (own_properties a)) ->
     exists v, get_property a key = Ok v /\ returns_at R n indexSignature v) ->
  returns_at R (S n) (struct_guard fields fields_proto oIndexSignature) a.
Proof.
  intros H1 H2. unfold returns_at. cbn [is_].
  destruct (isUnknownIndexSignature a) eqn:Ha.
  2:{ exists false. reflexivity. }
  specialize (H1 eq_refl). specialize (H2 eq_refl).
  cbn [negb]. apply and_then_returns.
  - apply every_returns. intros key Hk.
    destruct (assoc_keys key fields Hk) as [guard Hg]. rewrite Hg.
    destruct (H1 key guard Hg) as (v & Hv & Hr). rewrite Hv. exact Hr.
  - destruct oIndexSignature as [indexSignature|]; [|exists true; reflexivity].
    apply every_returns. intros key Hk.
    destruct (fields_has fields fields_proto key); [exists true; reflexivity|].
    destruct (H2 indexSignature key eq_refl Hk) as (v & Hv & Hr). rewrite Hv.
    exact Hr.
Qed.

Lemma lazy_returns_at n symbol f guard a :
  go (guardFor R) (force R f) = Ok guard ->
  returns_at R n guard a -> returns_at R (S n) (lazy symbol f) a.
Proof.
  intros Hg [b H]. exists b. cbn [is_]. rewrite Hg. assumption.
Qed.
End Returns.

(** ** The fields of a compiled struct *)

Lemma assoc_obj_replace {A : Type} (props : list (string * A)) key k (v w : A) :
  assoc key (obj_replace props k v) = Some w ->
  w = v \/ assoc key props = Some w.
Proof.
  induction props as [|[k0 w0] props IH]; simpl; [discriminate|].
  destruct (String.eqb k k0) eqn:E; simpl.
  - destruct (String.eqb key k0); [intros H; left; congruence|auto].
  - destruct (String.eqb key k0); auto.
Qed.

Lemma assoc_obj_insert {A : Type} (props : list (string * A)) key k (v w : A) :
  assoc key (obj_insert props k v) = Some w ->
  w = v \/ assoc key props = Some w.
Proof.
  induction props as [|[k0 w0] props IH]; simpl.
  - destruct (String.eqb key k); [intros H; left; congruence|discriminate].
  - destruct (key_before k k0); simpl.
    + destruct (String.eqb key k); [intros H; left; congruence|auto].
    + destruct (String.eqb key k0); auto.
Qed.

Lemma assoc_fields_assign (fields : fields_object) key k guard g :
  assoc key (fst (fields_assign fields k guard)) = Some g ->
  g = guard \/ assoc key (fst fields) = Some g.
Proof.
  unfold fields_assign. destruct (String.eqb k "__proto__"); simpl; [auto|].
  unfold obj_set. destruct (mem k (keys (fst fields))).
  - apply assoc_obj_replace.
  - apply assoc_obj_insert.
Qed.

Section CompiledFields.
Variable compile : Meta.t -> result Guard.

(** Every guard held by [fields] after the loop was compiled from the value
    of a declared field. *)
Lemma fields_loop_assoc (l : list (string * Meta.t)) :
  forall fields fields',
    fields_loop compile l fields = Ok fields' ->
    forall key g, assoc key (fst fields') = Some g ->
      assoc key (fst fields) = Some g \/
      exists k m, In (k, m) l /\ compile m = Ok g.
Proof.
  induction l as [|[k m] l IH]; simpl; intros fields fields' H key g Hg.
  - injection H as <-. auto.
  - destruct (compile m) as [guard|e] eqn:E; [|discriminate].
    destruct (IH _ _ H key g Hg) as [H1|(k' & m' & Hin & Hc)].
    + apply assoc_fields_assign in H1. destruct H1 as [->|H1]; [|auto].
      right. exists k, m. auto.
    + right. exists k', m'. auto.
Qed.

Lemma fields_loop_ok (l : list (string * Meta.t)) :
  (forall k m, In (k, m) l -> exists g, compile m = Ok g) ->
  forall fields, exists fields', fields_loop compile l fields = Ok fields'.
Proof.
  induction l as [|[k m] l IH]; simpl; intros H fields; [eauto|].
  destruct (H k m (or_introl eq_refl)) as [g ->].
  apply IH. intros k' m' Hin. apply (H k' m'). right; assumption.
Qed.
End CompiledFields.

Lemma mapM_ok {A B : Type} (f : A -> result B) (l : list A) :
  (forall x, In x l -> exists y, f x = Ok y) -> exists l', mapM f l = Ok l'.
Proof.
  induction l as [|x l IH]; simpl; intros H; [eauto|].
  destruct (H x (or_introl eq_refl)) as [y ->].
  destruct IH as [ys ->]; [intros z Hz; apply H; right; assumption|].
  eauto.
Qed.

Lemma in_skipn {A : Type} (n : nat) (l : list A) (x : A) :
  In x (skipn n l) -> In x l.
Proof.
  intros H. rewrite <- (firstn_skipn n l). apply in_or_app. right. assumption.
Qed.

Lemma Forall2_In_r {A B : Type} (P : A -> B -> Prop) (l : list A) (l' : list B) y :
  Forall2 P l l' -> In y l' -> exists x, In x l /\ P x y.
Proof.
  induction 1 as [|x0 y0 l l' H0 H IH]; simpl; [contradiction|].
  intros [<-|Hy]; [eauto|]. destruct (IH Hy) as (x & Hx & Hp). eauto.
Qed.

Lemma go_option_inv provider (o : option Meta.t) (o' : option Guard) :
  go_option provider o = Ok o' ->
  forall g, o' = Some g -> exists m, o = Some m /\ go provider m = Ok g.
Proof.
  destruct o as [m|]; simpl.
  - destruct (go provider m) as [g0|e] eqn:E; simpl; [|discriminate].
    intros H g Hg. exists m. split; [reflexivity|]. congruence.
  - intros H g Hg. congruence.
Qed.

Lemma go_Struct provider fields indexSignature :
  go provider (Meta.Struct fields indexSignature) =
  (fields' <- fields_loop (go provider) fields fields_empty ;;
   oIndexSignature <- go_option provider indexSignature ;;
   Ok (struct_guard (fst fields') (snd fields') oIndexSignature)).
Proof. reflexivity. Qed.

Lemma go_Struct_inv provider fields indexSignature guard :
  go provider (Meta.Struct fields indexSignature) = Ok guard ->
  exists fields' oIndexSignature,
    guard = struct_guard (fst fields') (snd fields') oIndexSignature /\
    fields_loop (go provider) fields fields_empty = Ok fields' /\
    go_option provider indexSignature = Ok oIndexSignature.
Proof.
  rewrite go_Struct. unfold bind.
  destruct (fields_loop (go provider) fields fields_empty) as [fs|e]; [|discriminate].
  destruct (go_option provider indexSignature) as [oi|e]; [|discriminate].
  intros H. injection H as <-. eauto.
Qed.

(** ** Well-formed schemas *)

Lemma call_depth_deeper (K r r' d d' : nat) :
  d' < d -> r' <= K -> call_depth K r' d' < call_depth K r d.
Proof. unfold call_depth. nia. Qed.

Lemma call_depth_rank (K r r' d d' : nat) :
  d' <= d -> r' < r -> call_depth K r' d' < call_depth K r d.
Proof. unfold call_depth. nia. Qed.

Section WellFormed.
Variable R : Runtime.
Variable nodes : Meta.t -> Prop.
Variable rank : Meta.t -> nat.
Variable K : nat.
Hypothesis WF : well_formed R nodes rank K.

(** The compiler throws on no node of a well-formed schema. *)
Lemma well_formed_compiles (m : Meta.t) :
  nodes m -> exists guard, go (guardFor R) m = Ok guard.
Proof.
  induction m using Meta_induction; intros Hn.
  - destruct (wf_apply _ _ _ _ WF _ _ _ Hn) as [Hc Hp].
    destruct (mapM_ok (go (guardFor R)) metas) as [guards Hg].
    { intros m Hm. rewrite Forall_forall in H. apply (H m Hm). apply Hc, Hm. }
    apply mapM_Forall2 in Hg. destruct (Hp guards Hg) as (guard & E & _). eauto.
  - cbn [go]. eauto.
  - cbn [go]. eauto.
  - cbn [go]. eauto.
  - cbn [go]. eauto.
  - destruct (wf_tuple _ _ _ _ WF _ _ Hn) as [Hc Hr]. rewrite go_Tuple.
    destruct (mapM_ok (go (guardFor R)) components) as [guards ->].
    { intros m Hm. rewrite Forall_forall in H. apply (H m Hm). apply Hc, Hm. }
    cbn [bind]. destruct restElement as [rest|]; cbn [go_option bind]; [|eauto].
    destruct (H0 (Hr rest eq_refl)) as [g ->]. cbn [bind]. eauto.
  - cbn [go].
    destruct (mapM_ok (go (guardFor R)) members) as [guards ->].
    { intros m Hm. rewrite Forall_forall in H. apply (H m Hm).
      apply (wf_union _ _ _ _ WF _ Hn m Hm). }
    cbn [bind]. eauto.
  - destruct (wf_struct _ _ _ _ WF _ _ Hn) as [Hc Hi]. rewrite go_Struct.
    destruct (fields_loop_ok (go (guardFor R)) fields) with (fields := fields_empty)
      as [fields' ->].
    { intros k m Hm. rewrite Forall_forall in H. apply (H (k, m) Hm).
      apply (Hc k m Hm). }
    cbn [bind]. destruct indexSignature as [value|]; cbn [go_option bind]; [|eauto].
    destruct (H0 (Hi value eq_refl)) as [g ->]. cbn [bind]. eauto.
  - cbn [go]. eauto.
Qed.

(** On data, the guard of a node returns a boolean within the call depth of
    the node: by induction on the nesting of the data and, for data of one
    nesting, on the rank of the node. *)
Lemma well_formed_returns_within (d : nat) :
  forall r a m guard,
    data a = true -> depth a <= d -> rank m <= r -> nodes m ->
    go (guardFor R) m = Ok guard ->
    returns_at R (call_depth K (rank m) (depth a)) guard a.
Proof.
  induction d as [d IHd] using lt_wf_ind.
  induction r as [r IHr] using lt_wf_ind.
  intros a m guard Hd Ha Hr Hn Hg.
  assert (Hpart : forall a' m' g,
             data a' = true -> depth a' < depth a -> nodes m' ->
             go (guardFor R) m' = Ok g ->
             returns_at R (call_depth K (rank m) (depth a) - 1) g a').
  { intros a' m' g Hd' Hlt Hn' Hg'.
    apply (returns_at_mono R (call_depth K (rank m') (depth a'))).
    - generalize (call_depth_deeper K (rank m) (rank m') (depth a) (depth a') Hlt
                    (wf_rank _ _ _ _ WF m' Hn')). lia.
    - apply (IHd (depth a')) with (r := rank m'); auto; lia. }
  assert (Hlower : forall m' g,
             rank m' < rank m -> nodes m' -> go (guardFor R) m' = Ok g ->
             returns_at R (call_depth K (rank m) (depth a) - 1) g a).
  { intros m' g Hlt Hn' Hg'.
    apply (returns_at_mono R (call_depth K (rank m') (depth a))).
    - generalize (call_depth_rank K (rank m) (rank m') (depth a) (depth a)
                    (Nat.le_refl _) Hlt). lia.
    - apply (IHr (rank m')) with (m := m'); auto; lia. }
  assert (Hstep : forall g, returns_at R (S (call_depth K (rank m) (depth a) - 1)) g a ->
                            returns_at R (call_depth K (rank m) (depth a)) g a).
  { intros g. apply returns_at_mono. unfold call_depth. lia. }
  assert (Hprim : forall g, returns_at R 3 g a ->
                            returns_at R (call_depth K (rank m) (depth a)) g a).
  { intros g. apply returns_at_mono. unfold call_depth. lia. }
  destruct m as [symbol metas annotations|min max|min max| |v
                |components restElement|members|fields indexSignature|symbol f].
  - destruct (wf_apply _ _ _ _ WF _ _ _ Hn) as [Hc Hp].
    destruct (mapM_ok (go (guardFor R)) metas) as [guards Hgs].
    { intros m Hm. apply well_formed_compiles. apply Hc, Hm. }
    apply mapM_Forall2 in Hgs. destruct (Hp guards Hgs) as (guard' & E & Hret).
    rewrite E in Hg. injection Hg as <-. apply Hret; [assumption|].
    intros m g a' Hm Hgm Hd' Ha'. destruct (Hc m Hm) as [Hnm Hrm].
    destruct (Nat.lt_ge_cases (depth a') d) as [Hlt|Hge].
    + apply (IHd (depth a')) with (r := rank m); auto.
    + apply (IHr (rank m)) with (m := m); auto; lia.
  - destruct (go_String_is R min max) as (g & E & His).
    rewrite E in Hg. injection Hg as <-. apply Hprim. eexists. apply (His 0).
  - destruct (go_Number_is R min max) as (g & E & His).
    rewrite E in Hg. injection Hg as <-. apply Hprim. eexists. apply (His 0).
  - destruct (go_Boolean_is R) as (g & E & His).
    rewrite E in Hg. injection Hg as <-. apply Hprim. eexists. apply (His 0).
  - cbn [go] in Hg. injection Hg as <-. apply Hprim. eexists. reflexivity.
  - destruct (wf_tuple _ _ _ _ WF _ _ Hn) as [Hc Hrest].
    apply go_Tuple_inv in Hg.
    destruct Hg as (components' & restElement' & -> & Hcs & Hro).
    apply mapM_Forall2 in Hcs. apply Hstep, tuple_returns_at.
    + intros Harr i g Hi. apply nth_error_In in Hi.
      destruct (Forall2_In_r _ _ _ _ Hcs Hi) as (m & Hm & Hgm).
      destruct a; try discriminate Harr. cbn [elements].
      apply (Hpart _ m); auto.
      * apply data_arr_get; assumption.
      * apply depth_arr_get.
    + intros rest x -> Hx.
      destruct (go_option_inv _ _ _ Hro rest eq_refl) as (m & -> & Hgm).
      apply in_skipn in Hx.
      destruct a; try contradiction. cbn [elements] in Hx.
      apply (Hpart _ m); auto.
      * apply (data_element elems); assumption.
      * apply depth_element in Hx. simpl. lia.
  - apply go_Union_inv in Hg. destruct Hg as (members' & -> & Hms).
    apply mapM_Forall2 in Hms. apply Hstep, union_returns_at. intros g Hin.
    destruct (Forall2_In_r _ _ _ _ Hms Hin) as (m & Hm & Hgm).
    destruct (wf_union _ _ _ _ WF _ Hn m Hm) as [Hnm Hrm].
    apply (Hlower m); assumption.
  - destruct (wf_struct _ _ _ _ WF _ _ Hn) as [Hc Hi].
    apply go_Struct_inv in Hg.
    destruct Hg as (fields' & oIndexSignature & -> & Hloop & Hio).
    apply Hstep, struct_returns_at.
    + intros Hobj key g Hk.
      destruct (fields_loop_assoc _ _ _ _ Hloop key g Hk)
        as [Hempty|(k & m & Hm & Hgm)]; [discriminate Hempty|].
      destruct (data_get_property a key Hobj Hd) as (v & Hv & Hdv & Hlt).
      exists v. split; [assumption|]. apply (Hpart _ m); auto. apply (Hc k m Hm).
    + intros Hobj indexSignature0 key -> Hk.
      destruct (go_option_inv _ _ _ Hio indexSignature0 eq_refl) as (m & -> & Hgm).
      destruct (data_get_property a key Hobj Hd) as (v & Hv & Hdv & Hlt).
      exists v. split; [assumption|]. apply (Hpart _ m); auto.
  - cbn [go] in Hg. injection Hg as <-.
    destruct (wf_lazy _ _ _ _ WF _ _ Hn) as [Hnf Hrf].
    destruct (well_formed_compiles _ Hnf) as [guard' Hg'].
    apply Hstep. apply (lazy_returns_at R _ symbol f guard' a Hg').
    apply (Hlower (force R f)); assumption.
Qed.
End WellFormed.

(** ** The store *)

Section Steps.
Variable P : store -> store -> Prop.
Hypothesis P_refl : forall s, P s s.
Hypothesis P_trans : forall s1 s2 s3, P s1 s2 -> P s2 s3 -> P s1 s3.

Lemma step_pure {A : Type} (r : result A) : step P (pure_s r).
Proof. intros s. apply P_refl. Qed.

Lemma step_bind {A B : Type} (m : stateful A) (k : A -> stateful B) :
  step P m -> (forall a, step P (k a)) -> step P (bind_s m k).
Proof.
  intros Hm Hk s. unfold bind_s. generalize (Hm s).
  destruct (m s) as [[a|e] s1]; cbn [snd]; intros H1; [|assumption].
  apply (P_trans _ s1); [assumption|]. apply Hk.
Qed.

Lemma step_memoize {K V : Type} (same : K -> K -> bool)
  (cache : store -> list (K * V)) (update : list (K * V) -> store -> store)
  (f : K -> stateful V) (k : K) :
  (forall l s, P s (update l s)) -> step P (f k) ->
  step P (memoize same cache update f k).
Proof.
  intros Hu Hf s. unfold memoize.
  destruct (find (fun entry => same k (fst entry)) (cache s)); [apply P_refl|].
  generalize (Hf s). destruct (f k s) as [[v|e] s1]; cbn [snd]; intros H1;
    [|assumption].
  apply (P_trans _ s1); [assumption|]. apply Hu.
Qed.

Lemma step_mapM {A B : Type} (f : A -> stateful B) (l : list A) :
  (forall x, In x l -> step P (f x)) -> step P (mapM_s f l).
Proof.
  induction l as [|x l IH]; intros H; cbn [mapM_s]; [apply step_pure|].
  apply step_bind; [apply H; left; reflexivity|]. intros y.
  apply step_bind; [apply IH; intros z Hz; apply H; right; assumption|].
  intros ys. apply step_pure.
Qed.

Lemma step_fields_loop (compile : Meta.t -> stateful Guard)
  (l : list (string * Meta.t)) :
  (forall field, In field l -> step P (compile (snd field))) ->
  forall fields, step P (fields_loop_s compile l fields).
Proof.
  induction l as [|[key value] l IH]; intros H fields; cbn [fields_loop_s];
    [apply step_pure|].
  apply step_bind; [apply (H (key, value)); left; reflexivity|]. intros guard.
  apply IH. intros field Hf. apply H. right; assumption.
Qed.

Lemma step_and_then (x y : store -> outcome * store) :
  step P x -> step P y -> step P (and_then_s x y).
Proof.
  intros Hx Hy s. unfold and_then_s. generalize (Hx s).
  destruct (x s) as [[[[|]|e]|] s1]; cbn [snd]; intros H1; try assumption.
  apply (P_trans _ s1); [assumption|]. apply Hy.
Qed.

Lemma step_every {A : Type} (f : A -> store -> outcome * store) (l : list A) :
  (forall x, In x l -> step P (f x)) -> step P (every_s f l).
Proof.
  induction l as [|x l IH]; intros H s; cbn [every_s]; [apply P_refl|].
  generalize (H x (or_introl eq_refl) s).
  destruct (f x s) as [[[[|]|e]|] s1]; cbn [snd]; intros H1; try assumption.
  apply (P_trans _ s1); [assumption|].
  apply IH. intros y Hy. apply H. right; assumption.
Qed.

Lemma step_every_from {A : Type} (f : A -> nat -> store -> outcome * store)
  (l : list A) :
  (forall x i, In x l -> step P (f x i)) ->
  forall i, step P (every_from_s f i l).
Proof.
  induction l as [|x l IH]; intros H i s; cbn [every_from_s]; [apply P_refl|].
  generalize (H x i (or_introl eq_refl) s).
  destruct (f x i s) as [[[[|]|e]|] s1]; cbn [snd]; intros H1; try assumption.
  apply (P_trans _ s1); [assumption|].
  apply IH. intros y j Hy. apply H. right; assumption.
Qed.

Lemma step_some {A : Type} (f : A -> store -> outcome * store) (l : list A) :
  (forall x, In x l -> step P (f x)) -> step P (some_s f l).
Proof.
  induction l as [|x l IH]; intros H s; cbn [some_s]; [apply P_refl|].
  generalize (H x (or_introl eq_refl) s).
  destruct (f x s) as [[[[|]|e]|] s1]; cbn [snd]; intros H1; try assumption.
  apply (P_trans _ s1); [assumption|].
  apply IH. intros y Hy. apply H. right; assumption.
Qed.
(** A predicate takes the steps that the calls of [get] take. *)
Lemma step_is_m (R : Runtime) (same_node : Meta.t -> Meta.t -> bool) :
  (forall c, step P (get R same_node c)) ->
  forall fuel guard a, step P (is_m R same_node fuel guard a).
Proof.
  intros Hget. induction fuel as [|fuel IH]; intros guard a;
    [intros s; apply P_refl|].
  assert (Hr : forall o : outcome, step P (fun s => (o, s))).
  { intros o s. apply P_refl. }
  destruct guard; cbn [is_m]; try apply Hr.
  - apply step_and_then; [apply IH|apply Hr].
  - apply step_and_then; [apply IH|apply Hr].
  - apply step_and_then; [apply IH|apply Hr].
  - apply step_and_then; [apply IH|apply Hr].
  - destruct (isArray a); [|apply Hr].
    apply step_and_then.
    + apply step_every_from. intros g i _. apply IH.
    + destruct restElement; [|apply Hr]. apply step_every. intros x _. apply IH.
  - apply step_some. intros g _. apply IH.
  - destruct (negb (isUnknownIndexSignature a)); [apply Hr|].
    apply step_and_then.
    + apply step_every. intros key _.
      destruct (assoc key fields); [|apply Hr].
      destruct (get_property a key); [apply IH|apply Hr].
    + destruct oIndexSignature; [|apply Hr]. apply step_every. intros key _.
      destruct (fields_has fields fields_proto key); [apply Hr|].
      destruct (get_property a key); [apply IH|apply Hr].
  - intros s. generalize (Hget f s).
    destruct (get R same_node f s) as [[g|e] s1]; cbn [snd]; intros H1;
      [|assumption].
    apply (P_trans _ s1); [assumption|]. apply IH.
Qed.
End Steps.

Lemma compiled_refl (s : store) : compiled s s.
Proof. split; [exists []; symmetry; apply app_nil_r|reflexivity]. Qed.

Lemma compiled_trans (s1 s2 s3 : store) :
  compiled s1 s2 -> compiled s2 s3 -> compiled s1 s3.
Proof.
  intros [[new1 H1] F1] [[new2 H2] F2]. split; [|congruence].
  exists (new1 ++ new2). rewrite H2, H1. symmetry. apply app_assoc.
Qed.

Lemma extends_refl (s : store) : extends s s.
Proof.
  split; [|reflexivity]. intros c entry H. exists entry. auto.
Qed.

Lemma extends_filled (s s' : store) (c : nat) :
  extends s s' -> filled s c -> filled s' c /\ get_cache c s' = get_cache c s.
Proof.
  intros [H _] Hf. unfold filled, get_cache in *.
  destruct (nth_error (closures s) c) as [entry|] eqn:E; [|contradiction].
  destruct (H c entry E) as (entry' & -> & _ & Hc).
  rewrite (Hc Hf). auto.
Qed.

Lemma extends_trans (s1 s2 s3 : store) :
  extends s1 s2 -> extends s2 s3 -> extends s1 s3.
Proof.
  intros H12 H23. split.
  - intros c entry H. destruct (proj1 H12 c entry H) as (entry2 & E2 & Hf2 & Hc2).
    destruct (proj1 H23 c entry2 E2) as (entry3 & E3 & Hf3 & Hc3).
    exists entry3. split; [assumption|]. split; [congruence|].
    intros Hne. rewrite <- (Hc2 Hne). apply Hc3. rewrite (Hc2 Hne). assumption.
  - intros c Hf. destruct (extends_filled _ _ c H12 Hf) as [Hf2 _].
    rewrite (proj2 H23 c Hf2). apply (proj2 H12 c Hf).
Qed.

Lemma compiled_extends (s s' : store) : compiled s s' -> extends s s'.
Proof.
  intros [[new H] F]. split.
  - intros c entry E. exists entry. rewrite H. split; [|auto].
    rewrite nth_error_app1; [assumption|]. apply nth_error_Some. congruence.
  - intros c _. unfold calls. rewrite F. reflexivity.
Qed.

Section StoreFacts.
Variable R : Runtime.
Variable same_node : Meta.t -> Meta.t -> bool.

(** A compilation makes new closures and calls none. *)
Lemma go_m_compiled (m : Meta.t) : step compiled (go_m R same_node m).
Proof.
  assert (Hu : forall l s, compiled s (set_go_cache l s)).
  { intros l s. split; [exists []; symmetry; apply app_nil_r|reflexivity]. }
  assert (Hb : forall (A B : Type) (x : stateful A) (k : A -> stateful B),
             step compiled x -> (forall a, step compiled (k a)) ->
             step compiled (bind_s x k)).
  { intros A B. apply (step_bind compiled compiled_trans). }
  assert (Hp : forall (A : Type) (r : result A), step compiled (pure_s r)).
  { intros A. apply (step_pure compiled compiled_refl). }
  assert (Ho : forall o : option Meta.t,
             match o with Some m' => step compiled (go_m R same_node m') | None => True end ->
             step compiled
               match o with
               | Some m' => guard <~ go_m R same_node m' ;; pure_s (Ok (Some guard))
               | None => pure_s (Ok (@None Guard))
               end).
  { intros [m'|] H; [|apply Hp]. apply Hb; [assumption|]. intros g. apply Hp. }
  induction m using Meta_induction; cbn [go_m];
    apply (step_memoize compiled compiled_refl compiled_trans); try exact Hu.
  - apply Hb; [apply Hp|]. intros [|annotation annotations']; [apply Hp|].
    apply Hb; [apply Hp|]. intros guardFor'. apply Hb.
    + apply (step_mapM compiled compiled_refl compiled_trans).
      rewrite Forall_forall in H. assumption.
    + intros guards. destruct guardFor'; apply Hp.
  - apply Hp.
  - apply Hp.
  - apply Hp.
  - apply Hp.
  - apply Hb.
    + apply (step_mapM compiled compiled_refl compiled_trans).
      rewrite Forall_forall in H. assumption.
    + intros components'. apply Hb; [apply Ho; assumption|]. intros r. apply Hp.
  - apply Hb.
    + apply (step_mapM compiled compiled_refl compiled_trans).
      rewrite Forall_forall in H. assumption.
    + intros members'. apply Hp.
  - apply Hb.
    + apply (step_fields_loop compiled compiled_refl compiled_trans).
      rewrite Forall_forall in H. assumption.
    + intros fields'. apply Hb; [apply Ho; assumption|]. intros r. apply Hp.
  - intros s. cbn. split; [eexists; reflexivity|reflexivity].
Qed.

Lemma find_all_nil {A : Type} (l : list A) :
  find (fun _ => true) l = None -> l = [].
Proof. destruct l; [reflexivity|discriminate]. Qed.

Lemma nth_error_set_nth {A : Type} (l : list A) (i j : nat) (x y : A) :
  nth_error l i = Some y ->
  nth_error (set_nth i x l) j = if Nat.eqb j i then Some x else nth_error l j.
Proof.
  revert i j. induction l as [|z l IH]; intros [|i] [|j] H; try discriminate H;
    try reflexivity.
  cbn [set_nth nth_error Nat.eqb]. apply IH. assumption.
Qed.

(** Writing the cache of a closure whose cache was empty. *)
Lemma extends_set_get_cache (s s1 : store) (c : nat) cache :
  get_cache c s = [] -> extends s s1 -> extends s (set_get_cache c cache s1).
Proof.
  intros Hc [H1 H2]. split; [|exact H2].
  intros c' entry E. destruct (H1 c' entry E) as (entry1 & E1 & Hf & Hk).
  unfold set_get_cache. cbn [closures].
  destruct (nth_error (closures s1) c) as [entryc|] eqn:Ec; [|eauto].
  rewrite (nth_error_set_nth _ c c' _ entryc Ec).
  destruct (Nat.eqb c' c) eqn:Heq; [|eauto].
  apply Nat.eqb_eq in Heq. subst c'.
  exists (fst entryc, cache). split; [reflexivity|].
  rewrite E1 in Ec. injection Ec as <-. split; [assumption|].
  intros Hne. exfalso. apply Hne. unfold get_cache in Hc. rewrite E in Hc. assumption.
Qed.

(** The call of a closure whose cache is empty. *)
Lemma extends_call (s s1 : store) (c : nat) :
  get_cache c s = [] ->
  compiled {| go_cache := go_cache s; closures := closures s; forced := c :: forced s |}
    s1 ->
  extends s s1.
Proof.
  intros Hc H. apply compiled_extends in H. destruct H as [H1 H2]. split.
  - exact H1.
  - intros c' Hf.
    assert (Hf' : filled {| go_cache := go_cache s; closures := closures s;
                            forced := c :: forced s |} c') by exact Hf.
    rewrite (H2 c' Hf'). unfold calls. cbn [forced].
    apply count_occ_cons_neq. intros ->. apply Hf. assumption.
Qed.

(** A call of [get] keeps the closures and the caches that hold a guard,
    and calls no closure whose cache holds one. *)
Lemma get_extends (c : nat) : step extends (get R same_node c).
Proof.
  intros s. unfold get, memoize.
  destruct (find (fun _ => true) (get_cache c s)) eqn:E; [apply extends_refl|].
  apply find_all_nil in E. unfold call_closure.
  destruct (nth_error (closures s) c) as [entry|] eqn:Ec; [|apply extends_refl].
  generalize (go_m_compiled (force R (fst entry))
                {| go_cache := go_cache s; closures := closures s;
                   forced := c :: forced s |}).
  destruct (go_m R same_node (force R (fst entry)) _) as [[g|e] s1]; cbn [snd];
    intros H.
  - apply extends_set_get_cache; [assumption|]. apply (extends_call _ _ c); assumption.
  - apply (extends_call _ _ c); assumption.
Qed.

(** So does a call of a predicate. *)
Lemma is_m_extends (fuel : nat) :
  forall guard a, step extends (is_m R same_node fuel guard a).
Proof.
  apply (step_is_m extends extends_refl extends_trans). apply get_extends.
Qed.

Lemma cached_refl (s : store) : cached same_node s s.
Proof. split; auto. Qed.

Lemma cached_trans (s1 s2 s3 : store) :
  cached same_node s1 s2 -> cached same_node s2 s3 -> cached same_node s1 s3.
Proof. intros [H1 H2] [H3 H4]. split; auto. Qed.

Lemma cached_go_cache (s s' : store) :
  go_cache s' = go_cache s -> cached same_node s s'.
Proof. intros E. unfold cached, one_guard. rewrite E. auto. Qed.

(** The memoized [go] on a node: its cache keeps what it held, and holds one
    guard for a [Lazy] node. *)
Lemma memoize_cached (m : Meta.t) (f : stateful Guard) :
  step (cached same_node) f ->
  (lazy_node m = true -> forall s, go_cache (snd (f s)) = go_cache s) ->
  step (cached same_node) (memoize same_node go_cache set_go_cache (fun _ => f) m).
Proof.
  intros Hf Hl s. unfold memoize.
  destruct (find (fun entry => same_node m (fst entry)) (go_cache s)) as [entry|] eqn:E;
    [apply cached_refl|].
  generalize (Hf s) (fun H => Hl H s). destruct (f s) as [[g|e] s1]; cbn [snd];
    intros [H1 H2] Hl'; [|split; assumption].
  split.
  - intros m0 g0 Hin. right. apply H1, Hin.
  - intros Hone m0 g0 g0' Hlazy Hsame [Hin|Hin] [Hin'|Hin'].
    + congruence.
    + injection Hin as <- <-. exfalso. rewrite (Hl' Hlazy) in Hin'.
      generalize (find_none _ _ E _ Hin'). cbn [fst]. congruence.
    + injection Hin' as <- <-. exfalso. rewrite (Hl' Hlazy) in Hin.
      generalize (find_none _ _ E _ Hin). cbn [fst]. congruence.
    + apply (H2 Hone m0 g0 g0' Hlazy Hsame Hin Hin').
Qed.

Lemma go_m_cached (m : Meta.t) : step (cached same_node) (go_m R same_node m).
Proof.
  assert (Hb : forall (A B : Type) (x : stateful A) (k : A -> stateful B),
             step (cached same_node) x -> (forall a, step (cached same_node) (k a)) ->
             step (cached same_node) (bind_s x k)).
  { intros A B. apply (step_bind (cached same_node) cached_trans). }
  assert (Hp : forall (A : Type) (r : result A), step (cached same_node) (pure_s r)).
  { intros A. apply (step_pure (cached same_node) cached_refl). }
  assert (Ho : forall o : option Meta.t,
             match o with
             | Some m' => step (cached same_node) (go_m R same_node m')
             | None => True
             end ->
             step (cached same_node)
               match o with
               | Some m' => guard <~ go_m R same_node m' ;; pure_s (Ok (Some guard))
               | None => pure_s (Ok (@None Guard))
               end).
  { intros [m'|] H; [|apply Hp]. apply Hb; [assumption|]. intros g. apply Hp. }
  induction m using Meta_induction; cbn [go_m]; apply memoize_cached;
    try discriminate.
  - apply Hb; [apply Hp|]. intros [|annotation annotations']; [apply Hp|].
    apply Hb; [apply Hp|]. intros guardFor'. apply Hb.
    + apply (step_mapM (cached same_node) cached_refl cached_trans).
      rewrite Forall_forall in H. assumption.
    + intros guards. destruct guardFor'; apply Hp.
  - apply Hp.
  - apply Hp.
  - apply Hp.
  - apply Hp.
  - apply Hb.
    + apply (step_mapM (cached same_node) cached_refl cached_trans).
      rewrite Forall_forall in H. assumption.
    + intros components'. apply Hb; [apply Ho; assumption|]. intros r. apply Hp.
  - apply Hb.
    + apply (step_mapM (cached same_node) cached_refl cached_trans).
      rewrite Forall_forall in H. assumption.
    + intros members'. apply Hp.
  - apply Hb.
    + apply (step_fields_loop (cached same_node) cached_refl cached_trans).
      rewrite Forall_forall in H. assumption.
    + intros fields'. apply Hb; [apply Ho; assumption|]. intros r. apply Hp.
  - intros s. apply cached_go_cache. reflexivity.
  - intros _ s. reflexivity.
Qed.

Lemma get_cached (c : nat) : step (cached same_node) (get R same_node c).
Proof.
  intros s. unfold get, memoize.
  destruct (find (fun _ => true) (get_cache c s)); [apply cached_refl|].
  unfold call_closure.
  destruct (nth_error (closures s) c) as [entry|]; [|apply cached_refl].
  generalize (go_m_cached (force R (fst entry))
                {| go_cache := go_cache s; closures := closures s;
                   forced := c :: forced s |}).
  destruct (go_m R same_node (force R (fst entry)) _) as [[g|e] s1]; cbn [snd];
    intros H; [|exact H].
  apply (cached_trans _ s1); [exact H|]. apply cached_go_cache. reflexivity.
Qed.

Lemma is_m_cached (fuel : nat) :
  forall guard a, step (cached same_node) (is_m R same_node fuel guard a).
Proof.
  apply (step_is_m (cached same_node) cached_refl cached_trans). apply get_cached.
Qed.

(** A node that the cache of [go] holds, with one guard: [go] answers that
    guard and leaves the store as it is. *)
Lemma go_m_hit (m : Meta.t) (s : store) (guard : Guard) :
  (forall m1 m2, same_node m1 m2 = true -> m1 = m2) ->
  lazy_node m = true -> same_node m m = true ->
  one_guard same_node s -> In (m, guard) (go_cache s) ->
  go_m R same_node m s = (Ok guard, s).
Proof.
  intros Hsound Hlazy Hsame Hone Hin.
  destruct m; try discriminate Hlazy. cbn [go_m]. unfold memoize.
  destruct (find (fun entry => same_node (Meta.Lazy symbol f) (fst entry))
              (go_cache s)) as [[m' g']|] eqn:E.
  - apply find_some in E. destruct E as [Hin' Hs']. cbn [fst] in Hs'.
    apply Hsound in Hs'. subst m'. cbn [snd].
    rewrite (Hone _ g' guard Hlazy Hsame Hin' Hin). reflexivity.
  - generalize (find_none _ _ E _ Hin). cbn [fst]. congruence.
Qed.

(** After [go] answered for a node, its cache holds the node with the
    answer. *)
Lemma go_m_cache (m : Meta.t) (s s1 : store) (guard : Guard) :
  (forall m1 m2, same_node m1 m2 = true -> m1 = m2) ->
  go_m R same_node m s = (Ok guard, s1) -> In (m, guard) (go_cache s1).
Proof.
  intros Hsound.
  assert (Hm : forall f : stateful Guard,
             memoize same_node go_cache set_go_cache (fun _ => f) m s = (Ok guard, s1) ->
             In (m, guard) (go_cache s1)).
  { intros f. unfold memoize.
    destruct (find (fun entry => same_node m (fst entry)) (go_cache s))
      as [[m' g']|] eqn:E.
    - intros H. injection H as <- <-. apply find_some in E.
      destruct E as [Hin Hs']. cbn [fst] in Hs'. apply Hsound in Hs'. subst m'.
      assumption.
    - destruct (f s) as [[g|e] s2]; intros H; [|discriminate H].
      injection H as <- <-. left. reflexivity. }
  destruct m; cbn [go_m]; apply Hm.
Qed.

(** A memoized function that has answered answers the same again, and
    leaves the store as it is. *)
Lemma memoize_again {K V : Type} (same : K -> K -> bool)
  (cache : store -> list (K * V)) (update : list (K * V) -> store -> store)
  (f : K -> stateful V) (k : K) (s s' : store) (v : V) :
  (forall v1 s1 l, f k s = (Ok v1, s1) -> cache (update l s1) = l) ->
  same k k = true ->
  memoize same cache update f k s = (Ok v, s') ->
  memoize same cache update f k s' = (Ok v, s').
Proof.
  intros Hu Hk. unfold memoize.
  destruct (find (fun entry => same k (fst entry)) (cache s)) as [entry|] eqn:E.
  - intros H. injection H as <- <-. rewrite E. reflexivity.
  - destruct (f k s) as [[v1|e] s1] eqn:Ef; intros H; [|discriminate H].
    injection H as <- <-. rewrite (Hu v1 s1 _ eq_refl).
    cbn [find fst snd]. rewrite Hk. reflexivity.
Qed.

Lemma go_m_again (m : Meta.t) (s s' : store) (guard : Guard) :
  same_node m m = true ->
  go_m R same_node m s = (Ok guard, s') ->
  go_m R same_node m s' = (Ok guard, s').
Proof.
  intros Hm. destruct m; cbn [go_m]; apply memoize_again; auto.
Qed.

(** The call of a closure that is in the store keeps it in the store. *)
Lemma call_closure_keeps (c : nat) (s s1 : store) (guard : Guard) :
  call_closure R same_node c s = (Ok guard, s1) ->
  exists entry, nth_error (closures s) c = Some entry /\
                nth_error (closures s1) c = Some entry.
Proof.
  unfold call_closure.
  destruct (nth_error (closures s) c) as [entry|] eqn:Ec; [|discriminate].
  intros H.
  generalize (go_m_compiled (force R (fst entry))
                {| go_cache := go_cache s; closures := closures s;
                   forced := c :: forced s |}).
  rewrite H. unfold compiled. cbn [snd closures]. intros [[new Hnew] _].
  exists entry. split; [reflexivity|].
  rewrite Hnew, nth_error_app1; [assumption|].
  apply nth_error_Some. rewrite Ec. discriminate.
Qed.

Lemma get_cache_set (c : nat) (s : store) (entry : thunk * list (unit * Guard))
  (cache : list (unit * Guard)) :
  nth_error (closures s) c = Some entry ->
  get_cache c (set_get_cache c cache s) = cache.
Proof.
  intros E. unfold get_cache, set_get_cache. cbn [closures].
  rewrite E, (nth_error_set_nth _ c c _ entry E), Nat.eqb_refl. reflexivity.
Qed.

Lemma get_again (c : nat) (s s' : store) (guard : Guard) :
  get R same_node c s = (Ok guard, s') ->
  get R same_node c s' = (Ok guard, s').
Proof.
  unfold get. apply memoize_again; [|reflexivity].
  intros v1 s1 l H. destruct (call_closure_keeps c s s1 v1 H) as (entry & _ & E1).
  apply (get_cache_set c s1 entry). assumption.
Qed.

(** After [get] has answered, the cache of the closure holds the guard. *)
Lemma get_filled (c : nat) (s s' : store) (guard : Guard) :
  get R same_node c s = (Ok guard, s') ->
  exists cache, get_cache c s' = (tt, guard) :: cache.
Proof.
  unfold get, memoize.
  destruct (find (fun _ => true) (get_cache c s)) as [entry|] eqn:E.
  - intros H. injection H as <- <-.
    destruct (get_cache c s) as [|entry' cache]; [discriminate E|].
    injection E as ->. destruct entry as [[] g]. eauto.
  - destruct (call_closure R same_node c s) as [[v|e] s1] eqn:Ec; intros H;
      [|discriminate H].
    injection H as <- <-.
    destruct (call_closure_keeps c s s1 v Ec) as (entry & _ & E1).
    rewrite (get_cache_set c s1 entry _ E1). eauto.
Qed.

End StoreFacts.

(** ** The caches change no result *)

Lemma keeps_refl (s : store) : keeps s s.
Proof. intros c entry E. eauto. Qed.

Lemma keeps_trans (s1 s2 s3 : store) : keeps s1 s2 -> keeps s2 s3 -> keeps s1 s3.
Proof.
  intros H12 H23 c entry E. destruct (H12 c entry E) as (entry2 & E2 & F2).
  destruct (H23 c entry2 E2) as (entry3 & E3 & F3). exists entry3.
  split; [assumption|congruence].
Qed.

Lemma extends_keeps (s s' : store) : extends s s' -> keeps s s'.
Proof.
  intros [H _] c entry E. destruct (H c entry E) as (entry' & E' & F & _). eauto.
Qed.

Lemma stable_keeps (s s' : store) (guard : Guard) :
  stable s guard -> keeps s s' -> stable s' guard /\ erase s' guard = erase s guard.
Proof.
  intros H He. split; [|apply H; assumption]. intros s'' He'.
  rewrite (H s'' (keeps_trans _ _ _ He He')). symmetry. apply H. assumption.
Qed.

Lemma stable_extends (s s' : store) (guard : Guard) :
  stable s guard -> extends s s' -> stable s' guard /\ erase s' guard = erase s guard.
Proof. intros H He. apply stable_keeps; [assumption|]. apply extends_keeps, He. Qed.

Lemma map_eq_In {A B : Type} (f g : A -> B) (l : list A) :
  map f l = map g l <-> forall x, In x l -> f x = g x.
Proof.
  split; [|apply map_ext_in].
  induction l as [|y l IH]; simpl; intros H x Hx; [contradiction|].
  injection H as H1 H2. destruct Hx as [<-|Hx]; auto.
Qed.

Lemma option_map_eq {A B : Type} (f g : A -> B) (o : option A) :
  option_map f o = option_map g o <-> forall x, o = Some x -> f x = g x.
Proof.
  destruct o as [a|]; simpl; split.
  - intros H x E. injection E as <-. congruence.
  - intros H. f_equal. apply H. reflexivity.
  - intros _ x E. discriminate E.
  - reflexivity.
Qed.

Lemma stable_tuple (s : store) components restElement :
  stable s (tuple_guard components restElement) <->
  (forall g, In g components -> stable s g) /\
  (forall g, restElement = Some g -> stable s g).
Proof.
  unfold stable, erase. cbn [rename]. split.
  - intros H. split.
    + intros g Hg s' He. specialize (H s' He). injection H as H1 H2.
      apply (proj1 (map_eq_In _ _ _) H1 g Hg).
    + intros g Hg s' He. specialize (H s' He). injection H as H1 H2.
      apply (proj1 (option_map_eq _ _ _) H2 g Hg).
  - intros [H1 H2] s' He. f_equal.
    + apply map_eq_In. intros g Hg. apply H1; assumption.
    + apply option_map_eq. intros g Hg. apply (H2 g Hg); assumption.
Qed.

Lemma stable_union (s : store) members :
  stable s (union_guard members) <-> forall g, In g members -> stable s g.
Proof.
  unfold stable, erase. cbn [rename]. split.
  - intros H g Hg s' He. specialize (H s' He). injection H as H1.
    apply (proj1 (map_eq_In _ _ _) H1 g Hg).
  - intros H1 s' He. f_equal.
    apply map_eq_In. intros g Hg. apply H1; assumption.
Qed.

Lemma stable_struct (s : store) fields fields_proto oIndexSignature :
  stable s (struct_guard fields fields_proto oIndexSignature) <->
  (forall field, In field fields -> stable s (snd field)) /\
  (forall g, oIndexSignature = Some g -> stable s g).
Proof.
  unfold stable, erase. cbn [rename]. split.
  - intros H. split.
    + intros field Hf s' He. specialize (H s' He). injection H as H1 H2.
      generalize (proj1 (map_eq_In _ _ _) H1 field Hf). congruence.
    + intros g Hg s' He. specialize (H s' He). injection H as H1 H2.
      apply (proj1 (option_map_eq _ _ _) H2 g Hg).
  - intros [H1 H2] s' He. f_equal.
    + apply map_eq_In. intros field Hf. f_equal. apply H1; assumption.
    + apply option_map_eq. intros g Hg. apply (H2 g Hg); assumption.
Qed.

Lemma stable_lazy (s : store) symbol c :
  stable s (lazy symbol c) <-> c < List.length (closures s).
Proof.
  split.
  - intros H. destruct (Nat.lt_ge_cases c (List.length (closures s))) as [Hlt|Hge];
      [assumption|exfalso].
    set (s' := {| go_cache := go_cache s;
                  closures := closures s ++
                              repeat (S c, []) (S c - List.length (closures s));
                  forced := forced s |}).
    assert (He : keeps s s').
    { apply extends_keeps, compiled_extends.
      split; [eexists; reflexivity|reflexivity]. }
    specialize (H s' He). unfold erase, resolve in H. cbn [rename] in H.
    replace (nth_error (closures s) c) with (@None (thunk * list (unit * Guard))) in H
      by (symmetry; apply nth_error_None; assumption).
    unfold s' in H. cbn [closures] in H.
    rewrite nth_error_app2 in H by assumption.
    rewrite nth_error_repeat in H by lia. cbn [fst] in H.
    injection H as H. lia.
  - intros Hlt s' He. unfold erase, resolve. cbn [rename]. f_equal.
    destruct (nth_error (closures s) c) as [entry|] eqn:E.
    + destruct (He c entry E) as (entry' & -> & Hf). assumption.
    + apply nth_error_None in E. lia.
Qed.

Lemma erase_tuple (s : store) components restElement :
  erase s (tuple_guard components restElement) =
  tuple_guard (map (erase s) components) (option_map (erase s) restElement).
Proof. reflexivity. Qed.

Lemma erase_union (s : store) members :
  erase s (union_guard members) = union_guard (map (erase s) members).
Proof. reflexivity. Qed.

Lemma erase_struct (s : store) fields fields_proto oIndexSignature :
  erase s (struct_guard fields fields_proto oIndexSignature) =
  struct_guard (map (fun field => (fst field, erase s (snd field))) fields)
    fields_proto (option_map (erase s) oIndexSignature).
Proof. reflexivity. Qed.

Lemma erase_closure_free (s : store) (guard : Guard) :
  (forall rho, rename rho guard = guard) -> stable s guard.
Proof. intros H s' _. unfold erase. rewrite !H. reflexivity. Qed.

Section Refines.
Variable R : Runtime.
Variable same_node : Meta.t -> Meta.t -> bool.
Hypothesis same_node_eq : forall m m', same_node m m' = true -> m = m'.
Hypothesis providers : uniform R.

Lemma consistent_extends (s s' : store) :
  consistent R s -> keeps s s' ->
  go_cache s' = go_cache s ->
  (forall c entry', nth_error (closures s') c = Some entry' ->
     forall k guard, In (k, guard) (snd entry') ->
       exists entry, nth_error (closures s) c = Some entry /\
                     fst entry = fst entry' /\ In (k, guard) (snd entry)) ->
  consistent R s'.
Proof.
  intros [Ha Hb] He Hg Hc. split.
  - rewrite Hg. intros m guard Hin. destruct (Ha m guard Hin) as [H1 H2].
    destruct (stable_keeps s s' guard H2 He) as [H3 H4]. rewrite H4. auto.
  - intros c entry' k guard E Hin.
    destruct (Hc c entry' E k guard Hin) as (entry & E0 & Hf & Hin0).
    destruct (Hb c entry k guard E0 Hin0) as [H1 H2].
    destruct (stable_keeps s s' guard H2 He) as [H3 H4].
    rewrite H4, <- Hf. auto.
Qed.

Lemma memoize_go_agrees (m : Meta.t) (f : stateful Guard) :
  (forall s r s1, consistent R s -> f s = (r, s1) ->
     consistent R s1 /\ compiles_as s1 r (go (guardFor R) m)) ->
  forall s r s1, consistent R s ->
    memoize same_node go_cache set_go_cache (fun _ => f) m s = (r, s1) ->
    consistent R s1 /\ compiles_as s1 r (go (guardFor R) m).
Proof.
  intros Hf s r s1 Hs. unfold memoize.
  destruct (find (fun entry => same_node m (fst entry)) (go_cache s))
    as [[m' g]|] eqn:E.
  - intros H. injection H as <- <-. split; [assumption|].
    apply find_some in E. destruct E as [Hin Hsame]. cbn [fst] in Hsame.
    apply same_node_eq in Hsame. subst m'.
    apply (proj1 Hs m g Hin).
  - destruct (f s) as [[g|e] s2] eqn:Ef; intros H; injection H as <- <-;
      destruct (Hf s _ s2 Hs Ef) as [H1 H2]; [|auto].
    destruct H2 as [H2 H3]. split.
    + destruct H1 as [Ha Hb]. split.
      * cbn [go_cache set_go_cache]. intros m0 g0 [Hin|Hin].
        -- injection Hin as <- <-. auto.
        -- apply (Ha m0 g0 Hin).
      * exact Hb.
    + split; assumption.
Qed.

Lemma go_m_extends (m : Meta.t) (s s1 : store) r :
  go_m R same_node m s = (r, s1) -> extends s s1.
Proof.
  intros H. generalize (go_m_compiled R same_node m s). rewrite H.
  apply compiled_extends.
Qed.

Lemma mapM_s_extends (l : list Meta.t) (s s1 : store) r :
  mapM_s (go_m R same_node) l s = (r, s1) -> extends s s1.
Proof.
  intros H.
  generalize (step_mapM compiled compiled_refl compiled_trans (go_m R same_node) l
                (fun x _ => go_m_compiled R same_node x) s).
  rewrite H. apply compiled_extends.
Qed.

Lemma mapM_s_agrees (l : list Meta.t) :
  Forall (go_agrees R same_node) l ->
  forall s r s1,
    consistent R s -> mapM_s (go_m R same_node) l s = (r, s1) ->
    consistent R s1 /\
    match r with
    | Ok guards =>
        mapM (go (guardFor R)) l = Ok (map (erase s1) guards) /\
        forall g, In g guards -> stable s1 g
    | Throw e => mapM (go (guardFor R)) l = Throw e
    end.
Proof.
  induction 1 as [|m l Hm Hl IH]; intros s r s1 Hs.
  - cbn. intros H. injection H as <- <-.
    split; [assumption|]. split; [reflexivity|]. intros g [].
  - cbn [mapM_s mapM]. unfold bind_s.
    destruct (go_m R same_node m s) as [[g|e] s2] eqn:Eg.
    2:{ intros H. injection H as <- <-.
        destruct (Hm s _ s2 Hs Eg) as [H1 H2]. cbn [compiles_as] in H2.
        rewrite H2. auto. }
    destruct (Hm s _ s2 Hs Eg) as [H1 [H2 H3]]. rewrite H2.
    destruct (mapM_s (go_m R same_node) l s2) as [[gs|e] s3] eqn:El;
      cbn [pure_s]; intros H; injection H as <- <-;
      destruct (IH s2 _ s3 H1 El) as [H4 H5].
    2:{ rewrite H5. auto. }
    destruct H5 as [H5 H6]. rewrite H5. split; [assumption|].
    destruct (stable_extends s2 s3 g H3 (mapM_s_extends _ _ _ _ El)) as [H7 H8].
    split.
    + cbn [map]. rewrite H8. reflexivity.
    + intros g' [<-|Hg]; auto.
Qed.

Lemma keys_map_snd {A B : Type} (f : A -> B) (l : list (string * A)) :
  keys (map (fun field => (fst field, f (snd field))) l) = keys l.
Proof. unfold keys. rewrite map_map. reflexivity. Qed.

Lemma obj_replace_map {A B : Type} (f : A -> B) (l : list (string * A)) key v :
  obj_replace (map (fun field => (fst field, f (snd field))) l) key (f v) =
  map (fun field => (fst field, f (snd field))) (obj_replace l key v).
Proof.
  induction l as [|[k w] l IH]; cbn [obj_replace map fst snd]; [reflexivity|].
  destruct (String.eqb key k); cbn [map fst snd]; [reflexivity|].
  rewrite IH. reflexivity.
Qed.

Lemma obj_insert_map {A B : Type} (f : A -> B) (l : list (string * A)) key v :
  obj_insert (map (fun field => (fst field, f (snd field))) l) key (f v) =
  map (fun field => (fst field, f (snd field))) (obj_insert l key v).
Proof.
  induction l as [|[k w] l IH]; cbn [obj_insert map fst snd]; [reflexivity|].
  destruct (key_before key k); cbn [map fst snd]; [reflexivity|].
  rewrite IH. reflexivity.
Qed.

Lemma fields_assign_map (f : Guard -> Guard) (fields : fields_object) key guard :
  fields_assign (map_fields f fields) key (f guard) =
  map_fields f (fields_assign fields key guard).
Proof.
  unfold fields_assign, map_fields. cbn [fst snd].
  destruct (String.eqb key "__proto__"); cbn [fst snd]; [reflexivity|].
  unfold obj_set. rewrite keys_map_snd.
  destruct (mem key (keys (fst fields))).
  - rewrite obj_replace_map. reflexivity.
  - rewrite obj_insert_map. reflexivity.
Qed.

Lemma In_obj_replace {A : Type} (l : list (string * A)) key v field :
  In field (obj_replace l key v) -> snd field = v \/ In field l.
Proof.
  induction l as [|[k w] l IH]; cbn [obj_replace]; [contradiction|].
  destruct (String.eqb key k).
  - intros [<-|H]; [left; reflexivity|right; right; assumption].
  - intros [<-|H]; [right; left; reflexivity|].
    destruct (IH H); [left; assumption|right; right; assumption].
Qed.

Lemma In_obj_insert {A : Type} (l : list (string * A)) key v field :
  In field (obj_insert l key v) -> snd field = v \/ In field l.
Proof.
  induction l as [|[k w] l IH]; cbn [obj_insert].
  - intros [<-|[]]. left. reflexivity.
  - destruct (key_before key k).
    + intros [<-|H]; [left; reflexivity|right; assumption].
    + intros [<-|H]; [right; left; reflexivity|].
      destruct (IH H); [left; assumption|right; right; assumption].
Qed.

Lemma In_fields_assign (fields : fields_object) key guard field :
  In field (fst (fields_assign fields key guard)) ->
  snd field = guard \/ In field (fst fields).
Proof.
  unfold fields_assign. destruct (String.eqb key "__proto__"); cbn [fst]; [auto|].
  unfold obj_set. destruct (mem key (keys (fst fields))).
  - apply In_obj_replace.
  - apply In_obj_insert.
Qed.

Lemma fields_loop_s_agrees (l : list (string * Meta.t)) :
  Forall (fun field => go_agrees R same_node (snd field)) l ->
  forall fields s r s1,
    consistent R s ->
    (forall field, In field (fst fields) -> stable s (snd field)) ->
    fields_loop_s (go_m R same_node) l fields s = (r, s1) ->
    consistent R s1 /\ extends s s1 /\
    match r with
    | Ok fields' =>
        fields_loop (go (guardFor R)) l (map_fields (erase s) fields) =
        Ok (map_fields (erase s1) fields') /\
        forall field, In field (fst fields') -> stable s1 (snd field)
    | Throw e =>
        fields_loop (go (guardFor R)) l (map_fields (erase s) fields) = Throw e
    end.
Proof.
  induction 1 as [|[key m] l Hm Hl IH]; intros fields s r s1 Hs Hst.
  - cbn. intros H. injection H as <- <-.
    split; [assumption|]. split; [apply extends_refl|].
    split; [reflexivity|assumption].
  - cbn [fields_loop_s fields_loop snd] in *. unfold bind_s.
    destruct (go_m R same_node m s) as [[g|e] s2] eqn:Eg.
    2:{ intros H. injection H as <- <-.
        destruct (Hm s _ s2 Hs Eg) as [H1 H2]. cbn [compiles_as] in H2.
        rewrite H2. split; [assumption|].
        split; [apply (go_m_extends _ _ _ _ Eg)|reflexivity]. }
    destruct (Hm s _ s2 Hs Eg) as [H1 [H2 H3]]. rewrite H2.
    generalize (go_m_extends _ _ _ _ Eg). intros He.
    assert (Hst1 : forall field, In field (fst (fields_assign fields key g)) ->
                                 stable s2 (snd field)).
    { intros field Hf. apply In_fields_assign in Hf.
      destruct Hf as [->|Hf]; [assumption|].
      apply (stable_extends s s2); auto. }
    replace (map_fields (erase s) fields) with (map_fields (erase s2) fields).
    2:{ unfold map_fields. f_equal. apply map_eq_In. intros field Hf. f_equal.
        apply (stable_extends s s2); auto. }
    rewrite fields_assign_map. intros H.
    destruct (IH (fields_assign fields key g) s2 r s1 H1 Hst1 H) as (H4 & H5 & H6).
    split; [assumption|]. split; [|assumption].
    apply (extends_trans _ s2); assumption.
Qed.

Lemma go_option_s_agrees (o : option Meta.t) :
  match o with Some m => go_agrees R same_node m | None => True end ->
  forall s r s1,
    consistent R s ->
    go_option_s R same_node o s = (r, s1) ->
    consistent R s1 /\ extends s s1 /\
    match r with
    | Ok o' =>
        go_option (guardFor R) o = Ok (option_map (erase s1) o') /\
        forall g, o' = Some g -> stable s1 g
    | Throw e => go_option (guardFor R) o = Throw e
    end.
Proof.
  destruct o as [m|]; intros Hm s r s1 Hs; cbn [go_option go_option_s].
  - unfold bind_s.
    destruct (go_m R same_node m s) as [[g|e] s2] eqn:Eg; cbn [pure_s];
      intros H; injection H as <- <-;
      destruct (Hm s _ s2 Hs Eg) as [H1 H2];
      generalize (go_m_extends _ _ _ _ Eg); intros He.
    + destruct H2 as [H2 H3]. rewrite H2. cbn [bind option_map].
      split; [assumption|]. split; [assumption|]. split; [reflexivity|].
      intros g' E. injection E as <-. assumption.
    + cbn [compiles_as] in H2. rewrite H2. auto.
  - cbn. intros H. injection H as <- <-.
    split; [assumption|]. split; [apply extends_refl|]. split; [reflexivity|].
    intros g E. discriminate E.
Qed.

Lemma new_lazy_agrees symbol f :
  forall s r s1, consistent R s -> new_lazy symbol f s = (r, s1) ->
    consistent R s1 /\ compiles_as s1 r (go (guardFor R) (Meta.Lazy symbol f)).
Proof.
  intros s r s1 Hs. unfold new_lazy. intros H. injection H as <- <-.
  set (s' := {| go_cache := go_cache s; closures := closures s ++ [(f, [])];
                forced := forced s |}).
  assert (He : keeps s s').
  { apply extends_keeps, compiled_extends.
    split; [eexists; reflexivity|reflexivity]. }
  assert (En : nth_error (closures s') (List.length (closures s)) = Some (f, [])).
  { unfold s'. cbn [closures]. rewrite nth_error_app2, Nat.sub_diag by lia.
    reflexivity. }
  split.
  - apply (consistent_extends s s' Hs He); [reflexivity|].
    intros c entry' E k guard Hin. unfold s' in E. cbn [closures] in E.
    destruct (Nat.lt_ge_cases c (List.length (closures s))) as [Hlt|Hge].
    + rewrite nth_error_app1 in E by assumption. eauto.
    + rewrite nth_error_app2 in E by assumption.
      destruct (c - List.length (closures s)) as [|[|n]]; try discriminate E.
      injection E as <-. contradiction.
  - cbn [compiles_as go]. split.
    + unfold erase, resolve. cbn [rename]. rewrite En. reflexivity.
    + apply stable_lazy. apply nth_error_Some. rewrite En. discriminate.
Qed.

Lemma bind_pure {A B : Type} (r : result A) (k : A -> stateful B) (s : store) :
  bind_s (pure_s r) k s =
  match r with
  | Ok a => k a s
  | Throw e => (Throw e, s)
  end.
Proof. destruct r; reflexivity. Qed.

Lemma go_m_Tuple components restElement :
  go_m R same_node (Meta.Tuple components restElement) =
  memoize same_node go_cache set_go_cache
    (fun _ =>
       components' <~ mapM_s (go_m R same_node) components ;;
       restElement' <~ go_option_s R same_node restElement ;;
       pure_s (Ok (tuple_guard components' restElement')))
    (Meta.Tuple components restElement).
Proof. reflexivity. Qed.

Lemma go_m_Struct fields indexSignature :
  go_m R same_node (Meta.Struct fields indexSignature) =
  memoize same_node go_cache set_go_cache
    (fun _ =>
       fields' <~ fields_loop_s (go_m R same_node) fields fields_empty ;;
       oIndexSignature <~ go_option_s R same_node indexSignature ;;
       pure_s (Ok (struct_guard (fst fields') (snd fields') oIndexSignature)))
    (Meta.Struct fields indexSignature).
Proof. reflexivity. Qed.

Lemma go_m_agrees (m : Meta.t) : go_agrees R same_node m.
Proof.
  induction m using Meta_induction; intros s0 r0 s0' Hs0;
    try rewrite go_m_Tuple; try rewrite go_m_Struct; cbn [go_m];
    apply memoize_go_agrees; try assumption; clear s0 r0 s0' Hs0; intros s r s1 Hs.
  - (* Apply *)
    cbn [go]. rewrite bind_pure.
    destruct (filterM isGuardAnnotation annotations) as [[|annotation rest]|e];
      cbn [bind pure_s];
      try (intros E; injection E as <- <-; cbn [compiles_as]; auto).
    rewrite bind_pure.
    destruct (get_property annotation "guardFor") as [guardFor'|e];
      cbn [bind pure_s];
      try (intros E; injection E as <- <-; cbn [compiles_as]; auto).
    unfold bind_s.
    destruct (mapM_s (go_m R same_node) metas s) as [[guards|e] s2] eqn:Em;
      destruct (mapM_s_agrees metas H s _ s2 Hs Em) as [H1 H2].
    2:{ intros E. injection E as <- <-. rewrite H2. cbn [bind compiles_as]. auto. }
    destruct H2 as [H2 H3]. rewrite H2. cbn [bind].
    destruct guardFor'; cbn [pure_s];
      intros E; injection E as <- <-; cbn [compiles_as]; auto.
    split; [assumption|].
    unfold erase at 1. rewrite (providers (resolve s2) name annotations guards).
    destruct (guardFor R name annotations guards) as [g|e] eqn:Eg; [|reflexivity].
    split; [reflexivity|]. intros s' He.
    generalize (providers (resolve s') name annotations guards).
    replace (map (rename (resolve s')) guards) with (map (rename (resolve s2)) guards).
    2:{ apply map_eq_In. intros g' Hg'. symmetry. apply (H3 g' Hg' s' He). }
    rewrite (providers (resolve s2) name annotations guards), Eg.
    intros E. injection E as E. unfold erase. congruence.
  - (* String *)
    cbn [pure_s go]. intros E. injection E as <- <-. split; [assumption|].
    destruct min, max; (split; [reflexivity|apply erase_closure_free; reflexivity]).
  - cbn [pure_s go]. intros E. injection E as <- <-. split; [assumption|].
    destruct min, max; (split; [reflexivity|apply erase_closure_free; reflexivity]).
  - cbn [pure_s go]. intros E. injection E as <- <-. split; [assumption|].
    split; [reflexivity|apply erase_closure_free; reflexivity].
  - cbn [pure_s go]. intros E. injection E as <- <-. split; [assumption|].
    split; [reflexivity|apply erase_closure_free; reflexivity].
  - (* Tuple *)
    rewrite go_Tuple. unfold bind_s.
    destruct (mapM_s (go_m R same_node) components s) as [[guards|e] s2] eqn:Em;
      destruct (mapM_s_agrees components H s _ s2 Hs Em) as [H1 H2].
    2:{ intros E. injection E as <- <-. rewrite H2. cbn [bind compiles_as]. auto. }
    destruct H2 as [H2 H3]. rewrite H2. cbn [bind].
    destruct (go_option_s R same_node restElement s2) as [[o'|e] s3] eqn:Eo;
      destruct (go_option_s_agrees restElement H0 s2 _ s3 H1 Eo) as (H4 & He & H5);
      cbn [pure_s]; intros E; injection E as <- <-.
    2:{ rewrite H5. cbn [bind compiles_as]. auto. }
    destruct H5 as [H5 H6]. rewrite H5. cbn [bind compiles_as].
    split; [assumption|]. split.
    + rewrite erase_tuple. f_equal. f_equal.
      apply map_eq_In. intros g Hg. symmetry.
      apply (stable_extends s2 s3 g (H3 g Hg) He).
    + apply stable_tuple. split; [|assumption].
      intros g Hg. apply (stable_extends s2 s3 g (H3 g Hg) He).
  - (* Union *)
    cbn [go]. unfold bind_s.
    destruct (mapM_s (go_m R same_node) members s) as [[guards|e] s2] eqn:Em;
      destruct (mapM_s_agrees members H s _ s2 Hs Em) as [H1 H2];
      cbn [pure_s]; intros E; injection E as <- <-.
    2:{ rewrite H2. cbn [bind compiles_as]. auto. }
    destruct H2 as [H2 H3]. rewrite H2. cbn [bind compiles_as].
    split; [assumption|]. split; [reflexivity|].
    apply stable_union. assumption.
  - (* Struct *)
    rewrite go_Struct. unfold bind_s.
    destruct (fields_loop_s (go_m R same_node) fields fields_empty s)
      as [[fields'|e] s2] eqn:Em;
      destruct (fields_loop_s_agrees fields H fields_empty s _ s2 Hs
                  (fun field (H : In field []) => match H with end) Em)
        as (H1 & _ & H2);
      change (map_fields (erase s) fields_empty) with fields_empty in H2.
    2:{ intros E. injection E as <- <-. rewrite H2. cbn [bind compiles_as]. auto. }
    destruct H2 as [H2 H3]. rewrite H2. cbn [bind].
    destruct (go_option_s R same_node indexSignature s2) as [[o'|e] s3] eqn:Eo;
      destruct (go_option_s_agrees indexSignature H0 s2 _ s3 H1 Eo) as (H4 & He & H5);
      cbn [pure_s]; intros E; injection E as <- <-.
    2:{ rewrite H5. cbn [bind compiles_as]. auto. }
    destruct H5 as [H5 H6]. rewrite H5. cbn [bind compiles_as].
    split; [assumption|]. split.
    + rewrite erase_struct. unfold map_fields. cbn [fst snd]. f_equal. f_equal.
      apply map_eq_In. intros field Hf. f_equal. symmetry.
      apply (stable_extends s2 s3 _ (H3 field Hf) He).
    + apply stable_struct. split; [|assumption].
      intros field Hf. apply (stable_extends s2 s3 _ (H3 field Hf) He).
  - (* Lazy *)
    apply new_lazy_agrees. assumption.
Qed.

Lemma consistent_set_get_cache (s : store) (c : nat) entry (g : Guard) :
  consistent R s ->
  nth_error (closures s) c = Some entry ->
  go (guardFor R) (force R (fst entry)) = Ok (erase s g) -> stable s g ->
  consistent R (set_get_cache c ((tt, g) :: get_cache c s) s) /\
  keeps s (set_get_cache c ((tt, g) :: get_cache c s) s).
Proof.
  intros Hs Ec Hg Hst.
  set (s' := set_get_cache c ((tt, g) :: get_cache c s) s).
  assert (Hn : forall c', nth_error (closures s') c' =
                          if Nat.eqb c' c then Some (fst entry, (tt, g) :: snd entry)
                          else nth_error (closures s) c').
  { intros c'. unfold s', set_get_cache, get_cache. cbn [closures]. rewrite Ec.
    apply (nth_error_set_nth _ c c' _ entry Ec). }
  assert (Hk : keeps s s').
  { intros c' entry' E'. rewrite Hn. destruct (Nat.eqb c' c) eqn:Heq; [|eauto].
    apply Nat.eqb_eq in Heq. subst c'. rewrite Ec in E'. injection E' as <-. eauto. }
  split; [|assumption]. destruct Hs as [Ha Hb]. split.
  - intros m g0 Hin. destruct (Ha m g0 Hin) as [H1 H2].
    destruct (stable_keeps s s' g0 H2 Hk) as [H3 H4]. rewrite H4. auto.
  - intros c' entry' k g0 E' Hin. rewrite Hn in E'.
    destruct (Nat.eqb c' c) eqn:Heq.
    + apply Nat.eqb_eq in Heq. subst c'. injection E' as <-. cbn [fst snd] in *.
      destruct Hin as [Hin|Hin].
      * injection Hin as _ <-.
        destruct (stable_keeps s s' g Hst Hk) as [H3 H4]. rewrite H4. auto.
      * destruct (Hb c entry k g0 Ec Hin) as [H1 H2].
        destruct (stable_keeps s s' g0 H2 Hk) as [H3 H4]. rewrite H4. auto.
    + destruct (Hb c' entry' k g0 E' Hin) as [H1 H2].
      destruct (stable_keeps s s' g0 H2 Hk) as [H3 H4]. rewrite H4. auto.
Qed.

(** A call of [get] answers what [go] answers for the node that the closure
    answers. *)
Lemma get_agrees (c : nat) (s s1 : store) r :
  consistent R s -> c < List.length (closures s) ->
  get R same_node c s = (r, s1) ->
  consistent R s1 /\ keeps s s1 /\
  compiles_as s1 r (go (guardFor R) (force R (resolve s c))).
Proof.
  intros Hs Hc H.
  assert (Hk : keeps s s1).
  { apply extends_keeps. generalize (get_extends R same_node c s). rewrite H. auto. }
  cut (consistent R s1 /\
       compiles_as s1 r (go (guardFor R) (force R (resolve s c)))).
  { intros [H1 H2]. auto. }
  revert H. unfold get, memoize, resolve.
  destruct (nth_error (closures s) c) as [entry|] eqn:Ec.
  2:{ apply nth_error_None in Ec. lia. }
  destruct (find (fun _ => true) (get_cache c s)) as [[k g]|] eqn:E.
  - intros H. injection H as <- <-. split; [assumption|]. cbn [snd compiles_as].
    apply find_some in E. destruct E as [Hin _].
    unfold get_cache in Hin. rewrite Ec in Hin.
    apply (proj2 Hs c entry k g Ec Hin).
  - unfold call_closure. rewrite Ec.
    set (s0 := {| go_cache := go_cache s; closures := closures s;
                  forced := c :: forced s |}).
    assert (Hs0 : consistent R s0).
    { apply (consistent_extends s s0 Hs); [|reflexivity|].
      - intros c' entry' E'. eauto.
      - intros c' entry' E' k g Hin. eauto. }
    destruct (go_m R same_node (force R (fst entry)) s0) as [[g|e] s2] eqn:Eg;
      intros H; injection H as <- <-;
      destruct (go_m_agrees _ s0 _ s2 Hs0 Eg) as [H1 H2]; [|auto].
    generalize (go_m_compiled R same_node (force R (fst entry)) s0).
    rewrite Eg. unfold compiled. cbn [snd closures s0]. intros [[new Hnew] _].
    assert (E2 : nth_error (closures s2) c = Some entry).
    { rewrite Hnew, nth_error_app1; assumption. }
    destruct H2 as [H2 H3].
    destruct (consistent_set_get_cache s2 c entry g H1 E2 H2 H3) as [H4 H5].
    split; [assumption|]. cbn [compiles_as].
    destruct (stable_keeps s2 _ g H3 H5) as [H6 H7]. rewrite H7. auto.
Qed.

Lemma stable_wrap (C : Guard -> Guard) :
  (forall rho g, rename rho (C g) = C (rename rho g)) ->
  (forall g g', C g = C g' -> g = g') ->
  forall s g, stable s (C g) -> stable s g.
Proof.
  intros HC Hinj s g H s' Hk. apply Hinj. unfold erase. rewrite <- !HC.
  apply (H s' Hk).
Qed.

Lemma runs_as_ret (s0 : store) (o : outcome) : runs_as R s0 (fun s => (o, s)) o.
Proof.
  intros s o' s1 Hs Hk H. injection H as <- <-.
  split; [assumption|]. split; [apply keeps_refl|reflexivity].
Qed.

Lemma runs_as_and_then (s0 : store) x y (x' y' : outcome) :
  runs_as R s0 x x' -> runs_as R s0 y y' ->
  runs_as R s0 (and_then_s x y) (and_then x' y').
Proof.
  intros Hx Hy s o s1 Hs Hk. unfold and_then_s.
  destruct (x s) as [o1 s2] eqn:Ex. destruct (Hx s o1 s2 Hs Hk Ex) as (H1 & H2 & ->).
  unfold and_then.
  destruct x' as [[[|]|e]|]; try (intros H; injection H as <- <-; auto).
  intros H. destruct (Hy s2 o s1 H1 (keeps_trans _ _ _ Hk H2) H) as (H3 & H4 & ->).
  split; [assumption|]. split; [|reflexivity]. apply (keeps_trans _ s2); assumption.
Qed.

Lemma runs_as_every {A : Type} (s0 : store) (f : A -> store -> outcome * store)
  (f' : A -> outcome) (l : list A) :
  (forall x, In x l -> runs_as R s0 (f x) (f' x)) ->
  runs_as R s0 (every_s f l) (every f' l).
Proof.
  induction l as [|x l IH]; intros H; cbn [every_s every]; [apply runs_as_ret|].
  intros s o s1 Hs Hk.
  destruct (f x s) as [o1 s2] eqn:Ex.
  destruct (H x (or_introl eq_refl) s o1 s2 Hs Hk Ex) as (H1 & H2 & ->).
  destruct (f' x) as [[[|]|e]|]; try (intros E; injection E as <- <-; auto).
  intros E.
  destruct (IH (fun y Hy => H y (or_intror Hy)) s2 o s1 H1
              (keeps_trans _ _ _ Hk H2) E) as (H3 & H4 & ->).
  split; [assumption|]. split; [|reflexivity]. apply (keeps_trans _ s2); assumption.
Qed.

Lemma runs_as_every_from {A : Type} (s0 : store)
  (f : A -> nat -> store -> outcome * store) (f' : A -> nat -> outcome) (l : list A) :
  (forall x i, In x l -> runs_as R s0 (f x i) (f' x i)) ->
  forall i, runs_as R s0 (every_from_s f i l) (every_from f' i l).
Proof.
  induction l as [|x l IH]; intros H i; cbn [every_from_s every_from];
    [apply runs_as_ret|].
  intros s o s1 Hs Hk.
  destruct (f x i s) as [o1 s2] eqn:Ex.
  destruct (H x i (or_introl eq_refl) s o1 s2 Hs Hk Ex) as (H1 & H2 & ->).
  destruct (f' x i) as [[[|]|e]|]; try (intros E; injection E as <- <-; auto).
  intros E.
  destruct (IH (fun y j Hy => H y j (or_intror Hy)) (S i) s2 o s1 H1
              (keeps_trans _ _ _ Hk H2) E) as (H3 & H4 & ->).
  split; [assumption|]. split; [|reflexivity]. apply (keeps_trans _ s2); assumption.
Qed.

Lemma runs_as_some {A : Type} (s0 : store) (f : A -> store -> outcome * store)
  (f' : A -> outcome) (l : list A) :
  (forall x, In x l -> runs_as R s0 (f x) (f' x)) ->
  runs_as R s0 (some_s f l) (some f' l).
Proof.
  induction l as [|x l IH]; intros H; cbn [some_s some]; [apply runs_as_ret|].
  intros s o s1 Hs Hk.
  destruct (f x s) as [o1 s2] eqn:Ex.
  destruct (H x (or_introl eq_refl) s o1 s2 Hs Hk Ex) as (H1 & H2 & ->).
  destruct (f' x) as [[[|]|e]|]; try (intros E; injection E as <- <-; auto).
  intros E.
  destruct (IH (fun y Hy => H y (or_intror Hy)) s2 o s1 H1
              (keeps_trans _ _ _ Hk H2) E) as (H3 & H4 & ->).
  split; [assumption|]. split; [|reflexivity]. apply (keeps_trans _ s2); assumption.
Qed.

Lemma every_map {A B : Type} (f : B -> outcome) (h : A -> B) (l : list A) :
  every f (map h l) = every (fun x => f (h x)) l.
Proof.
  induction l as [|x l IH]; cbn [map every]; [reflexivity|].
  destruct (f (h x)) as [[[|]|e]|]; auto.
Qed.

Lemma every_from_map {A B : Type} (f : B -> nat -> outcome) (h : A -> B)
  (l : list A) (i : nat) :
  every_from f i (map h l) = every_from (fun x => f (h x)) i l.
Proof.
  revert i. induction l as [|x l IH]; intros i; cbn [map every_from]; [reflexivity|].
  destruct (f (h x) i) as [[[|]|e]|]; auto.
Qed.

Lemma some_map {A B : Type} (f : B -> outcome) (h : A -> B) (l : list A) :
  some f (map h l) = some (fun x => f (h x)) l.
Proof.
  induction l as [|x l IH]; cbn [map some]; [reflexivity|].
  destruct (f (h x)) as [[[|]|e]|]; auto.
Qed.

Lemma assoc_map_snd {A B : Type} (f : A -> B) (l : list (string * A)) key :
  assoc key (map (fun field => (fst field, f (snd field))) l) =
  option_map f (assoc key l).
Proof.
  induction l as [|[k v] l IH]; cbn [map assoc fst snd]; [reflexivity|].
  destruct (String.eqb key k); [reflexivity|assumption].
Qed.

(** From a store that is consistent, the predicate of a guard whose
    closures are in the store has the outcome that [is_] gives for the guard
    it stands for. *)
Lemma is_m_agrees (fuel : nat) :
  forall guard a s0,
    stable s0 guard ->
    runs_as R s0 (is_m R same_node fuel guard a) (is_ R fuel (erase s0 guard) a).
Proof.
  induction fuel as [|fuel IH]; intros guard a s0 Hst; [apply runs_as_ret|].
  destruct guard; cbn [is_m]; unfold erase; cbn [rename]; fold (erase s0);
    cbn [is_]; try apply runs_as_ret.
  - apply runs_as_and_then; [|apply runs_as_ret]. apply IH.
    revert Hst. apply (stable_wrap (minLength n)); [reflexivity|congruence].
  - apply runs_as_and_then; [|apply runs_as_ret]. apply IH.
    revert Hst. apply (stable_wrap (maxLength n)); [reflexivity|congruence].
  - apply runs_as_and_then; [|apply runs_as_ret]. apply IH.
    revert Hst. apply (stable_wrap (minimum n)); [reflexivity|congruence].
  - apply runs_as_and_then; [|apply runs_as_ret]. apply IH.
    revert Hst. apply (stable_wrap (maximum n)); [reflexivity|congruence].
  - apply stable_tuple in Hst. destruct Hst as [Hc Hr].
    destruct (isArray a); [|apply runs_as_ret].
    apply runs_as_and_then.
    + rewrite every_from_map. apply runs_as_every_from.
      intros g i Hg. apply IH. apply Hc, Hg.
    + rewrite length_map. destruct restElement as [rest|]; [|apply runs_as_ret].
      cbn [option_map]. apply runs_as_every. intros x _. apply IH.
      apply Hr. reflexivity.
  - rewrite some_map. apply runs_as_some. intros g Hg. apply IH.
    apply (proj1 (stable_union _ _) Hst g Hg).
  - apply stable_struct in Hst. destruct Hst as [Hf Hi].
    destruct (negb (isUnknownIndexSignature a)); [apply runs_as_ret|].
    apply runs_as_and_then.
    + rewrite keys_map_snd. apply runs_as_every. intros key _.
      rewrite assoc_map_snd.
      destruct (assoc key fields) as [g|] eqn:Eg; cbn [option_map];
        [|apply runs_as_ret].
      destruct (get_property a key); [|apply runs_as_ret].
      apply IH. apply assoc_In in Eg. apply (Hf _ Eg).
    + destruct oIndexSignature as [g|]; cbn [option_map]; [|apply runs_as_ret].
      apply runs_as_every. intros key _.
      unfold fields_has. rewrite keys_map_snd.
      destruct (mem key (keys fields) || fields_proto && mem key ["meta"; "is"]
                || mem key object_prototype_keys); [apply runs_as_ret|].
      destruct (get_property a key); [|apply runs_as_ret].
      apply IH. apply Hi. reflexivity.
  - apply stable_lazy in Hst. intros s o s1 Hs Hk.
    assert (Hf : f < List.length (closures s) /\ resolve s f = resolve s0 f).
    { unfold resolve. destruct (nth_error (closures s0) f) as [entry|] eqn:E.
      - destruct (Hk f entry E) as (entry' & E' & F). rewrite E'. split; [|assumption].
        apply nth_error_Some. rewrite E'. discriminate.
      - apply nth_error_None in E. lia. }
    destruct Hf as [Hf Hr].
    destruct (get R same_node f s) as [r s2] eqn:Eg.
    destruct (get_agrees f s s2 r Hs Hf Eg) as (H1 & H2 & H3).
    rewrite Hr in H3.
    destruct r as [g|e]; cbn [compiles_as] in H3.
    + destruct H3 as [H3 H4]. rewrite H3. intros H.
      destruct (IH g a s2 H4 s2 o s1 H1 (keeps_refl _) H) as (H5 & H6 & ->).
      split; [assumption|]. split; [|reflexivity].
      apply (keeps_trans _ s2); assumption.
    + rewrite H3. intros H. injection H as <- <-. auto.
Qed.

End Refines.

(** ** Lazy *)

(** Case analysis on [H : nodes m], for the nodes of an example schema. *)
Ltac node_cases H :=
  simpl in H; repeat (destruct H as [H|H]); try contradiction; try discriminate H.

Lemma A_well_formed : well_formed (bare_runtime A_closures) A_nodes A_rank 1.
Proof.
  constructor.
  - intros m H. node_cases H; subst m; simpl; lia.
  - intros symbol metas annotations H. node_cases H.
  - intros components restElement H. node_cases H.
    injection H as <- <-. split.
    + intros m [].
    + intros m E. injection E as <-. left. reflexivity.
  - intros members H. node_cases H.
  - intros fields indexSignature H. node_cases H.
    injection H as <- <-. split.
    + intros key m [E|[E|[]]]; injection E as _ <-.
      * right. right. left. reflexivity.
      * right. right. right. left. reflexivity.
    + intros m E. discriminate E.
  - intros symbol f H. node_cases H.
    injection H as <- <-. split.
    + right. left. reflexivity.
    + simpl. lia.
Qed.

Lemma same_lazy_eq (m m' : Meta.t) : same_lazy m m' = true -> m = m'.
Proof.
  destruct m as [| | | | | | | |[i d] f], m' as [| | | | | | | |[i' d'] f'];
    try discriminate.
  unfold same_lazy, same_symbol. cbn [symbol_id description].
  rewrite !andb_true_iff, !Nat.eqb_eq. intros [[-> Hd] ->].
  destruct d as [d|], d' as [d'|]; try discriminate Hd; [|reflexivity].
  apply String.eqb_eq in Hd. subst d'. reflexivity.
Qed.

(** The first call of [get]: the closure is called, and [go] compiles the
    node it answers. *)
Lemma get_first (R : Runtime) same_node (c : nat) (f : thunk) (s : store) :
  nth_error (closures s) c = Some (f, []) ->
  fst (get R same_node c s) =
  fst (go_m R same_node (force R f)
         {| go_cache := go_cache s; closures := closures s;
            forced := c :: forced s |}) /\
  forced (snd (get R same_node c s)) = c :: forced s.
Proof.
  intros E. unfold get, memoize, get_cache, call_closure. rewrite E. cbn [snd find fst].
  generalize (go_m_compiled R same_node (force R f)
                {| go_cache := go_cache s; closures := closures s;
                   forced := c :: forced s |}).
  destruct (go_m R same_node (force R f) _) as [[g|e] s1]; cbn [fst snd];
    intros [_ H]; auto.
Qed.

Lemma later_extends (R : Runtime) same_node (s s' : store) :
  later R same_node s s' -> extends s s'.
Proof.
  induction 1 as [s|s s' m _ IH|s s' fuel guard a _ IH]; [apply extends_refl| |].
  - apply (extends_trans _ (snd (go_m R same_node m s))); [|assumption].
    apply compiled_extends, go_m_compiled.
  - apply (extends_trans _ (snd (is_m R same_node fuel guard a s))); [|assumption].
    apply is_m_extends.
Qed.

Lemma later_cached (R : Runtime) same_node (s s' : store) :
  later R same_node s s' -> cached same_node s s'.
Proof.
  induction 1 as [s|s s' m _ IH|s s' fuel guard a _ IH]; [apply cached_refl| |].
  - apply (cached_trans _ _ (snd (go_m R same_node m s))); [|assumption].
    apply go_m_cached.
  - apply (cached_trans _ _ (snd (is_m R same_node fuel guard a s))); [|assumption].
    apply is_m_cached.
Qed.

(** Once [get] has answered, it answers the same after any calls, and its
    closure is not called again. *)
Lemma get_after (R : Runtime) same_node (c : nat) (s s' : store) (guard : Guard) :
  get R same_node c s = (Ok guard, s') ->
  forall s'', later R same_node s' s'' ->
    get R same_node c s'' = (Ok guard, s'') /\ calls s'' c = calls s' c.
Proof.
  intros H s'' Hl.
  destruct (get_filled R same_node c s s' guard H) as [cache Hc].
  assert (Hf : filled s' c) by (unfold filled; rewrite Hc; discriminate).
  generalize (later_extends R same_node s' s'' Hl). intros He.
  destruct (extends_filled s' s'' c He Hf) as [_ Hc'].
  split; [|apply (proj2 He c Hf)].
  unfold get, memoize. rewrite Hc', Hc. reflexivity.
Qed.

(** Once [go] has answered for a [Lazy] node, it answers the same guard
    after any calls. *)
Lemma go_m_after (R : Runtime) same_node (m : Meta.t) (s s' : store) (guard : Guard) :
  (forall m1 m2, same_node m1 m2 = true -> m1 = m2) ->
  lazy_node m = true -> same_node m m = true ->
  one_guard same_node s ->
  go_m R same_node m s = (Ok guard, s') ->
  forall s'', later R same_node s' s'' ->
    go_m R same_node m s'' = (Ok guard, s'') /\ one_guard same_node s''.
Proof.
  intros Hsound Hlazy Hsame Hone H s'' Hl.
  generalize (go_m_cached R same_node m s). rewrite H. cbn [snd]. intros [_ H1].
  destruct (later_cached R same_node s' s'' Hl) as [H2 H3].
  split; [|auto].
  apply go_m_hit; auto. apply H2. apply (go_m_cache R same_node m s); assumption.
Qed.



(** ** Failures of the predicate *)


(** A [Lazy] node whose closure answers an [Apply] node without
    annotations: the compiler returns a guard, and the predicate of that
    guard throws. *)
Lemma lazy_guard_throws :
  go (guardFor (bare_runtime unannotated_closures)) (Meta.Lazy A_symbol 0) =
    Ok (lazy A_symbol 0) /\
  is_ (bare_runtime unannotated_closures) 1 (lazy A_symbol 0) VNull =
    Some (Throw (Error (missing_message example_symbol))) /\
  ~ returns (bare_runtime unannotated_closures) (lazy A_symbol 0) VNull.
Proof.
  split; [reflexivity|]. split; [reflexivity|].
  intros H.
  apply (returns_never_throws _ _ _ H 1 (Error (missing_message example_symbol))).
  reflexivity.
Qed.

(** A [Lazy] node whose closure answers the node itself: the predicate of
    its guard calls itself and returns at no depth.  Hence the rank of a
    well-formed schema. *)
Lemma lazy_self_reference_never_returns (fuel : nat) (a : value) :
  is_ (bare_runtime (fun _ => Meta.Lazy A_symbol 0)) fuel (lazy A_symbol 0) a = None.
Proof.
  induction fuel as [|fuel IH]; [reflexivity|]. cbn [is_]. exact IH.
Qed.

(** The struct predicate reads the property of the first key of [fields]
    before anything else of the input: when that throws, so does the
    predicate. *)
Lemma struct_first_key_throws (R : Runtime) fields fields_proto oIndexSignature
  key rest a e :
  keys fields = key :: rest ->
  isUnknownIndexSignature a = true ->
  get_property a key = Throw e ->
  forall fuel,
    is_ R (S fuel) (struct_guard fields fields_proto oIndexSignature) a =
    Some (Throw e).
Proof.
  intros Hk Ha Hget fuel. cbn [is_]. rewrite Ha, Hk. cbn [negb every].
  destruct fields as [|[k g] fields]; [discriminate Hk|].
  injection Hk as -> _. cbn [assoc]. rewrite String.eqb_refl, Hget. reflexivity.
Qed.

Lemma A_chain_data (n : nat) : data (A_chain n) = true.
Proof.
  induction n as [|n IH]; [reflexivity|].
  cbn [A_chain A_value data_object map fst snd data forallb]. rewrite IH. reflexivity.
Qed.

Lemma A_chain_depth (n : nat) : depth (A_chain n) = 3 * n + 3.
Proof.
  induction n as [|n IH]; [reflexivity|].
  cbn [A_chain A_value data_object map fst snd depth list_max fold_right].
  rewrite IH. lia.
Qed.

(** The predicate of the schema [A] makes three nested calls for a level of
    the input: on a value nested [n] times it does not return within the
    call depth [3 * n]. *)
Lemma A_chain_exceeds (n : nat) :
  forall fuel, fuel <= 3 * n ->
    is_ (bare_runtime A_closures) fuel (lazy A_symbol 0) (A_chain n) = None.
Proof.
  induction n as [|n IH]; intros fuel H.
  - destruct fuel; [reflexivity|lia].
  - destruct fuel as [|[|[|fuel]]]; try reflexivity.
    assert (E : is_ (bare_runtime A_closures) fuel (lazy A_symbol 0) (A_chain n) =
                None) by (apply IH; lia).
    cbn. cbn in E. rewrite E. reflexivity.
Qed.

Lemma B_well_formed : well_formed (arrayOf_runtime B_closures) B_nodes B_rank 2.
Proof.
  constructor.
  - intros m H. node_cases H; subst m; simpl; lia.
  - intros symbol metas annotations H. node_cases H.
    injection H as <- <- <-. split.
    + intros m [<-|[]]. split; [left; reflexivity|simpl; lia].
    + intros guards Hg.
      inversion Hg as [|m g ms gs Hm Hgs]; subst. inversion Hgs; subst.
      cbn [go] in Hm. injection Hm as <-.
      eexists. split; [reflexivity|]. intros a Hd Hret.
      change (B_rank (Meta.Apply example_symbol [B_schema] [arrayOf_annotation]))
        with 2.
      apply (returns_at_mono _ (S (call_depth 2 2 (depth a) - 1)));
        [unfold call_depth; lia|].
      apply tuple_returns_at.
      * intros _ [|i] guard Hi; discriminate Hi.
      * intros rest x E Hx. injection E as <-. cbn [List.length skipn] in Hx.
        destruct a; try contradiction. cbn [elements] in Hx.
        assert (Hlt : depth x < depth (VArr elems)).
        { apply depth_element in Hx. simpl. lia. }
        apply (returns_at_mono _ (call_depth 2 (B_rank B_schema) (depth x))).
        { change (B_rank B_schema) with 1.
          generalize (call_depth_deeper 2 2 1 _ _ Hlt). lia. }
        apply (Hret B_schema); [left; reflexivity|reflexivity| |lia].
        apply (data_element elems); assumption.
  - intros components restElement H. node_cases H.
  - intros members H. node_cases H.
  - intros fields indexSignature H. node_cases H.
    injection H as <- <-. split.
    + intros key m [E|[E|[]]]; injection E as _ <-.
      * right. right. left. reflexivity.
      * right. right. right. left. reflexivity.
    + intros m E. discriminate E.
  - intros symbol f H. node_cases H.
    injection H as <- <-. split.
    + right. left. reflexivity.
    + simpl. lia.
Qed.



(** * Further properties *)

(** ** The bound combinators *)

Section MoreBoundFacts.
Variable R : Runtime.

Lemma maxLength_accepts n self a :
  accepts R (maxLength n self) a <->
  accepts R self a /\
  exists len x, length_of a = Ok len /\ to_number R len = Ok x /\
                num_le x n = true.
Proof.
  split.
  - intros [[|fuel] H]; [discriminate|]. cbn [is_] in H.
    apply and_then_true in H. destruct H as [H1 H2]. split; [exists fuel; exact H1|].
    unfold le, bind, ret in H2.
    destruct (length_of a) as [len|e] eqn:Hl; [|discriminate].
    destruct (to_number R len) as [x|e] eqn:Hx; [|discriminate].
    exists len, x. repeat split; congruence.
  - intros [[fuel H1] (len & x & Hl & Hx & Hle)].
    exists (S fuel). cbn [is_]. apply and_then_true. split; [assumption|].
    unfold le, bind, ret. rewrite Hl, Hx, Hle. reflexivity.
Qed.

Lemma minimum_accepts n self a :
  accepts R (minimum n self) a <->
  accepts R self a /\ exists x, to_number R a = Ok x /\ num_ge x n = true.
Proof.
  split.
  - intros [[|fuel] H]; [discriminate|]. cbn [is_] in H.
    apply and_then_true in H. destruct H as [H1 H2]. split; [exists fuel; exact H1|].
    unfold ge, bind, ret in H2.
    destruct (to_number R a) as [x|e] eqn:Hx; [|discriminate].
    exists x. split; congruence.
  - intros [[fuel H1] (x & Hx & Hge)].
    exists (S fuel). cbn [is_]. apply and_then_true. split; [assumption|].
    unfold ge, bind, ret. rewrite Hx, Hge. reflexivity.
Qed.

Lemma maximum_accepts n self a :
  accepts R (maximum n self) a <->
  accepts R self a /\ exists x, to_number R a = Ok x /\ num_le x n = true.
Proof.
  split.
  - intros [[|fuel] H]; [discriminate|]. cbn [is_] in H.
    apply and_then_true in H. destruct H as [H1 H2]. split; [exists fuel; exact H1|].
    unfold le, bind, ret in H2.
    destruct (to_number R a) as [x|e] eqn:Hx; [|discriminate].
    exists x. split; congruence.
  - intros [[fuel H1] (x & Hx & Hle)].
    exists (S fuel). cbn [is_]. apply and_then_true. split; [assumption|].
    unfold le, bind, ret. rewrite Hx, Hle. reflexivity.
Qed.

(** Two checks made after the same guard give the same outcome in either
    order: both return, or both throw the same exception. *)
Lemma and_then_swap (x : outcome) (c d : result bool) :
  (forall e, c = Throw e -> d = Throw e) ->
  (forall e, d = Throw e -> c = Throw e) ->
  and_then (and_then x (Some c)) (Some d) = and_then (and_then x (Some d)) (Some c).
Proof.
  intros Hc Hd. destruct x as [[[|]|e]|]; try reflexivity. cbn [and_then].
  destruct c as [bc|ec], d as [bd|ed].
  - destruct bc, bd; reflexivity.
  - generalize (Hd ed eq_refl). discriminate.
  - generalize (Hc ec eq_refl). discriminate.
  - generalize (Hc ec eq_refl). intros E. injection E as ->. reflexivity.
Qed.
End MoreBoundFacts.

(** X1: [maxLength(n)(g)] accepts only values [g] accepts, and for
    [n' <= n] the guard [maxLength(n')(g)] accepts only values
    [maxLength(n)(g)] accepts. *)
Theorem maxLength_monotone (R : Runtime) (g : Guard) (n : js_number) :
  (forall a, accepts R (maxLength n g) a -> accepts R g a) /\
  (forall n', num_le n' n = true ->
     forall a, accepts R (maxLength n' g) a -> accepts R (maxLength n g) a).
Proof.
  split.
  - intros a H. apply maxLength_accepts in H. apply H.
  - intros n' Hn a H. apply maxLength_accepts in H.
    destruct H as [Hg (len & x & Hl & Hx & Hle)].
    apply maxLength_accepts. split; [assumption|].
    exists len, x. repeat split; try assumption.
    apply (num_le_trans x n' n); assumption.
Qed.

Lemma maxLength_monotone_witness :
  accepts (bare_runtime no_closures)
    (maxLength (num_of_Z 3) string_guard) (VStr "ab").
Proof.
  apply (proj2 (maxLength_monotone (bare_runtime no_closures) string_guard
                  (num_of_Z 3)) (num_of_Z 2) eq_refl (VStr "ab")).
  exists 2. reflexivity.
Defined.

(** X2: [minimum(n)(g)] and [maximum(n)(g)] accept only values [g]
    accepts; raising the bound of [minimum], or lowering the bound of
    [maximum], never adds an accepted value. *)
Theorem minimum_maximum_monotone (R : Runtime) (g : Guard) (n : js_number) :
  (forall a, accepts R (minimum n g) a -> accepts R g a) /\
  (forall a, accepts R (maximum n g) a -> accepts R g a) /\
  (forall n', num_ge n' n = true ->
     forall a, accepts R (minimum n' g) a -> accepts R (minimum n g) a) /\
  (forall n', num_le n' n = true ->
     forall a, accepts R (maximum n' g) a -> accepts R (maximum n g) a).
Proof.
  split; [|split; [|split]].
  - intros a H. apply minimum_accepts in H. apply H.
  - intros a H. apply maximum_accepts in H. apply H.
  - intros n' Hn a H. apply minimum_accepts in H.
    destruct H as [Hg (x & Hx & Hge)].
    apply minimum_accepts. split; [assumption|]. exists x. split; [assumption|].
    unfold num_ge in *. apply (num_le_trans n n' x); assumption.
  - intros n' Hn a H. apply maximum_accepts in H.
    destruct H as [Hg (x & Hx & Hle)].
    apply maximum_accepts. split; [assumption|]. exists x. split; [assumption|].
    apply (num_le_trans x n' n); assumption.
Qed.

Lemma minimum_maximum_monotone_witness :
  accepts (bare_runtime no_closures)
    (minimum (num_of_Z 1) number_guard) (VNum (num_of_Z 5)) /\
  accepts (bare_runtime no_closures)
    (maximum (num_of_Z 9) number_guard) (VNum (num_of_Z 5)).
Proof.
  destruct (minimum_maximum_monotone (bare_runtime no_closures) number_guard
              (num_of_Z 1)) as (_ & _ & Hmin & _).
  destruct (minimum_maximum_monotone (bare_runtime no_closures) number_guard
              (num_of_Z 9)) as (_ & _ & _ & Hmax).
  split.
  - apply (Hmin (num_of_Z 2) eq_refl). exists 2. reflexivity.
  - apply (Hmax (num_of_Z 7) eq_refl). exists 2. reflexivity.
Defined.

(** X3: the order in which a lower and an upper bound are applied to a
    guard does not change the outcome of the predicate, on any value:
    [minLength(n)(maxLength(m)(g))] and [maxLength(m)(minLength(n)(g))]
    return the same boolean or throw the same exception, and so do
    [minimum(n)(maximum(m)(g))] and [maximum(m)(minimum(n)(g))]. *)
Theorem bounds_commute (R : Runtime) (g : Guard) (n m : js_number) (a : value)
  (fuel : nat) :
  is_ R (S (S fuel)) (minLength n (maxLength m g)) a =
  is_ R (S (S fuel)) (maxLength m (minLength n g)) a /\
  is_ R (S (S fuel)) (minimum n (maximum m g)) a =
  is_ R (S (S fuel)) (maximum m (minimum n g)) a.
Proof.
  split.
  - cbn [is_]. apply and_then_swap.
    + unfold le, ge, bind. intros e.
      destruct (length_of a) as [len|e']; [|auto].
      destruct (to_number R len); [discriminate|auto].
    + unfold le, ge, bind. intros e.
      destruct (length_of a) as [len|e']; [|auto].
      destruct (to_number R len); [discriminate|auto].
  - cbn [is_]. apply and_then_swap.
    + unfold le, ge, bind. intros e. destruct (to_number R a); [discriminate|auto].
    + unfold le, ge, bind. intros e. destruct (to_number R a); [discriminate|auto].
Qed.

(** X4: bounds add up, they do not replace one another: a guard to which
    [minLength] was applied twice accepts a value exactly when the guard
    with each of the two bounds accepts it; when [n' >= n] that is the
    guard with the bound [n'] alone, whichever was applied last. *)
Theorem minLength_twice (R : Runtime) (g : Guard) (n n' : js_number) :
  (forall a,
     accepts R (minLength n (minLength n' g)) a <->
     accepts R (minLength n g) a /\ accepts R (minLength n' g) a) /\
  (num_ge n' n = true ->
   forall a,
     (accepts R (minLength n (minLength n' g)) a <-> accepts R (minLength n' g) a) /\
     (accepts R (minLength n' (minLength n g)) a <-> accepts R (minLength n' g) a)).
Proof.
  assert (Hboth : forall p q a,
             accepts R (minLength p (minLength q g)) a <->
             accepts R (minLength p g) a /\ accepts R (minLength q g) a).
  { intros p q a. rewrite (minLength_accepts R p (minLength q g)).
    rewrite (minLength_accepts R p g), (minLength_accepts R q g). tauto. }
  split; [apply Hboth|]. intros Hn a.
  assert (Hweak : accepts R (minLength n' g) a -> accepts R (minLength n g) a).
  { intros H. apply minLength_accepts in H.
    destruct H as [Hg (len & x & Hl & Hx & Hge)].
    apply minLength_accepts. split; [assumption|]. exists len, x.
    repeat split; try assumption.
    unfold num_ge in *. apply (num_le_trans n n' x); assumption. }
  split; rewrite Hboth; tauto.
Qed.

Lemma minLength_twice_witness :
  ~ accepts (bare_runtime no_closures)
      (minLength (num_of_Z 1) (minLength (num_of_Z 3) string_guard)) (VStr "ab").
Proof.
  intros H.
  apply (proj2 (minLength_twice (bare_runtime no_closures) string_guard
                  (num_of_Z 1) (num_of_Z 3)) eq_refl (VStr "ab")) in H.
  destruct H as [[|[|[|fuel]]] H]; discriminate H.
Defined.

(** ** The literal guard *)

Lemma of_guard_accepts (R : Runtime) (literal u : value) :
  accepts R (of_guard literal) u <-> strict_equals R u literal = true.
Proof.
  split.
  - intros [[|fuel] H]; [discriminate|]. cbn [is_] in H. unfold ret in H. congruence.
  - intros H. exists 1. cbn [is_]. rewrite H. reflexivity.
Qed.

(** X5: the guard compiled from an [Of] node accepts by [===]: for a
    literal that is [undefined], [null], a boolean or a string, exactly the
    literal itself (so [null] does not pass for [undefined]); for a number,
    exactly the numbers equal to it; and for [NaN] nothing, not even
    [NaN]. *)
Theorem of_guard_strict_equality (R : Runtime) (literal : value) :
  go (guardFor R) (Meta.Of literal) = Ok (of_guard literal) /\
  (primitive_literal literal = true ->
   forall u, accepts R (of_guard literal) u <-> u = literal) /\
  (forall x, literal = VNum x ->
   forall u, accepts R (of_guard literal) u <->
             exists y, u = VNum y /\ num_eq y x = true) /\
  (literal = VNum NaN ->
   forall u, rejects R (of_guard literal) u /\ ~ accepts R (of_guard literal) u).
Proof.
  split; [reflexivity|]. split; [|split].
  - intros Hp u. rewrite of_guard_accepts.
    destruct literal; try discriminate Hp; destruct u; cbn [strict_equals];
      split; intros H; try discriminate H; try reflexivity;
      try (apply Bool.eqb_prop in H; congruence);
      try (injection H as ->; apply Bool.eqb_reflx);
      try (apply String.eqb_eq in H; congruence);
      try (injection H as ->; apply String.eqb_refl).
  - intros x -> u. rewrite of_guard_accepts.
    destruct u; cbn [strict_equals]; split; intros H; try discriminate H;
      try (destruct H as (y & E & _); discriminate E).
    + eauto.
    + destruct H as (y & E & Hy). injection E as ->. assumption.
  - intros -> u.
    assert (Hf : strict_equals R u (VNum NaN) = false).
    { destruct u; try reflexivity. cbn [strict_equals]. destruct n; reflexivity. }
    split.
    + exists 1. cbn [is_]. rewrite Hf. reflexivity.
    + rewrite of_guard_accepts. rewrite Hf. discriminate.
Qed.

Lemma of_guard_strict_equality_witness :
  ~ accepts (bare_runtime no_closures) (of_guard VUndefined) VNull /\
  accepts (bare_runtime no_closures) (of_guard (VNum (num_of_Z 1)))
    (VNum (Finite (2 # 2))) /\
  ~ accepts (bare_runtime no_closures) (of_guard (VNum NaN)) (VNum NaN).
Proof.
  destruct (of_guard_strict_equality (bare_runtime no_closures) VUndefined)
    as (_ & Hprim & _).
  destruct (of_guard_strict_equality (bare_runtime no_closures) (VNum (num_of_Z 1)))
    as (_ & _ & Hnum & _).
  destruct (of_guard_strict_equality (bare_runtime no_closures) (VNum NaN))
    as (_ & _ & _ & Hnan).
  split; [|split].
  - intros H. apply (Hprim eq_refl) in H. discriminate H.
  - apply (Hnum (num_of_Z 1) eq_refl). eexists. split; reflexivity.
  - apply (Hnan eq_refl).
Defined.

(** ** A tuple without rest element *)

Section MoreLoopFacts.
Context {A : Type}.

Lemma every_ext (f f' : A -> outcome) (l : list A) :
  (forall x, In x l -> f x = f' x) -> every f l = every f' l.
Proof.
  induction l as [|x l IH]; simpl; intros H; [reflexivity|].
  rewrite <- (H x (or_introl eq_refl)).
  destruct (f x) as [[[|]|]|]; try reflexivity.
  apply IH. intros y Hy. apply H. right; assumption.
Qed.

Lemma every_from_ext (f f' : A -> nat -> outcome) (l : list A) (i : nat) :
  (forall j x, nth_error l j = Some x -> f x (i + j) = f' x (i + j)) ->
  every_from f i l = every_from f' i l.
Proof.
  revert i. induction l as [|x l IH]; simpl; intros i H; [reflexivity|].
  generalize (H 0 x eq_refl). rewrite Nat.add_0_r. intros <-.
  destruct (f x i) as [[[|]|]|]; try reflexivity.
  apply IH. intros j y Hj. replace (S i + j) with (i + S j) by lia.
  apply (H (S j)). assumption.
Qed.
End MoreLoopFacts.

Lemma go_option_None provider (o : option Guard) :
  go_option provider None = Ok o -> o = None.
Proof. cbn. congruence. Qed.

(** X6: the predicate compiled from a Tuple node without rest element
    reads the elements at the indices of the components and nothing else:
    its outcome on an array is its outcome on the first
    [components.length] elements, so elements added after the components
    change nothing (there is no check of the length). *)
Theorem tuple_without_rest_reads_prefix (R : Runtime) components guard :
  go (guardFor R) (Meta.Tuple components None) = Ok guard ->
  forall fuel elems,
    is_ R fuel guard (VArr elems) =
    is_ R fuel guard (VArr (firstn (List.length components) elems)) /\
    (List.length components <= List.length elems ->
     forall more, is_ R fuel guard (VArr (elems ++ more)) =
                  is_ R fuel guard (VArr elems)).
Proof.
  intros H. apply go_Tuple_inv in H.
  destruct H as (components' & restElement' & -> & Hc & Ho).
  apply go_option_None in Ho. subst restElement'.
  apply mapM_Forall2 in Hc. apply Forall2_length in Hc.
  assert (Hprefix : forall fuel elems,
             is_ R fuel (tuple_guard components' None) (VArr elems) =
             is_ R fuel (tuple_guard components' None)
               (VArr (firstn (List.length components) elems))).
  { intros [|fuel] elems; [reflexivity|]. cbn [is_ isArray elements].
    f_equal. apply every_from_ext. intros j g Hj. cbn [Nat.add].
    unfold arr_get. rewrite nth_firstn.
    assert (Hlt : j < List.length components).
    { rewrite Hc. apply nth_error_Some. rewrite Hj. discriminate. }
    apply Nat.ltb_lt in Hlt. rewrite Hlt. reflexivity. }
  intros fuel elems. split; [apply Hprefix|].
  intros Hlen more. rewrite (Hprefix fuel (elems ++ more)), (Hprefix fuel elems).
  rewrite firstn_app.
  replace (List.length components - List.length elems) with 0 by lia.
  cbn [firstn]. rewrite app_nil_r. reflexivity.
Qed.

Lemma tuple_without_rest_reads_prefix_witness :
  is_ (bare_runtime no_closures) 2 (tuple_guard [string_guard] None)
    (VArr [VStr "a"; VNum (num_of_Z 1); VNull]) = ret true.
Proof.
  change (VArr [VStr "a"; VNum (num_of_Z 1); VNull])
    with (VArr ([VStr "a"] ++ [VNum (num_of_Z 1); VNull])).
  rewrite (proj2 (tuple_without_rest_reads_prefix (bare_runtime no_closures)
                    [Meta.String None None] (tuple_guard [string_guard] None)
                    eq_refl 2 [VStr "a"])
             (le_n 1) [VNum (num_of_Z 1); VNull]).
  reflexivity.
Defined.

(** ** [isGuardAnnotation] *)

Lemma mem_keys_assoc {A : Type} (key : string) (l : list (string * A)) :
  mem key (keys l) = match assoc key l with Some _ => true | None => false end.
Proof.
  induction l as [|[k v] l IH]; simpl; [reflexivity|].
  destruct (String.eqb key k); [reflexivity|]. apply IH.
Qed.

(** X7: [isGuardAnnotation(u)] is [true] exactly when [u] is an object
    with an own property [_tag] that reads as the string
    ["GuardAnnotation"]; it is [false] without throwing on [null], arrays,
    functions and primitives, and it throws only what reading [_tag]
    throws. *)
Theorem isGuardAnnotation_own_tag (u : value) :
  (isGuardAnnotation u = Ok true <->
   exists props, u = VObj props /\
                 assoc "_tag" props = Some (Ok (VStr "GuardAnnotation"))) /\
  (forall e, isGuardAnnotation u = Throw e <->
             exists props, u = VObj props /\ assoc "_tag" props = Some (Throw e)) /\
  ((forall props, u <> VObj props) -> isGuardAnnotation u = Ok false).
Proof.
  assert (Hobj : forall props,
             isGuardAnnotation (VObj props) =
             match assoc "_tag" props with
             | Some r => tag <- r ;; Ok (equals_string tag "GuardAnnotation")
             | None => Ok false
             end).
  { intros props. unfold isGuardAnnotation, obj_has, obj_get. cbn [not_null typeof].
    rewrite mem_keys_assoc. destruct (assoc "_tag" props); reflexivity. }
  split; [|split].
  - split.
    + destruct u; try discriminate. rewrite Hobj. intros H. exists props.
      split; [reflexivity|].
      destruct (assoc "_tag" props) as [[tag|e]|]; try discriminate H.
      cbn [bind] in H. destruct tag; try discriminate H. cbn in H.
      injection H as H. apply String.eqb_eq in H. congruence.
    + intros (props & -> & H). rewrite Hobj, H. reflexivity.
  - intros e. split.
    + destruct u; try discriminate. rewrite Hobj. intros H. exists props.
      split; [reflexivity|].
      destruct (assoc "_tag" props) as [[tag|e']|]; try discriminate H.
      cbn [bind] in H. congruence.
    + intros (props & -> & H). rewrite Hobj, H. reflexivity.
  - intros H. destruct u; try reflexivity. elim (H props). reflexivity.
Qed.

Lemma isGuardAnnotation_own_tag_witness :
  isGuardAnnotation (VArr [VStr "GuardAnnotation"]) = Ok false.
Proof.
  apply (proj2 (proj2 (isGuardAnnotation_own_tag (VArr [VStr "GuardAnnotation"])))).
  intros props H. discriminate H.
Defined.

(** ** The object [fields] of a compiled struct *)

Lemma mem_In (key : string) (l : list string) : mem key l = true <-> In key l.
Proof.
  unfold mem. rewrite existsb_exists. split.
  - intros (x & Hx & E). apply String.eqb_eq in E. congruence.
  - intros H. exists key. split; [assumption|apply String.eqb_refl].
Qed.

Section AssignFacts.
Context {A : Type}.

Lemma assoc_obj_replace_eq (props : list (string * A)) key k (v : A) :
  mem k (keys props) = true ->
  assoc key (obj_replace props k v) =
  if String.eqb key k then Some v else assoc key props.
Proof.
  induction props as [|[k0 w] props IH]; [discriminate|].
  intros Hmem. cbn [obj_replace assoc].
  destruct (String.eqb_spec k k0) as [->|Hk].
  - cbn [assoc]. destruct (String.eqb key k0); reflexivity.
  - cbn [assoc]. destruct (String.eqb_spec key k0) as [->|Hkey].
    + destruct (String.eqb_spec k0 k) as [E|_]; [congruence|reflexivity].
    + apply IH. unfold mem, keys in *. cbn [map existsb fst] in Hmem.
      apply String.eqb_neq in Hk. rewrite Hk in Hmem. exact Hmem.
Qed.

Lemma assoc_obj_insert_eq (props : list (string * A)) key k (v : A) :
  mem k (keys props) = false ->
  assoc key (obj_insert props k v) =
  if String.eqb key k then Some v else assoc key props.
Proof.
  induction props as [|[k0 w] props IH]; [reflexivity|].
  intros Hmem. unfold mem, keys in Hmem. cbn [map existsb fst] in Hmem.
  apply Bool.orb_false_iff in Hmem. destruct Hmem as [Hk Hmem].
  cbn [obj_insert]. destruct (key_before k k0); [reflexivity|].
  cbn [assoc]. destruct (String.eqb_spec key k0) as [->|Hkey].
  - rewrite String.eqb_sym, Hk. reflexivity.
  - apply IH. exact Hmem.
Qed.

(** After [o[k] = v], [o[key]] is [v] for [key = k] and what it was for
    another key. *)
Lemma assoc_obj_set (props : list (string * A)) key k (v : A) :
  assoc key (obj_set props k v) =
  if String.eqb key k then Some v else assoc key props.
Proof.
  unfold obj_set. destruct (mem k (keys props)) eqn:Hmem.
  - apply assoc_obj_replace_eq. assumption.
  - apply assoc_obj_insert_eq. assumption.
Qed.

Lemma assoc_app (l1 l2 : list (string * A)) key :
  assoc key (l1 ++ l2) =
  match assoc key l1 with Some v => Some v | None => assoc key l2 end.
Proof.
  induction l1 as [|[k v] l1 IH]; simpl; [reflexivity|].
  destruct (String.eqb key k); [reflexivity|apply IH].
Qed.

Lemma assoc_NoDup (l : list (string * A)) key (v : A) :
  NoDup (keys l) -> In (key, v) l -> assoc key l = Some v.
Proof.
  induction l as [|[k w] l IH]; simpl; intros Hnd H; [contradiction|].
  inversion Hnd as [|k' ks Hk Hks]; subst.
  destruct H as [E|H].
  - injection E as -> ->. rewrite String.eqb_refl. reflexivity.
  - destruct (String.eqb_spec key k) as [->|_]; [|auto].
    elim Hk. apply (in_map fst) in H. exact H.
Qed.
End AssignFacts.

Section FieldsLookup.
Variable compile : Meta.t -> result Guard.

(** What [fields[key]] is after the loop: for [__proto__] what it was
    before, for another key the guard of its last declaration, or what it
    was before when the key is not declared. *)
Lemma fields_loop_lookup (l : list (string * Meta.t)) :
  forall fields fields',
    fields_loop compile l fields = Ok fields' ->
    forall key,
      assoc key (fst fields') =
      if String.eqb key "__proto__" then assoc key (fst fields)
      else match assoc key (rev l) with
           | Some m => match compile m with Ok g => Some g | Throw _ => None end
           | None => assoc key (fst fields)
           end.
Proof.
  induction l as [|[k m] l IH]; cbn [fields_loop]; intros fields fields' H key.
  - injection H as <-. cbn. destruct (String.eqb key "__proto__"); reflexivity.
  - destruct (compile m) as [g|e] eqn:Hm; [|discriminate].
    rewrite (IH _ _ H key). cbn [rev]. rewrite assoc_app. cbn [assoc].
    unfold fields_assign.
    destruct (String.eqb_spec key "__proto__") as [->|Hkey].
    + destruct (String.eqb_spec k "__proto__") as [->|Hk]; [reflexivity|].
      cbn [fst]. rewrite assoc_obj_set.
      destruct (String.eqb_spec "__proto__" k) as [E|_]; [congruence|reflexivity].
    + destruct (assoc key (rev l)) as [m'|]; [reflexivity|].
      destruct (String.eqb_spec k "__proto__") as [->|Hk].
      * cbn [fst]. destruct (String.eqb_spec key "__proto__"); [contradiction|].
        reflexivity.
      * cbn [fst]. rewrite assoc_obj_set.
        destruct (String.eqb key k); [rewrite Hm|]; reflexivity.
Qed.

(** The prototype of [fields] is replaced exactly when [__proto__] is a
    declared key. *)
Lemma fields_loop_proto (l : list (string * Meta.t)) :
  forall fields fields',
    fields_loop compile l fields = Ok fields' ->
    snd fields' = snd fields || mem "__proto__" (keys l).
Proof.
  induction l as [|[k m] l IH]; cbn [fields_loop]; intros fields fields' H.
  - injection H as <-. cbn. rewrite Bool.orb_false_r. reflexivity.
  - destruct (compile m) as [g|e]; [|discriminate].
    rewrite (IH _ _ H). unfold fields_assign, mem, keys. cbn [map existsb fst].
    rewrite (String.eqb_sym "__proto__" k).
    destruct (String.eqb k "__proto__"); cbn [snd orb].
    + rewrite Bool.orb_true_r. reflexivity.
    + reflexivity.
Qed.

Lemma fields_loop_compiles (l : list (string * Meta.t)) :
  forall fields fields',
    fields_loop compile l fields = Ok fields' ->
    forall k m, In (k, m) l -> exists g, compile m = Ok g.
Proof.
  induction l as [|[k0 m0] l IH]; cbn [fields_loop]; intros fields fields' H k m Hin.
  - contradiction.
  - destruct (compile m0) as [g|e] eqn:Hm; [|discriminate].
    destruct Hin as [E|Hin].
    + injection E as <- <-. eauto.
    + apply (IH _ _ H k m Hin).
Qed.
End FieldsLookup.

Lemma declared_In (fields : list (string * Meta.t)) key m :
  declared fields key = Some m -> In (key, m) fields.
Proof.
  unfold declared. intros H. apply assoc_In in H. apply in_rev. assumption.
Qed.

Lemma declared_NoDup (fields : list (string * Meta.t)) key m :
  NoDup (keys fields) -> In (key, m) fields -> declared fields key = Some m.
Proof.
  intros Hnd Hin. unfold declared. apply assoc_NoDup.
  - unfold keys. rewrite map_rev. apply NoDup_rev. assumption.
  - apply in_rev. rewrite rev_involutive. assumption.
Qed.

(** The own keys of [fields] after the loop are declared keys. *)
Lemma compiled_keys_declared provider fields fields' :
  fields_loop (go provider) fields fields_empty = Ok fields' ->
  forall key g, assoc key (fst fields') = Some g ->
    key <> "__proto__" /\
    exists m, declared fields key = Some m /\ go provider m = Ok g.
Proof.
  intros Hloop key g H. rewrite (fields_loop_lookup _ _ _ _ Hloop key) in H.
  destruct (String.eqb_spec key "__proto__") as [->|Hkey]; [discriminate H|].
  split; [assumption|]. unfold declared.
  destruct (assoc key (rev fields)) as [m|]; [|discriminate H].
  exists m. split; [reflexivity|].
  destruct (go provider m) as [g'|e]; [congruence|discriminate H].
Qed.

(** X8: after the loop over [meta.fields], [fields] holds under a key
    the guard compiled from the last declaration of that key (an earlier
    declaration of the same key is not checked), and holds nothing under
    [__proto__]: a field declared under that key is never checked, its
    assignment replaces the prototype of [fields]. *)
Theorem struct_fields_last_declaration (R : Runtime) fields indexSignature guard :
  go (guardFor R) (Meta.Struct fields indexSignature) = Ok guard ->
  exists fields' fields_proto oIndexSignature,
    guard = struct_guard fields' fields_proto oIndexSignature /\
    (forall key g,
       assoc key fields' = Some g <->
       key <> "__proto__" /\
       exists m, declared fields key = Some m /\ go (guardFor R) m = Ok g) /\
    assoc "__proto__" fields' = None /\
    (fields_proto = true <-> In "__proto__" (keys fields)).
Proof.
  intros H. apply go_Struct_inv in H.
  destruct H as (fields' & oi & -> & Hloop & _).
  exists (fst fields'), (snd fields'), oi. split; [reflexivity|]. split; [|split].
  - intros key g. split; [apply (compiled_keys_declared _ _ _ Hloop)|].
    intros (Hkey & m & Hm & Hg).
    rewrite (fields_loop_lookup _ _ _ _ Hloop key).
    apply String.eqb_neq in Hkey. rewrite Hkey.
    unfold declared in Hm. rewrite Hm, Hg. reflexivity.
  - rewrite (fields_loop_lookup _ _ _ _ Hloop "__proto__"). reflexivity.
  - rewrite (fields_loop_proto _ _ _ _ Hloop). cbn [fields_empty snd orb].
    apply mem_In.
Qed.

Lemma struct_fields_last_declaration_witness :
  exists fields' fields_proto oIndexSignature,
    go (guardFor (bare_runtime no_closures))
       (Meta.Struct [("x", Meta.Number None None); ("__proto__", Meta.Boolean);
                     ("x", Meta.String None None)] None) =
      Ok (struct_guard fields' fields_proto oIndexSignature) /\
    assoc "x" fields' = Some string_guard /\
    assoc "__proto__" fields' = None.
Proof.
  destruct (struct_fields_last_declaration (bare_runtime no_closures)
              [("x", Meta.Number None None); ("__proto__", Meta.Boolean);
               ("x", Meta.String None None)] None _ eq_refl)
    as (fields' & fields_proto & oi & Hg & Hlookup & Hproto & _).
  exists fields', fields_proto, oi. split; [rewrite <- Hg; reflexivity|]. split.
  - apply Hlookup. split; [discriminate|].
    exists (Meta.String None None). split; reflexivity.
  - exact Hproto.
Defined.

(** ** What a compiled struct reads *)

(** X9: the predicate compiled from a Struct node without index
    signature reads the properties of the declared keys and nothing else:
    on two objects whose properties of the declared keys read the same it
    has the same outcome, so other keys, their values (an accessor that
    throws among them) and the order of the keys change nothing. *)
Theorem struct_without_index_signature_reads_declared_keys (R : Runtime)
  fields guard :
  go (guardFor R) (Meta.Struct fields None) = Ok guard ->
  forall a a',
    isUnknownIndexSignature a = true ->
    isUnknownIndexSignature a' = true ->
    (forall key, In key (keys fields) -> key <> "__proto__" ->
                 get_property a key = get_property a' key) ->
    forall fuel, is_ R fuel guard a = is_ R fuel guard a'.
Proof.
  intros H a a' Ha Ha' Hsame [|fuel]; [reflexivity|].
  apply go_Struct_inv in H. destruct H as (fields' & oi & -> & Hloop & Ho).
  apply go_option_None in Ho. subst oi.
  cbn [is_]. rewrite Ha, Ha'. cbn [negb]. f_equal.
  apply every_ext. intros key Hkey.
  destruct (assoc key (fst fields')) as [g|] eqn:Hg; [|reflexivity].
  destruct (compiled_keys_declared _ _ _ Hloop key g Hg) as (Hproto & m & Hm & _).
  apply declared_In in Hm. apply (in_map fst) in Hm.
  rewrite (Hsame key Hm Hproto). reflexivity.
Qed.

Lemma struct_without_index_signature_reads_declared_keys_witness :
  is_ (bare_runtime no_closures) 2 (struct_guard [("x", number_guard)] false None)
    (VObj [("y", Throw (Error "boom")); ("x", Ok (VNum (num_of_Z 1)))]) = ret true.
Proof.
  rewrite (struct_without_index_signature_reads_declared_keys
             (bare_runtime no_closures) [("x", Meta.Number None None)]
             (struct_guard [("x", number_guard)] false None) eq_refl
             (VObj [("y", Throw (Error "boom")); ("x", Ok (VNum (num_of_Z 1)))])
             (data_object [("x", VNum (num_of_Z 1))]) eq_refl eq_refl).
  - reflexivity.
  - intros key [<-|[]] _. reflexivity.
Defined.

Lemma go_option_Some provider (m : Meta.t) (o : option Guard) :
  go_option provider (Some m) = Ok o -> exists g, o = Some g /\ go provider m = Ok g.
Proof.
  cbn [go_option]. destruct (go provider m) as [g|e]; cbn [bind]; [|discriminate].
  intros H. injection H as <-. eauto.
Qed.

(** X10: for a Struct node whose declared keys are distinct and are not
    [__proto__], the compiled guard accepts an input exactly when the input
    is an object that is neither [null] nor an array, the guard of every
    declared field accepts the input's property of its key, and, with an
    index signature, its guard accepts the property of every own key of
    the input that is neither a declared key nor the name of a property of
    [Object.prototype]. *)
Theorem struct_guard_of_distinct_keys (R : Runtime) fields indexSignature guard :
  NoDup (keys fields) ->
  ~ In "__proto__" (keys fields) ->
  go (guardFor R) (Meta.Struct fields indexSignature) = Ok guard ->
  forall a,
    accepts R guard a <->
    isUnknownIndexSignature a = true /\
    (forall key m, In (key, m) fields ->
       exists g v, go (guardFor R) m = Ok g /\
                   get_property a key = Ok v /\ accepts R g v) /\
    (forall value, indexSignature = Some value ->
       exists g, go (guardFor R) value = Ok g /\
         forall key, In key (keys (own_properties a)) ->
                     ~ In key (keys fields) ->
                     mem key object_prototype_keys = false ->
                     exists v, get_property a key = Ok v /\ accepts R g v).
Proof.
  intros Hnd Hnp H a. apply go_Struct_inv in H.
  destruct H as (fields' & oi & -> & Hloop & Ho).
  assert (Hproto : snd fields' = false).
  { rewrite (fields_loop_proto _ _ _ _ Hloop). cbn [fields_empty snd orb].
    destruct (mem "__proto__" (keys fields)) eqn:E; [|reflexivity].
    apply mem_In in E. contradiction. }
  assert (Hfield : forall key m, In (key, m) fields ->
             exists g, go (guardFor R) m = Ok g /\ assoc key (fst fields') = Some g).
  { intros key m Hin.
    destruct (fields_loop_compiles _ _ _ _ Hloop key m Hin) as [g Hg].
    exists g. split; [assumption|].
    rewrite (fields_loop_lookup _ _ _ _ Hloop key).
    destruct (String.eqb_spec key "__proto__") as [->|_].
    - elim Hnp. apply (in_map fst) in Hin. exact Hin.
    - generalize (declared_NoDup fields key m Hnd Hin). unfold declared.
      intros ->. rewrite Hg. reflexivity. }
  assert (Hmem : forall key, mem key (keys (fst fields')) = true <-> In key (keys fields)).
  { intros key. rewrite mem_keys_assoc. split.
    - destruct (assoc key (fst fields')) as [g|] eqn:Hg; [|discriminate].
      intros _. destruct (compiled_keys_declared _ _ _ Hloop key g Hg) as (_ & m & Hm & _).
      apply declared_In in Hm. apply (in_map fst) in Hm. exact Hm.
    - intros Hin. unfold keys in Hin. apply in_map_iff in Hin.
      destruct Hin as ([k m] & <- & Hin). cbn [fst].
      destruct (Hfield k m Hin) as (g & _ & ->). reflexivity. }
  rewrite struct_accepts. rewrite Hproto. split.
  - intros (Ha & H1 & H2). split; [assumption|]. split.
    + intros key m Hin. destruct (Hfield key m Hin) as (g & Hg & Hassoc).
      destruct (H1 key) as (g' & v & Hg' & Hv & Hacc).
      { apply assoc_In in Hassoc. apply (in_map fst) in Hassoc. exact Hassoc. }
      rewrite Hassoc in Hg'. injection Hg' as <-. eauto.
    + intros value ->. apply go_option_Some in Ho. destruct Ho as (g & -> & Hg).
      exists g. split; [assumption|]. intros key Hown Hnot Hop.
      apply (H2 g eq_refl key Hown). unfold fields_has. rewrite Hop.
      destruct (mem key (keys (fst fields'))) eqn:E; [|reflexivity].
      apply Hmem in E. contradiction.
  - intros (Ha & H1 & H2). split; [assumption|]. split.
    + intros key Hkey. destruct (assoc_keys key _ Hkey) as [g Hg].
      destruct (compiled_keys_declared _ _ _ Hloop key g Hg) as (_ & m & Hm & Hgm).
      apply declared_In in Hm.
      destruct (H1 key m Hm) as (g' & v & Hg' & Hv & Hacc).
      rewrite Hgm in Hg'. injection Hg' as <-. eauto.
    + intros idx -> key Hown Hhas.
      destruct (go_option_inv _ _ _ Ho idx eq_refl) as (value & -> & Hidx).
      destruct (H2 value eq_refl) as (g & Hg & Hkeys).
      rewrite Hidx in Hg. injection Hg as <-.
      unfold fields_has in Hhas. cbn [andb] in Hhas.
      apply Bool.orb_false_iff in Hhas. destruct Hhas as [Hhas Hop].
      apply Bool.orb_false_iff in Hhas. destruct Hhas as [Hhas _].
      apply (Hkeys key Hown); [|assumption].
      intros Hin. apply Hmem in Hin. congruence.
Qed.

Lemma struct_guard_of_distinct_keys_witness :
  exists guard,
    go (guardFor (bare_runtime no_closures))
       (Meta.Struct [("x", Meta.Number None None)] (Some (Meta.String None None)))
      = Ok guard /\
    accepts (bare_runtime no_closures) guard
      (data_object [("x", VNum (num_of_Z 1)); ("y", VStr "ok")]).
Proof.
  eexists. split; [reflexivity|].
  apply (struct_guard_of_distinct_keys (bare_runtime no_closures)
           [("x", Meta.Number None None)] (Some (Meta.String None None))).
  - repeat constructor. intros [].
  - intros [H|[]]. discriminate H.
  - reflexivity.
  - split; [reflexivity|]. split.
    + intros key m [E|[]]. injection E as <- <-.
      exists number_guard, (VNum (num_of_Z 1)). repeat split. exists 1. reflexivity.
    + intros value E. injection E as <-. exists string_guard. split; [reflexivity|].
      intros key [<-|[<-|[]]] Hnot _.
      * elim Hnot. left. reflexivity.
      * exists (VStr "ok"). split; [reflexivity|]. exists 1. reflexivity.
Defined.

(** ** Nodes without [Apply] *)

Lemma mapM_ext {A B : Type} (f f' : A -> result B) (l : list A) :
  (forall x, In x l -> f x = f' x) -> mapM f l = mapM f' l.
Proof.
  induction l as [|x l IH]; simpl; intros H; [reflexivity|].
  rewrite (H x (or_introl eq_refl)), IH; [reflexivity|].
  intros y Hy. apply H. right; assumption.
Qed.

Lemma fields_loop_ext (f f' : Meta.t -> result Guard) (l : list (string * Meta.t)) :
  (forall field, In field l -> f (snd field) = f' (snd field)) ->
  forall fields, fields_loop f l fields = fields_loop f' l fields.
Proof.
  induction l as [|[k m] l IH]; simpl; intros H fields; [reflexivity|].
  generalize (H (k, m) (or_introl eq_refl)). cbn [snd]. intros <-.
  destruct (f m); [|reflexivity].
  apply IH. intros field Hf. apply H. right; assumption.
Qed.

(** X11: the compiler throws only at an [Apply] node: for a node that
    holds none (the closures of [Lazy] nodes are not looked into) it
    returns a guard, the same whatever the providers. *)
Theorem go_without_Apply provider (m : Meta.t) :
  apply_free m = true ->
  (exists guard, go provider m = Ok guard) /\
  (forall provider', go provider' m = go provider m).
Proof.
  induction m using Meta_induction; intros Hf; cbn [apply_free] in Hf;
    try discriminate Hf; try (split; [cbn [go]; eauto|reflexivity]).
  - apply andb_prop in Hf. destruct Hf as [Hc Hr].
    rewrite forallb_forall in Hc. rewrite Forall_forall in H.
    assert (Hrest : (exists o, go_option provider restElement = Ok o) /\
                    forall provider', go_option provider' restElement =
                                      go_option provider restElement).
    { destruct restElement as [rest|]; [|split; [cbn; eauto|reflexivity]].
      destruct (H0 Hr) as [[g Hg] Hp]. cbn [go_option]. split.
      - rewrite Hg. cbn. eauto.
      - intros provider'. rewrite Hp. reflexivity. }
    destruct Hrest as [[o Ho] Hop]. split.
    + destruct (mapM_ok (go provider) components) as [gs Hgs].
      { intros x Hx. apply (H x Hx). apply Hc, Hx. }
      rewrite go_Tuple, Hgs, Ho. cbn. eauto.
    + intros provider'. rewrite !go_Tuple, Hop.
      rewrite (mapM_ext (go provider') (go provider)); [reflexivity|].
      intros x Hx. apply (H x Hx). apply Hc, Hx.
  - rewrite forallb_forall in Hf. rewrite Forall_forall in H. split.
    + destruct (mapM_ok (go provider) members) as [gs Hgs].
      { intros x Hx. apply (H x Hx). apply Hf, Hx. }
      cbn [go]. rewrite Hgs. cbn. eauto.
    + intros provider'. cbn [go].
      rewrite (mapM_ext (go provider') (go provider)); [reflexivity|].
      intros x Hx. apply (H x Hx). apply Hf, Hx.
  - apply andb_prop in Hf. destruct Hf as [Hc Hr].
    rewrite forallb_forall in Hc. rewrite Forall_forall in H.
    assert (Hrest : (exists o, go_option provider indexSignature = Ok o) /\
                    forall provider', go_option provider' indexSignature =
                                      go_option provider indexSignature).
    { destruct indexSignature as [value|]; [|split; [cbn; eauto|reflexivity]].
      destruct (H0 Hr) as [[g Hg] Hp]. cbn [go_option]. split.
      - rewrite Hg. cbn. eauto.
      - intros provider'. rewrite Hp. reflexivity. }
    destruct Hrest as [[o Ho] Hop]. split.
    + destruct (fields_loop_ok (go provider) fields) with (fields := fields_empty)
        as [fields' Hfs].
      { intros k m Hm. apply (H (k, m) Hm). apply (Hc (k, m) Hm). }
      rewrite go_Struct, Hfs, Ho. cbn. eauto.
    + intros provider'. rewrite !go_Struct, Hop.
      rewrite (fields_loop_ext (go provider') (go provider)); [reflexivity|].
      intros field Hfield. apply (H field Hfield). apply (Hc field Hfield).
Qed.

Lemma go_without_Apply_witness :
  exists guard,
    go (guardFor (arrayOf_runtime no_closures))
       (Meta.Struct [("a", optional_string)] (Some A_schema)) = Ok guard /\
    go (guardFor (bare_runtime no_closures))
       (Meta.Struct [("a", optional_string)] (Some A_schema)) = Ok guard.
Proof.
  destruct (go_without_Apply (guardFor (arrayOf_runtime no_closures))
              (Meta.Struct [("a", optional_string)] (Some A_schema)) eq_refl)
    as [[guard Hg] Hp].
  exists guard. split; [assumption|]. rewrite Hp. assumption.
Defined.

(** ** A union of guards that return *)

(** X12: when every member of a union returns a boolean on [x], so does
    the union, and it accepts [x] exactly when some member accepts [x]; the
    order of the members, and a member given twice, then change nothing. *)
Theorem union_is_or (R : Runtime) members x :
  (forall m, In m members -> returns R m x) ->
  returns R (union_guard members) x /\
  (accepts R (union_guard members) x <-> exists m, In m members /\ accepts R m x) /\
  (forall members',
     (forall m, In m members' <-> In m members) ->
     (accepts R (union_guard members') x <-> accepts R (union_guard members) x)).
Proof.
  assert (Hor : forall ms,
             (forall m, In m ms -> returns R m x) ->
             (accepts R (union_guard ms) x <-> exists m, In m ms /\ accepts R m x)).
  { intros ms Hret. split.
    - intros H. apply union_accepts in H.
      destruct H as (l1 & m & l2 & -> & Hm & _).
      exists m. split; [apply in_or_app; right; left; reflexivity|assumption].
    - intros (m & Hin & Hm).
      destruct (union_returns R ms x Hret) as [[|] Hb]; [exact Hb|].
      generalize (proj1 (union_rejects R ms x) Hb m Hin). intros Hrej.
      generalize (evaluates_unique R _ _ _ _ Hm Hrej). discriminate. }
  intros Hret. split; [apply union_returns; assumption|].
  split; [apply Hor; assumption|].
  intros members' Hsame. rewrite (Hor members Hret).
  rewrite (Hor members').
  - split; intros (m & Hin & Hm); exists m; split; try assumption; apply Hsame;
      assumption.
  - intros m Hin. apply Hret. apply Hsame. assumption.
Qed.

Lemma union_is_or_witness :
  accepts (bare_runtime no_closures)
    (union_guard [of_guard VUndefined; string_guard; of_guard VUndefined]) (VStr "a").
Proof.
  assert (Hret : forall m, In m [string_guard; of_guard VUndefined] ->
                           returns (bare_runtime no_closures) m (VStr "a")).
  { intros m [<-|[<-|[]]]; [exists true|exists false]; exists 1; reflexivity. }
  apply (proj2 (proj2 (union_is_or (bare_runtime no_closures)
                         [string_guard; of_guard VUndefined] (VStr "a") Hret))
           [of_guard VUndefined; string_guard; of_guard VUndefined]).
  - intros m. simpl. tauto.
  - exists 2. reflexivity.
Defined.

(** ** Bounds that no value meets, and bounds on [null] and [undefined] *)

Lemma within_empty (x min max : js_number) :
  num_le min max = false -> within x (Some min) (Some max) = false.
Proof.
  intros H. unfold within, num_ge.
  destruct (num_le min x) eqn:H1; [|reflexivity].
  destruct (num_le x max) eqn:H2; [|reflexivity].
  rewrite (num_le_trans min x max H1 H2) in H. discriminate H.
Qed.

(** X13: a String or Number node whose lower bound is not [<=] its upper
    bound (the lower one is greater, or one of them is [NaN]) compiles,
    and its guard returns [false] on every value. *)
Theorem empty_range_rejects (R : Runtime) (min max : js_number) :
  num_le min max = false ->
  (exists guard,
     go (guardFor R) (Meta.String (Some min) (Some max)) = Ok guard /\
     forall fuel a, is_ R (3 + fuel) guard a = ret false) /\
  (exists guard,
     go (guardFor R) (Meta.Number (Some min) (Some max)) = Ok guard /\
     forall fuel a, is_ R (3 + fuel) guard a = ret false).
Proof.
  intros H. split.
  - destruct (go_String_is R (Some min) (Some max)) as (guard & Hg & His).
    exists guard. split; [assumption|]. intros fuel a. rewrite His.
    destruct a; try reflexivity. rewrite (within_empty _ _ _ H). reflexivity.
  - destruct (go_Number_is R (Some min) (Some max)) as (guard & Hg & His).
    exists guard. split; [assumption|]. intros fuel a. rewrite His.
    destruct a; try reflexivity. rewrite (within_empty _ _ _ H). reflexivity.
Qed.

Lemma empty_range_rejects_witness :
  exists guard,
    go (guardFor (bare_runtime no_closures))
       (Meta.String (Some (num_of_Z 3)) (Some (num_of_Z 2))) = Ok guard /\
    is_ (bare_runtime no_closures) 3 guard (VStr "abc") = ret false.
Proof.
  destruct (proj1 (empty_range_rejects (bare_runtime no_closures)
                     (num_of_Z 3) (num_of_Z 2) eq_refl)) as (guard & Hg & His).
  exists guard. split; [assumption|]. apply (His 0).
Defined.

(** X14: on [null] and [undefined], when the guard they are applied to
    accepts the value, [minLength] and [maxLength] throw a [TypeError]
    (they read [a.length]), while [minimum] and [maximum] return a boolean:
    they compare [null] as [0], and [undefined] as [NaN], which meets no
    bound. *)
Theorem bounds_on_nullish (R : Runtime) (g : Guard) (n : js_number) (a : value) :
  a = VUndefined \/ a = VNull ->
  accepts R g a ->
  (exists e, evaluates R (minLength n g) a (Throw (TypeError e))) /\
  (exists e, evaluates R (maxLength n g) a (Throw (TypeError e))) /\
  evaluates R (minimum n g) a
    (Ok (match a with VNull => num_ge (num_of_Z 0) n | _ => false end)) /\
  evaluates R (maximum n g) a
    (Ok (match a with VNull => num_le (num_of_Z 0) n | _ => false end)).
Proof.
  intros Ha [fuel Hg].
  split; [|split; [|split]].
  - destruct Ha as [-> | ->]; eexists; exists (S fuel); cbn [is_]; rewrite Hg;
      reflexivity.
  - destruct Ha as [-> | ->]; eexists; exists (S fuel); cbn [is_]; rewrite Hg;
      reflexivity.
  - destruct Ha as [-> | ->]; exists (S fuel); cbn [is_]; rewrite Hg.
    + cbn. destruct n; reflexivity.
    + reflexivity.
  - destruct Ha as [-> | ->]; exists (S fuel); cbn [is_]; rewrite Hg.
    + cbn. reflexivity.
    + reflexivity.
Qed.

Lemma bounds_on_nullish_witness :
  evaluates (bare_runtime no_closures)
    (minimum (num_of_Z 0) (of_guard VNull)) VNull (Ok true) /\
  exists e, evaluates (bare_runtime no_closures)
              (minLength (num_of_Z 0) (of_guard VNull)) VNull (Throw (TypeError e)).
Proof.
  destruct (bounds_on_nullish (bare_runtime no_closures) (of_guard VNull)
              (num_of_Z 0) VNull (or_intror eq_refl))
    as (Hmin & _ & Hminimum & _).
  - exists 1. reflexivity.
  - split; [exact Hminimum|exact Hmin].
Defined.

(** ** A child that does not compile *)

Lemma mapM_throws {A B : Type} (f : A -> result B) (before : list A) (x : A)
  (after : list A) (e : error) :
  (forall y, In y before -> exists z, f y = Ok z) ->
  f x = Throw e ->
  mapM f (before ++ x :: after) = Throw e.
Proof.
  intros Hb Hx. induction before as [|y before IH]; simpl.
  - rewrite Hx. reflexivity.
  - destruct (Hb y (or_introl eq_refl)) as [z ->].
    rewrite IH; [reflexivity|]. intros w Hw. apply Hb. right; assumption.
Qed.

Lemma fields_loop_throws (f : Meta.t -> result Guard)
  (before : list (string * Meta.t)) key (m : Meta.t)
  (after : list (string * Meta.t)) (e : error) :
  (forall field, In field before -> exists g, f (snd field) = Ok g) ->
  f m = Throw e ->
  forall fields, fields_loop f (before ++ (key, m) :: after) fields = Throw e.
Proof.
  intros Hb Hm. induction before as [|[k0 m0] before IH]; simpl; intros fields.
  - rewrite Hm. reflexivity.
  - destruct (Hb (k0, m0) (or_introl eq_refl)) as [g Hg]. cbn [snd] in Hg.
    rewrite Hg. apply IH. intros field Hf. apply Hb. right; assumption.
Qed.

(** X15: the compiler gives no partial result: when a component of a
    Tuple node, a member of a Union node or the value of a field of a
    Struct node does not compile, and the ones before it do, compiling the
    node throws the exception of that child, whatever comes after it. *)
Theorem go_child_throws (R : Runtime) (m : Meta.t) (e : error) :
  go (guardFor R) m = Throw e ->
  (forall before after restElement,
     (forall x, In x before -> exists g, go (guardFor R) x = Ok g) ->
     go (guardFor R) (Meta.Tuple (before ++ m :: after) restElement) = Throw e) /\
  (forall before after,
     (forall x, In x before -> exists g, go (guardFor R) x = Ok g) ->
     go (guardFor R) (Meta.Union (before ++ m :: after)) = Throw e) /\
  (forall before key after indexSignature,
     (forall field, In field before ->
                    exists g, go (guardFor R) (snd field) = Ok g) ->
     go (guardFor R) (Meta.Struct (before ++ (key, m) :: after) indexSignature) =
     Throw e).
Proof.
  intros Hm. split; [|split].
  - intros before after restElement Hb. rewrite go_Tuple.
    rewrite (mapM_throws _ _ _ _ _ Hb Hm). reflexivity.
  - intros before after Hb. cbn [go].
    rewrite (mapM_throws _ _ _ _ _ Hb Hm). reflexivity.
  - intros before key after indexSignature Hb. rewrite go_Struct.
    rewrite (fields_loop_throws (go (guardFor R)) _ key m after e Hb Hm).
    reflexivity.
Qed.

Lemma go_child_throws_witness :
  go (guardFor (bare_runtime no_closures))
     (Meta.Union [Meta.Boolean; Meta.Apply example_symbol [] []; Meta.Boolean]) =
  Throw (Error (missing_message example_symbol)).
Proof.
  apply (proj1 (proj2 (go_child_throws (bare_runtime no_closures)
                         (Meta.Apply example_symbol [] [])
                         (Error (missing_message example_symbol)) eq_refl))
           [Meta.Boolean] [Meta.Boolean]).
  intros x [<-|[]]. eexists. reflexivity.
Defined.

(** ** The caches *)

Lemma consistent_empty (R : Runtime) : consistent R empty_store.
Proof.
  split.
  - intros m guard [].
  - intros [|c] entry k guard E; discriminate E.
Qed.

Lemma arrayOf_uniform closures : uniform (arrayOf_runtime closures).
Proof.
  intros rho name annotations guards. cbn [guardFor arrayOf_runtime].
  destruct (String.eqb name "arrayOf"); [|reflexivity].
  destruct guards as [|item [|item' guards]]; reflexivity.
Qed.

Section Consistent.
Variable R : Runtime.
Variable same_node : Meta.t -> Meta.t -> bool.
Hypothesis same_node_eq : forall m m', same_node m m' = true -> m = m'.
Hypothesis providers : uniform R.

Lemma go_m_consistent (m : Meta.t) :
  step (stays_consistent R) (go_m R same_node m).
Proof.
  intros s Hs. destruct (go_m R same_node m s) as [r s1] eqn:E.
  apply (go_m_agrees R same_node same_node_eq providers m s r s1 Hs E).
Qed.

Lemma get_consistent (c : nat) : step (stays_consistent R) (get R same_node c).
Proof.
  intros s Hs.
  destruct (Nat.lt_ge_cases c (List.length (closures s))) as [Hlt|Hge].
  - destruct (get R same_node c s) as [r s1] eqn:E.
    apply (get_agrees R same_node same_node_eq providers c s s1 r Hs Hlt E).
  - apply nth_error_None in Hge.
    unfold get, memoize, get_cache, call_closure. rewrite Hge. assumption.
Qed.

Lemma is_m_consistent (fuel : nat) (guard : Guard) (a : value) :
  step (stays_consistent R) (is_m R same_node fuel guard a).
Proof.
  apply (step_is_m (stays_consistent R)).
  - intros s H. exact H.
  - intros s1 s2 s3 H12 H23 H. apply H23, H12, H.
  - apply get_consistent.
Qed.

Lemma later_consistent (s s' : store) :
  later R same_node s s' -> consistent R s -> consistent R s'.
Proof.
  induction 1 as [s|s s' m _ IH|s s' fuel guard a _ IH]; intros Hs; [assumption| |].
  - apply IH. apply (go_m_consistent m s Hs).
  - apply IH. apply (is_m_consistent fuel guard a s Hs).
Qed.
End Consistent.

(** X16: the caches of [go] and of [get] change no result.  When the
    identity of nodes tells apart the nodes that differ, and the providers
    take the guards they are given as they are, then in every store that
    compilations and calls of predicates lead to from the empty store, the
    memoized [go] throws on a node the exception that [go] throws, or
    answers a guard when [go] does; and from then on, after any further
    compilations and calls, the predicate of that guard has on every input,
    at every call depth, the outcome that [is_] gives for the guard of [go],
    compiling the node behind a lazy guard at every call. *)
Theorem memoized_guards_agree (R : Runtime) (same_node : Meta.t -> Meta.t -> bool) :
  (forall m1 m2, same_node m1 m2 = true -> m1 = m2) ->
  uniform R ->
  forall s m,
    later R same_node empty_store s ->
    match fst (go_m R same_node m s), go (guardFor R) m with
    | Ok guard, Ok guard' =>
        forall s' fuel a,
          later R same_node (snd (go_m R same_node m s)) s' ->
          fst (is_m R same_node fuel guard a s') = is_ R fuel guard' a
    | Throw e, Throw e' => e = e'
    | _, _ => False
    end.
Proof.
  intros Hsound Hu s m Hl.
  assert (Hs : consistent R s).
  { apply (later_consistent R same_node Hsound Hu empty_store s Hl).
    apply consistent_empty. }
  destruct (go_m R same_node m s) as [r s1] eqn:E.
  destruct (go_m_agrees R same_node Hsound Hu m s r s1 Hs E) as [Hs1 Hr].
  cbn [fst snd]. destruct r as [guard|e]; cbn [compiles_as] in Hr.
  - destruct Hr as [-> Hst]. intros s' fuel a Hl'.
    assert (Hs' : consistent R s').
    { apply (later_consistent R same_node Hsound Hu s1 s' Hl' Hs1). }
    assert (Hk : keeps s1 s').
    { apply extends_keeps. apply (later_extends R same_node s1 s' Hl'). }
    destruct (stable_keeps s1 s' guard Hst Hk) as [Hst' He].
    destruct (is_m R same_node fuel guard a s') as [o s2] eqn:Ei.
    destruct (is_m_agrees R same_node Hsound Hu fuel guard a s' Hst' s' o s2 Hs'
                (keeps_refl s') Ei) as (_ & _ & ->).
    cbn [fst]. rewrite He. reflexivity.
  - rewrite Hr. reflexivity.
Qed.

Lemma memoized_guards_agree_witness :
  fst (is_m (arrayOf_runtime B_closures) same_lazy 13 (lazy B_symbol 0)
         (data_object [("b", VStr "b");
                       ("bs", VArr [data_object [("b", VStr "c"); ("bs", VArr [])]])])
         (snd (is_m (arrayOf_runtime B_closures) same_lazy 9 (lazy B_symbol 0)
                 (data_object [("b", VStr "b"); ("bs", VArr [])])
                 (snd (go_m (arrayOf_runtime B_closures) same_lazy B_schema
                         empty_store))))) =
  is_ (arrayOf_runtime B_closures) 13 (lazy B_symbol 0)
    (data_object [("b", VStr "b");
                  ("bs", VArr [data_object [("b", VStr "c"); ("bs", VArr [])]])]).
Proof.
  apply (memoized_guards_agree (arrayOf_runtime B_closures) same_lazy
           same_lazy_eq (arrayOf_uniform B_closures) empty_store B_schema
           (later_now _ _ _)).
  apply later_is with (fuel := 9) (guard := lazy B_symbol 0)
                      (a := data_object [("b", VStr "b"); ("bs", VArr [])]).
  apply later_now.
Defined.
